(** * AwsTranslateManager: a shallow embedding of [src/service/translationManger.js]

    The development follows the CommonJS class [AwsTranslateManager] of
    [src/service/translationManger.js] (the first of the two variants kept in
    that file, the one that validates its arguments and logs through
    [UtilityLogger]).

    Conventions of the embedding.
    - A JavaScript string is a [string]; every [ascii] stands for one code unit
      below 256.  [trim] and [toLowerCase] are the ECMAScript functions on
      that range.
    - A JavaScript value is a [jsval]; an object is a finite map from property
      names to values ([gmap string jsval]), an array a list.  A number is
      kept as an integer: the code only ever tests numbers for truthiness.
    - An [async] method is a computation in the monad [M]: it reads and
      writes the manager ([this]), the bucket contents and a journal of the
      observable calls (log records, collected errors, warnings, requests
      sent to the translation service), and either returns or throws.
    - What the class calls but the sources do not define is a variable of
      section [Manager]: the [JSON] built-ins, the answers of the two AWS
      clients, [json2csv].  The translation service answers a request by
      its contents; the bucket is a map from (bucket, key) to text, and
      asking for a key it does not hold is the error [NoSuchKey].
    - [SafeUtils.sanitizeValidate] is not among the sources either: every
      method is embedded from the point where [params] holds the validated
      arguments, and takes those as its arguments.  Collecting an error is a
      journal entry and does not throw.  Writing a log record is a journal
      entry too, unless the logger throws: [Logger.writeLog] is synchronous
      and can throw, and the methods call it inside their [try] blocks.

    Contents: strings; values, errors and the monad; a reference reader and
    writer of JSON with a concrete configuration; the logger
    ([src/utils/UtilityLogger.js]); the methods of the class, its runner and
    the second version of the class; the notions the properties are stated
    with; the properties (C1 to C10 first, then those of the other methods);
    the reference reader and writer agree on dictionaries; the properties
    on the concrete configuration. *)

From stdpp Require Import base gmap strings list pretty.
From Stdlib Require Import ZArith Ascii String.

Set Warnings "-register-all".
Open Scope string_scope.

(** ** Strings *)

Module JsString.

(** White space and line terminators of ECMAScript with a code below 256:
    TAB, LF, VT, FF, CR, SP and NBSP. *)
Definition is_whitespace (c : ascii) : bool :=
  let n := nat_of_ascii c in
  (n =? 9)%nat || (n =? 10)%nat || (n =? 11)%nat || (n =? 12)%nat
  || (n =? 13)%nat || (n =? 32)%nat || (n =? 160)%nat.

Fixpoint trimStart (s : string) : string :=
  match s with
  | String c r => if is_whitespace c then trimStart r else s
  | EmptyString => EmptyString
  end.

Fixpoint trimEnd (s : string) : string :=
  match s with
  | EmptyString => EmptyString
  | String c r =>
      match trimEnd r with
      | EmptyString => if is_whitespace c then EmptyString else String c EmptyString
      | r' => String c r'
      end
  end.

(** [String.prototype.trim] *)
Definition trim (s : string) : string := trimEnd (trimStart s).

Definition lower_char (c : ascii) : ascii :=
  let n := nat_of_ascii c in
  if ((65 <=? n)%nat && (n <=? 90)%nat)
     || ((192 <=? n)%nat && (n <=? 214)%nat)
     || ((216 <=? n)%nat && (n <=? 222)%nat)
  then ascii_of_nat (n + 32) else c.

(** [String.prototype.toLowerCase] *)
Fixpoint toLowerCase (s : string) : string :=
  match s with
  | EmptyString => EmptyString
  | String c r => String (lower_char c) (toLowerCase r)
  end.

Fixpoint drop (n : nat) (s : string) : string :=
  match n, s with
  | S n', String _ r => drop n' r
  | _, _ => s
  end.

(** [s.includes(sub)] *)
Fixpoint includes (sub s : string) : bool :=
  String.prefix sub s
  || match s with
     | String _ r => includes sub r
     | EmptyString => false
     end.

(** [s.replace(pat, repl)] for a string pattern and a replacement without
    [$]: the first occurrence only. *)
Fixpoint replace (pat repl s : string) : string :=
  if String.prefix pat s then repl +:+ drop (String.length pat) s
  else match s with
       | String c r => String c (replace pat repl r)
       | EmptyString => EmptyString
       end.

(** [s.split(/\r?\n/)]: the pieces between line breaks, a break being LF or
    CR LF; a CR on its own stays in its piece. *)
Fixpoint split_lines (s : string) : list string :=
  match s with
  | EmptyString => [EmptyString]
  | String "010"%char r => EmptyString :: split_lines r
  | String "013"%char (String "010"%char r) => EmptyString :: split_lines r
  | String c r =>
      match split_lines r with
      | h :: t => String c h :: t
      | [] => [String c EmptyString]
      end
  end.

Definition is_empty (s : string) : bool :=
  match s with EmptyString => true | _ => false end.

End JsString.

(** ** Values *)

Inductive jsval : Type :=
| VUndefined
| VNull
| VBool (b : bool)
| VNum (n : Z)
| VStr (s : string)
| VArr (l : list jsval)
| VObj (o : gmap string jsval).

(** [!!v] *)
Definition truthy (v : jsval) : bool :=
  match v with
  | VUndefined | VNull => false
  | VBool b => b
  | VNum n => negb (n =? 0)%Z
  | VStr s => negb (JsString.is_empty s)
  | VArr _ | VObj _ => true
  end.

(** [a || b] *)
Definition js_or (a b : jsval) : jsval := if truthy a then a else b.

(** [v?.k], for the property names the class reads ([Text], [text], [source]):
    only an object carries them. *)
Definition opt_get (v : jsval) (k : string) : jsval :=
  match v with
  | VObj o => default VUndefined (o !! k)
  | _ => VUndefined
  end.

(** ** Errors and outcomes *)

Record JsError : Type := mkError { name : string; message : string }.

Definition Error (msg : string) : JsError := mkError "Error" msg.
Definition TypeError (msg : string) : JsError := mkError "TypeError" msg.

Inductive Outcome (A : Type) : Type :=
| Ok (a : A)
| Throw (e : JsError).
Arguments Ok {A} a.
Arguments Throw {A} e.

(** [v.k]: reading a property of [undefined] or [null] throws. *)
Definition get_prop (v : jsval) (k : string) : Outcome jsval :=
  match v with
  | VUndefined | VNull => Throw (TypeError "Cannot read properties of undefined or null")
  | _ => Ok (opt_get v k)
  end.

Definition obind {A B : Type} (o : Outcome A) (k : A → Outcome B) : Outcome B :=
  match o with
  | Ok a => k a
  | Throw e => Throw e
  end.

(** ** Requests, journal, manager *)

(** The input of [new TranslateTextCommand({...})]. *)
Record TranslateTextCommand : Type := {
  Text : jsval;
  SourceLanguageCode : string;
  TargetLanguageCode : string;
  TerminologyNames : option (list string)
}.

(** The input of [new StartTextTranslationJobCommand(jobParams)]. *)
Record StartTextTranslationJobCommand : Type := {
  JobName : string;
  InputS3Uri : string;
  InputContentType : string;
  OutputS3Uri : string;
  DataAccessRoleArn : string;
  TargetLanguageCodes : list string;
  JobTerminologyNames : option (list string)
}.

Inductive S3Command : Type :=
| GetObjectCommand (Bucket Key : string)
| PutObjectCommand (Bucket Key Body ContentType : string).

Inductive Warning : Type :=
| NotAJsonArray
| SkippedItem (entry : jsval).

(** What a run leaves behind besides the bucket and the manager. *)
Inductive Event : Type :=
| EvLog (flag action msg : string) (critical : bool)
| EvError (title : string)
| EvWarn (w : Warning)
| EvTranslate (c : TranslateTextCommand)
| EvJob (c : StartTextTranslationJobCommand).

(** The message returned by [addOrUpdateDictionaryEntry], by its two forms. *)
Inductive EntryReply : Type :=
| UpdatedEntry (source targetLang : string)
| AddedEntry (source targetLang : string).

Record Config : Type := {
  cfg_region : option string;
  cfg_bucket : option string;
  cfg_jsonKey : string;
  cfg_csvKey : option string;
  cfg_customDictionaryName : option string;
  cfg_iamRoleArn : option string;
  cfg_defaultTargetLanguage : option string
}.

Record Manager : Type := {
  region : string;
  bucket : string;
  jsonKey : string;
  csvKey : string;
  customDictionaryName : string;
  iamRoleArn : option string;
  defaultTargetLanguage : string;
  _dictionaryEntries : jsval
}.

Definition truthy_str (s : string) : bool := negb (JsString.is_empty s).

Definition truthy_opt (o : option string) : bool :=
  match o with
  | Some s => truthy_str s
  | None => false
  end.

(** [o || d] on an optional string. *)
Definition or_default (o : option string) (d : string) : string :=
  match o with
  | Some s => if truthy_str s then s else d
  | None => d
  end.

(** [new AwsTranslateManager(config)] *)
Definition constructor (config : Config) : Manager := {|
  region := or_default (cfg_region config) "us-east-1";
  bucket := or_default (cfg_bucket config) "abhisebucket";
  jsonKey := cfg_jsonKey config;
  csvKey := or_default (cfg_csvKey config) "costume_terminology.csv";
  customDictionaryName :=
    or_default (cfg_customDictionaryName config) "my-translate-overrides";
  iamRoleArn := cfg_iamRoleArn config;
  defaultTargetLanguage := or_default (cfg_defaultTargetLanguage config) "fr";
  _dictionaryEntries := VArr []
|}.

Definition with_entries (m : Manager) (v : jsval) : Manager := {|
  region := region m;
  bucket := bucket m;
  jsonKey := jsonKey m;
  csvKey := csvKey m;
  customDictionaryName := customDictionaryName m;
  iamRoleArn := iamRoleArn m;
  defaultTargetLanguage := defaultTargetLanguage m;
  _dictionaryEntries := v
|}.

Record State : Type := {
  this : Manager;
  s3 : gmap (string * string) string;
  journal : list Event
}.

(** ** The monad of the asynchronous methods *)

Definition M (A : Type) : Type := State → Outcome A * State.

Definition ret {A : Type} (a : A) : M A := λ st, (Ok a, st).

Definition throw {A : Type} (e : JsError) : M A := λ st, (Throw e, st).

Definition bind {A B : Type} (m : M A) (k : A → M B) : M B :=
  λ st, match m st with
        | (Ok a, st') => k a st'
        | (Throw e, st') => (Throw e, st')
        end.

(** [try { body } catch (err) { handler }] *)
Definition try_catch {A : Type} (body : M A) (handler : JsError → M A) : M A :=
  λ st, match body st with
        | (Ok a, st') => (Ok a, st')
        | (Throw e, st') => handler e st'
        end.

Definition lift {A : Type} (o : Outcome A) : M A := λ st, (o, st).

Definition get_this : M Manager := λ st, (Ok (this st), st).

Definition emit (e : Event) : M unit :=
  λ st, (Ok tt, {| this := this st; s3 := s3 st; journal := journal st ++ [e] |}).

(** [this._dictionaryEntries = v] *)
Definition set_entries (v : jsval) : M unit :=
  λ st, (Ok tt, {| this := with_entries (this st) v; s3 := s3 st; journal := journal st |}).

Notation "x <- m ;; k" := (bind m (fun x => k))
  (at level 100, m at next level, right associativity).
Notation "m ;;; k" := (bind m (fun _ => k))
  (at level 100, right associativity).

(** [ErrorHandler.add_error(title, ...)] *)
Definition add_error (title : string) : M unit := emit (EvError title).

(** [console.warn(...)] *)
Definition warn (w : Warning) : M unit := emit (EvWarn w).

Definition dq : string := String (ascii_of_nat 34) EmptyString.

Definition quoted (s : string) : string := dq +:+ s +:+ dq.

Definition NoSuchKey : JsError :=
  mkError "NoSuchKey" "The specified key does not exist.".

(** ** A reference reader and writer of JSON

    A small, executable stand-in for [JSON.parse] and
    [JSON.stringify(v, null, 2)], used to run the methods on concrete bucket
    contents.  It reads integers only (no fraction, no exponent) and escapes
    of code units below 256. *)

Module RefJson.

Definition nl : string := String (ascii_of_nat 10) EmptyString.

Definition SyntaxError : JsError := mkError "SyntaxError" "Unexpected token in JSON".

Definition is_ws (c : ascii) : bool :=
  let n := nat_of_ascii c in
  (n =? 32)%nat || (n =? 9)%nat || (n =? 10)%nat || (n =? 13)%nat.

Fixpoint skip_ws (s : string) : string :=
  match s with
  | String c r => if is_ws c then skip_ws r else s
  | EmptyString => EmptyString
  end.

Definition hex_digit (c : ascii) : option nat :=
  let n := nat_of_ascii c in
  if (48 <=? n)%nat && (n <=? 57)%nat then Some (n - 48)
  else if (97 <=? n)%nat && (n <=? 102)%nat then Some (n - 87)
  else if (65 <=? n)%nat && (n <=? 70)%nat then Some (n - 55)
  else None.

Definition hex4 (a b c d : ascii) : option nat :=
  match hex_digit a, hex_digit b, hex_digit c, hex_digit d with
  | Some x, Some y, Some z, Some w => Some (((x * 16 + y) * 16 + z) * 16 + w)
  | _, _, _, _ => None
  end.

(** The character written [\e]. *)
Definition simple_escape (e : ascii) : option ascii :=
  let n := nat_of_ascii e in
  if (n =? 34)%nat then Some e
  else if (n =? 92)%nat then Some e
  else if (n =? 47)%nat then Some e
  else if (n =? 98)%nat then Some (ascii_of_nat 8)
  else if (n =? 102)%nat then Some (ascii_of_nat 12)
  else if (n =? 110)%nat then Some (ascii_of_nat 10)
  else if (n =? 114)%nat then Some (ascii_of_nat 13)
  else if (n =? 116)%nat then Some (ascii_of_nat 9)
  else None.

Definition cons_char (c : ascii) (r : option (string * string)) : option (string * string) :=
  match r with
  | Some (s, rest) => Some (String c s, rest)
  | None => None
  end.

(** The characters of a string literal, after its opening quote. *)
Fixpoint parse_chars (s : string) : option (string * string) :=
  match s with
  | EmptyString => None
  | String c r =>
      if (nat_of_ascii c =? 34)%nat then Some (EmptyString, r)
      else if (nat_of_ascii c =? 92)%nat then
        match r with
        | String e r1 =>
            if (nat_of_ascii e =? 117)%nat then
              match r1 with
              | String h1 (String h2 (String h3 (String h4 r2))) =>
                  match hex4 h1 h2 h3 h4 with
                  | Some n =>
                      if (n <? 256)%nat then cons_char (ascii_of_nat n) (parse_chars r2)
                      else None
                  | None => None
                  end
              | _ => None
              end
            else
              match simple_escape e with
              | Some ch => cons_char ch (parse_chars r1)
              | None => None
              end
        | EmptyString => None
        end
      else if (nat_of_ascii c <? 32)%nat then None
      else cons_char c (parse_chars r)
  end.

Definition digit (c : ascii) : option Z :=
  let n := nat_of_ascii c in
  if (48 <=? n)%nat && (n <=? 57)%nat then Some (Z.of_nat (n - 48)) else None.

Fixpoint parse_digits (s : string) (acc : Z) : Z * string :=
  match s with
  | String c r =>
      match digit c with
      | Some d => parse_digits r (acc * 10 + d)%Z
      | None => (acc, s)
      end
  | EmptyString => (acc, s)
  end.

(** An integer literal: no leading zero before another digit, and nothing
    of a fraction or exponent after it. *)
Definition parse_int (s : string) : option (Z * string) :=
  match s with
  | String c r =>
      match digit c with
      | Some d =>
          let '(n, rest) := parse_digits r d in
          match r with
          | String c2 _ =>
              if (d =? 0)%Z && bool_decide (is_Some (digit c2)) then None
              else Some (n, rest)
          | EmptyString => Some (n, rest)
          end
      | None => None
      end
  | EmptyString => None
  end.

Definition no_fraction (s : string) : bool :=
  match s with
  | String c _ =>
      let n := nat_of_ascii c in
      negb ((n =? 46)%nat || (n =? 101)%nat || (n =? 69)%nat)
  | EmptyString => true
  end.

Definition parse_number (s : string) : option (jsval * string) :=
  match s with
  | String "-"%char r =>
      match parse_int r with
      | Some (n, rest) => if no_fraction rest then Some (VNum (- n), rest) else None
      | None => None
      end
  | _ =>
      match parse_int s with
      | Some (n, rest) => if no_fraction rest then Some (VNum n, rest) else None
      | None => None
      end
  end.

(** The elements of an array after the first bracket, up to the closing one. *)
Fixpoint parse_elems (pv : string → option (jsval * string)) (n : nat) (s : string)
    : option (list jsval * string) :=
  match n with
  | O => None
  | S n' =>
      match pv s with
      | Some (v, r) =>
          match skip_ws r with
          | String ","%char r' =>
              match parse_elems pv n' r' with
              | Some (vs, r'') => Some (v :: vs, r'')
              | None => None
              end
          | String "]"%char r' => Some ([v], r')
          | _ => None
          end
      | None => None
      end
  end.

(** The members of an object after the brace, up to the closing one. *)
Fixpoint parse_members (pv : string → option (jsval * string)) (n : nat) (s : string)
    : option (list (string * jsval) * string) :=
  match n with
  | O => None
  | S n' =>
      match skip_ws s with
      | String c r =>
          if (nat_of_ascii c =? 34)%nat then
            match parse_chars r with
            | Some (k, r1) =>
                match skip_ws r1 with
                | String ":"%char r2 =>
                    match pv r2 with
                    | Some (v, r3) =>
                        match skip_ws r3 with
                        | String ","%char r4 =>
                            match parse_members pv n' r4 with
                            | Some (kvs, r5) => Some ((k, v) :: kvs, r5)
                            | None => None
                            end
                        | String "}"%char r4 => Some ([(k, v)], r4)
                        | _ => None
                        end
                    | None => None
                    end
                | _ => None
                end
            | None => None
            end
          else None
      | EmptyString => None
      end
  end.

(** A repeated name keeps its last value. *)
Definition object_of (kvs : list (string * jsval)) : jsval :=
  VObj (fold_left (λ o kv, <[kv.1 := kv.2]> o) kvs ∅).

Fixpoint parse_value (fuel : nat) (s : string) : option (jsval * string) :=
  match fuel with
  | O => None
  | S f =>
      let s := skip_ws s in
      if String.prefix "null" s then Some (VNull, JsString.drop 4 s)
      else if String.prefix "true" s then Some (VBool true, JsString.drop 4 s)
      else if String.prefix "false" s then Some (VBool false, JsString.drop 5 s)
      else
        match s with
        | String c r =>
            if (nat_of_ascii c =? 34)%nat then
              match parse_chars r with
              | Some (str, rest) => Some (VStr str, rest)
              | None => None
              end
            else if (nat_of_ascii c =? 91)%nat then
              match skip_ws r with
              | String "]"%char r' => Some (VArr [], r')
              | _ =>
                  match parse_elems (parse_value f) f r with
                  | Some (vs, rest) => Some (VArr vs, rest)
                  | None => None
                  end
              end
            else if (nat_of_ascii c =? 123)%nat then
              match skip_ws r with
              | String "}"%char r' => Some (VObj ∅, r')
              | _ =>
                  match parse_members (parse_value f) f r with
                  | Some (kvs, rest) => Some (object_of kvs, rest)
                  | None => None
                  end
              end
            else parse_number s
        | EmptyString => None
        end
  end.

Definition parse (text : string) : Outcome jsval :=
  match parse_value (S (String.length text)) text with
  | Some (v, rest) =>
      if JsString.is_empty (skip_ws rest) then Ok v else Throw SyntaxError
  | None => Throw SyntaxError
  end.

Definition hex_char (n : nat) : ascii :=
  if (n <? 10)%nat then ascii_of_nat (48 + n) else ascii_of_nat (87 + n).

Definition escape_char (c : ascii) : string :=
  let n := nat_of_ascii c in
  if (n =? 34)%nat then "\" +:+ String c EmptyString
  else if (n =? 92)%nat then "\\"
  else if (n =? 8)%nat then "\b"
  else if (n =? 12)%nat then "\f"
  else if (n =? 10)%nat then "\n"
  else if (n =? 13)%nat then "\r"
  else if (n =? 9)%nat then "\t"
  else if (n <? 32)%nat
       then "\u00" +:+ String (hex_char (n / 16)) (String (hex_char (n mod 16)) EmptyString)
  else String c EmptyString.

Fixpoint escape (s : string) : string :=
  match s with
  | EmptyString => EmptyString
  | String c r => escape_char c +:+ escape r
  end.

Definition quote (s : string) : string := dq +:+ escape s +:+ dq.

Fixpoint spaces (n : nat) : string :=
  match n with
  | O => EmptyString
  | S n' => String " "%char (spaces n')
  end.

Fixpoint join (sep : string) (l : list string) : string :=
  match l with
  | [] => EmptyString
  | [x] => x
  | x :: rest => x +:+ sep +:+ join sep rest
  end.

Definition is_undefined (v : jsval) : bool :=
  match v with VUndefined => true | _ => false end.

(** [fuel] bounds the nesting depth that is written out. *)
Fixpoint print (fuel indent : nat) (v : jsval) : string :=
  match fuel with
  | O => "null"
  | S f =>
      match v with
      | VUndefined | VNull => "null"
      | VBool true => "true"
      | VBool false => "false"
      | VNum n => pretty n
      | VStr s => quote s
      | VArr [] => "[]"
      | VArr l =>
          "[" +:+ nl
          +:+ join ("," +:+ nl)
                (map (λ e, spaces (indent + 2) +:+ print f (indent + 2) e) l)
          +:+ nl +:+ spaces indent +:+ "]"
      | VObj o =>
          match List.filter (λ kv, negb (is_undefined kv.2)) (map_to_list o) with
          | [] => "{}"
          | kvs =>
              "{" +:+ nl
              +:+ join ("," +:+ nl)
                    (map (λ kv, spaces (indent + 2) +:+ quote kv.1 +:+ ": "
                                +:+ print f (indent + 2) kv.2) kvs)
              +:+ nl +:+ spaces indent +:+ "}"
          end
      end
  end.

Definition stringify (v : jsval) : string := print 64 0 v.

(** The text of one element of a top-level array. *)
Definition item_text (e : jsval) : string := spaces 2 +:+ print 63 2 e.

(** A plain writer of CSV in the manner of [json2csv]: one quoted header
    line, one line per row, a missing or non-string cell left empty. *)
Definition csv_cell (v : option jsval) : string :=
  match v with
  | Some (VStr s) => dq +:+ s +:+ dq
  | _ => EmptyString
  end.

Definition csv (rows : list (gmap string jsval)) (fields : list string)
    : Outcome string :=
  Ok (join nl (join "," (map (λ f, dq +:+ f +:+ dq) fields)
               :: map (λ row, join "," (map (λ f, csv_cell (row !! f)) fields)) rows)).

End RefJson.

(** ** A concrete setting: the runner's configuration and a small bucket *)

Module Demo.

Definition config : Config := {|
  cfg_region := Some "us-east-1";
  cfg_bucket := Some "abhisesbucket";
  cfg_jsonKey := "input/translations.json";
  cfg_csvKey := Some "costume_terminology.csv";
  cfg_customDictionaryName := Some "my-translate-overrides";
  cfg_iamRoleArn := None;
  cfg_defaultTargetLanguage := Some "fr"
|}.

Definition manager : Manager := constructor config.

(** The text [["good morning"]]. *)
Definition good_morning_json : string := "[" +:+ quoted "good morning" +:+ "]".

(** The text [{ "translations": [] }]. *)
Definition empty_translations_json : string :=
  "{ " +:+ quoted "translations" +:+ ": [] }".

(** Two lines with a blank one between them. *)
Definition two_lines : string :=
  "a" +:+ RefJson.nl +:+ RefJson.nl +:+ "b" +:+ RefJson.nl.

(** The text [[{"Text": "hello"}, {"note": 1}, "world"]]. *)
Definition mixed_json : string :=
  "[{" +:+ quoted "Text" +:+ ": " +:+ quoted "hello" +:+ "}, {"
  +:+ quoted "note" +:+ ": 1}, " +:+ quoted "world" +:+ "]".

Definition bucket_contents : gmap (string * string) string :=
  <[("abhisesbucket", "input/units.json") := good_morning_json]>
    (<[("abhisesbucket", "input/mixed.json") := mixed_json]>
       (<[("abhisesbucket", "input/empty.json") := empty_translations_json]> ∅)).

Definition state : State :=
  {| this := manager; s3 := bucket_contents; journal := [] |}.

Definition ServiceDown : JsError :=
  mkError "ServiceUnavailableException" "Service Unavailable".

(** A translator that knows French only. *)
Definition translator (c : TranslateTextCommand) : Outcome string :=
  if (TargetLanguageCode c =? "fr")%string then Ok "bonjour"
  else Throw (mkError "UnsupportedLanguagePairException" "Unsupported language pair").

Definition no_fault (c : S3Command) : option JsError := None.

Definition outage (c : S3Command) : option JsError := Some ServiceDown.

Definition job_service (c : StartTextTranslationJobCommand) : Outcome string :=
  Ok "job-0001".

(** A logger that takes every record, and one whose route for the flag
    [translation_error] has no path: it throws for the records of that flag
    and takes the others. *)
Definition logger (flag action msg : string) (critical : bool) : option JsError :=
  None.

Definition NoPath : JsError := TypeError "template.matchAll is not a function".

Definition pathless_logger (flag action msg : string) (critical : bool)
    : option JsError :=
  if (flag =? "translation_error")%string then Some NoPath else None.

(** The same manager with a service role, and a state that holds it. *)
Definition manager_with_role : Manager := {|
  region := region manager;
  bucket := bucket manager;
  jsonKey := jsonKey manager;
  csvKey := csvKey manager;
  customDictionaryName := customDictionaryName manager;
  iamRoleArn := Some "arn:aws:iam::000000000000:role/TranslateS3Role";
  defaultTargetLanguage := defaultTargetLanguage manager;
  _dictionaryEntries := _dictionaryEntries manager
|}.

Definition state_with_role : State :=
  {| this := manager_with_role; s3 := bucket_contents; journal := [] |}.

(** The header and the single row of the export of (hello, fr, bonjour). *)
Definition hello_csv : string :=
  quoted "en" +:+ "," +:+ quoted "fr" +:+ RefJson.nl
  +:+ quoted "hello" +:+ "," +:+ quoted "bonjour".

End Demo.


(** ** The logger ([UtilityLogger.js]) *)

Module Logger.

(** [process.env], as far as the logger reads it. *)
Record Env : Type := {
  LOGGING_ENABLED : option string;
  NODE_ENV : option string;
  LOGGING_CONSOLE_ENABLED : option string;
  S3_BUCKET : option string;
  S3_ROOT_PREFIX : option string
}.

(** One category of [../configs/LogRoutes]: its own three fields and the
    routes of its logs. *)
Record Category : Type := {
  retention : jsval;
  category : jsval;
  description : jsval;
  logs : list (gmap string jsval)
}.

(** The argument of [writeLog], before the defaults of its destructuring. *)
Record LogArgs : Type := {
  flag : string;
  data : option (gmap string jsval);
  action : jsval;
  critical : jsval;
  message : jsval
}.

(** What the logger does to the outside, in the order it does it. *)
Inductive Sink : Type :=
| ConsoleLog (flag : string) (logEntry : gmap string jsval)
| ConsoleError (key template : string)
| AppendLocal (relativePath : string) (logEntry : gmap string jsval)
| PutObject (Bucket Key : string) (logEntry : gmap string jsval)
| NotifySlack (logEntry : gmap string jsval).

(** What [data[key]] finds: a property of the object itself, or one that
    every object inherits. *)
Inductive Found : Type :=
| Own (v : jsval)
| Inherited (key : string).

(** [String(v)].  A number is an integer here, and the text of a safe
    integer (one below [2^53] in absolute value) is its decimal numeral.
    Beyond the safe integers not every integer is a number, and from [1e21]
    on the text is in exponent form: there the text is what
    [Number_toString] says. *)
Fixpoint to_String (Number_toString : Z → string) (v : jsval) : string :=
  match v with
  | VUndefined => "undefined"
  | VNull => "null"
  | VBool true => "true"
  | VBool false => "false"
  | VNum n => if (Z.abs n <? 2 ^ 53)%Z then pretty n else Number_toString n
  | VStr s => s
  | VArr l =>
      RefJson.join ","
        (map (λ x, match x with
                   | VUndefined | VNull => EmptyString
                   | _ => to_String Number_toString x
                   end) l)
  | VObj _ => "[object Object]"
  end.

(** [s.split(sep)] for a separator of one character. *)
Fixpoint split_on (sep : ascii) (s : string) : list string :=
  match s with
  | EmptyString => [EmptyString]
  | String c r =>
      if Ascii.eqb c sep then EmptyString :: split_on sep r
      else match split_on sep r with
           | h :: t => String c h :: t
           | [] => [String c EmptyString]
           end
  end.

(** The first captures of the matches of [/\{([^}]+)\}/g], from left to
    right.  [inside] holds what has been read since the opening brace of the
    match under way. *)
Fixpoint captures (inside : option string) (s : string) : list string :=
  match s with
  | EmptyString => []
  | String c r =>
      match inside with
      | None =>
          if Ascii.eqb c "{" then captures (Some EmptyString) r
          else captures None r
      | Some read =>
          if Ascii.eqb c "}"
          then match read with
               | EmptyString => captures None r
               | _ => read :: captures None r
               end
          else captures (Some (read +:+ String c EmptyString)) r
      end
  end.

(** The replacement text of [replace] with its [$] patterns expanded: [$$],
    [$&], [$`] and [$']; a string pattern has no groups, so any other [$]
    stands for itself. *)
Fixpoint expand (matched before after repl : string) : string :=
  match repl with
  | EmptyString => EmptyString
  | String "$" (String "$" r) => String "$" (expand matched before after r)
  | String "$" (String "&" r) => matched +:+ expand matched before after r
  | String "$" (String "`" r) => before +:+ expand matched before after r
  | String "$" (String "'" r) => after +:+ expand matched before after r
  | String c r => String c (expand matched before after r)
  end.

(** [(before + s).replace(pat, repl)] when [pat] does not occur in [before]
    up to the start of [s]. *)
Fixpoint replace_from (pat repl before s : string) : string :=
  if String.prefix pat s
  then before
       +:+ expand pat before (JsString.drop (String.length pat) s) repl
       +:+ JsString.drop (String.length pat) s
  else match s with
       | String c r => replace_from pat repl (before +:+ String c EmptyString) r
       | EmptyString => before
       end.

(** [s.replace(pat, repl)] for a string pattern. *)
Definition replace (pat repl s : string) : string :=
  replace_from pat repl EmptyString s.

Section Logger.

Variable env : Env.

(** [require("../configs/LogRoutes")], by [Object.values]. *)
Variable logConfig : list Category.

(** [path.posix.join(a, b)] *)
Variable posix_join : string → string → string.

(** [moment(Date.now()).format("LL")], [new Date().toISOString()] and the
    text of [Date.now()]. *)
Variable moment_LL : string.
Variable toISOString : string.
Variable Date_now : string.

(** The warning sign that opens the description of the fallback route. *)
Variable warning_sign : string.

(** [key in Object.prototype] and [String(Object.prototype[key])]. *)
Variable Object_prototype_has : string → bool.
Variable Object_prototype_String : string → string.

(** The day, month and year of [new Date(replacement)], padded and joined
    by hyphens. *)
Variable DD_MM_YYYY : Found → string.

(** [String(n)] for a number beyond the safe integers. *)
Variable Number_toString : Z → string.

(** Evaluated once, when the module is loaded. *)
Definition isLocal : bool :=
  bool_decide (NODE_ENV env = Some "local").

Definition isEnabled : bool :=
  match LOGGING_ENABLED env with
  | Some s => negb (JsString.is_empty s) && negb (s =? "0")%string
  | None => false
  end.

Definition isConsoleEnabled : bool :=
  bool_decide (NODE_ENV env = Some "local")
  && bool_decide (LOGGING_CONSOLE_ENABLED env = Some "1").

Definition parentMeta (c : Category) : gmap string jsval :=
  <["retention" := retention c]>
    (<["category" := category c]>
       (<["description" := description c]> ∅)).

(** [category.logs.find((log) => log.flag === flag)] *)
Definition find_log (flag : string) (logs : list (gmap string jsval))
    : option (gmap string jsval) :=
  List.find (λ log, match log !! "flag" with
                    | Some (VStr s) => (s =? flag)%string
                    | _ => false
                    end) logs.

(** The loop of [getRouteByFlag]; [{ ...parentMeta, ...found }]. *)
Fixpoint route_in (categories : list Category) (flag : string)
    : option (gmap string jsval) :=
  match categories with
  | [] => None
  | c :: rest =>
      match find_log flag (logs c) with
      | Some found => Some (found ∪ parentMeta c)
      | None => route_in rest flag
      end
  end.

Definition missing_route (flag : string) : gmap string jsval :=
  <["retention" := VStr "unknown"]>
    (<["category" := VStr "unknown"]>
       (<["description" := VStr (warning_sign +:+ " MISSING LOG ROUTE DEFINITION")]>
          (<["path" := VStr ("missingLogRoutes/" +:+ flag +:+ "/" +:+ moment_LL
                             +:+ ".log")]>
             (<["PCI_compliance" := VBool false]>
                (<["critical" := VBool true]> ∅))))).

Definition getRouteByFlag (flag : string) : gmap string jsval :=
  match route_in logConfig flag with
  | Some route => route
  | None => missing_route flag
  end.

(** [key in data] and [data[key]] *)
Definition lookup_in (data : gmap string jsval) (key : string) : option Found :=
  match data !! key with
  | Some v => Some (Own v)
  | None => if Object_prototype_has key then Some (Inherited key) else None
  end.

(** [String(replacement)] *)
Definition String_of (found : Found) : string :=
  match found with
  | Own v => to_String Number_toString v
  | Inherited key => Object_prototype_String key
  end.

(** [const [key, format] = placeholder.split(":").map((s) => s.trim())] *)
Definition key_of (placeholder : string) : string :=
  JsString.trim (hd EmptyString (split_on ":" placeholder)).

Definition format_of (placeholder : string) : option string :=
  JsString.trim <$> (split_on ":" placeholder !! 1%nat).

(** The [switch] on the format. *)
Definition replacement_of (format : option string) (found : Found) : string :=
  match format with
  | Some f => if (f =? "DD-MM-YYYY")%string then DD_MM_YYYY found else String_of found
  | None => String_of found
  end.

(** The loop of [resolvePath] over the placeholders found in the template;
    [None] is [null]. *)
Fixpoint resolve_each (template : string) (data : gmap string jsval)
    (placeholders : list string) (logPath : string) : list Sink * option string :=
  match placeholders with
  | [] => ([], Some logPath)
  | placeholder :: rest =>
      match lookup_in data (key_of placeholder) with
      | None => ([ConsoleError (key_of placeholder) template], None)
      | Some found =>
          resolve_each template data rest
            (replace ("{" +:+ placeholder +:+ "}")
               (replacement_of (format_of placeholder) found) logPath)
      end
  end.

Definition resolvePath (template : string) (data : gmap string jsval)
    : list Sink * option string :=
  resolve_each template data (captures None template) template.

(** [writeToLocal] and [writeToS3], as the sink they reach. *)
Definition writeToLocal (relativePath : string) (logEntry : gmap string jsval) : Sink :=
  AppendLocal relativePath logEntry.

Definition writeToS3 (relativePath : string) (logEntry : gmap string jsval) : Sink :=
  PutObject (or_default (S3_BUCKET env) EmptyString)
    (posix_join (or_default (S3_ROOT_PREFIX env) "logs/") relativePath) logEntry.

Definition notifySlack (logEntry : gmap string jsval) : Sink := NotifySlack logEntry.

(** The defaults of the destructured argument. *)
Definition data_of (a : LogArgs) : gmap string jsval := default ∅ (data a).

Definition critical_of (a : LogArgs) : jsval :=
  match critical a with VUndefined => VBool false | v => v end.

Definition message_of (a : LogArgs) : jsval :=
  match message a with VUndefined => VStr EmptyString | v => v end.

Definition finalCritical (a : LogArgs) (route : gmap string jsval) : jsval :=
  js_or (critical_of a) (opt_get (VObj route) "critical").

Definition logEntry (a : LogArgs) (route : gmap string jsval) : gmap string jsval :=
  <["timestamp" := VStr toISOString]>
    (<["flag" := VStr (flag a)]>
       (<["action" := action a]>
          (<["message" := message_of a]>
             (<["critical" := finalCritical a route]>
                (<["data" := VObj (data_of a)]>
                   (<["retention" := opt_get (VObj route) "retention"]>
                      (<["PCI_compliance" := opt_get (VObj route) "PCI_compliance"]>
                         (<["description" := opt_get (VObj route) "description"]>
                            (<["category" := opt_get (VObj route) "category"]> ∅))))))))).

Definition missing_path (flag : string) : string :=
  "fallback/system_error/missing_path_" +:+ flag +:+ "_" +:+ Date_now +:+ ".log".

(** [{ ...logEntry, flag: "system_error", message: ... }] *)
Definition missing_path_entry (a : LogArgs) (route : gmap string jsval)
    : gmap string jsval :=
  <["message" := VStr ("Missing required path variables for flag " +:+ quoted (flag a))]>
    (<["flag" := VStr "system_error"]> (logEntry a route)).

(** The writes of a log whose path is resolved. *)
Definition deliver (logPath : string) (isCritical : bool)
    (entry : gmap string jsval) : list Sink :=
  let criticalPath := posix_join "critical" logPath in
  ((if isLocal
    then writeToLocal logPath entry
         :: (if isCritical then [writeToLocal criticalPath entry] else [])
    else writeToS3 logPath entry
         :: (if isCritical then [writeToS3 criticalPath entry] else []))
   ++ (if isCritical then [notifySlack entry] else []))%list.

Definition writeLog (a : LogArgs) : list Sink * Outcome unit :=
  if negb isEnabled then ([], Ok tt)
  else
    let route := getRouteByFlag (flag a) in
    let entry := logEntry a route in
    let console := if isConsoleEnabled then [ConsoleLog (flag a) entry] else [] in
    match opt_get (VObj route) "path" with
    | VStr template =>
        let (errors, logPath) := resolvePath template (data_of a) in
        match logPath with
        | None | Some EmptyString =>
            ((console ++ errors
              ++ [writeToLocal (missing_path (flag a)) (missing_path_entry a route)])%list,
             Ok tt)
        | Some logPath =>
            ((console ++ errors
              ++ deliver logPath (truthy (finalCritical a route)) entry)%list, Ok tt)
        end
    | _ => (console, Throw (TypeError "template.matchAll is not a function"))
    end.

(** The loop of [writeLogs]. *)
Fixpoint write_each (logArray : list LogArgs) : list Sink * Outcome unit :=
  match logArray with
  | [] => ([], Ok tt)
  | log :: rest =>
      match writeLog log with
      | (sinks, Ok _) =>
          let (sinks', r) := write_each rest in ((sinks ++ sinks')%list, r)
      | (sinks, Throw err) => (sinks, Throw err)
      end
  end.

(** [writeLogs(logArray)]; [None] is an argument that is not an array. *)
Definition writeLogs (logArray : option (list LogArgs)) : list Sink * Outcome unit :=
  match logArray with
  | None => ([], Throw (Error "writeLogs expects an array of log entries"))
  | Some l => write_each l
  end.

(** The template has a placeholder whose key the data lacks. *)
Definition lacks_key (template : string) (data : gmap string jsval) : Prop :=
  ∃ placeholder,
    placeholder ∈ captures None template
    ∧ lookup_in data (key_of placeholder) = None.

End Logger.

(** *** Examples *)

(** A logger that is on, outside the local environment. *)
Definition demo_env : Env := {|
  LOGGING_ENABLED := Some "1";
  NODE_ENV := Some "production";
  LOGGING_CONSOLE_ENABLED := None;
  S3_BUCKET := Some "abhisesbucket";
  S3_ROOT_PREFIX := None
|}.

(** One category with one route, for the flag [login]. *)
Definition demo_logConfig : list Category :=
  [ {| retention := VStr "90d";
       category := VStr "auth";
       description := VStr "Authentication";
       logs := [ <["flag" := VStr "login"]>
                   (<["path" := VStr "logs/auth/login/{userId}/{date:DD-MM-YYYY}.log"]>
                      (<["critical" := VBool true]> ∅)) ] |} ].

(** The join of two relative paths that hold no [.], [..] or doubled
    slash: one slash between them. *)
Fixpoint demo_join (a b : string) : string :=
  match a with
  | EmptyString => b
  | String c EmptyString =>
      if Ascii.eqb c "/" then String c b else String c (String "/" b)
  | String c r => String c (demo_join r b)
  end.

Definition demo_login : LogArgs := {|
  flag := "login";
  data := None;
  action := VStr "login";
  critical := VBool true;
  message := VStr "user logged in"
|}.

Definition demo_unlisted : LogArgs := {|
  flag := "manual_fallback";
  data := None;
  action := VStr "startBulkTranslation";
  critical := VUndefined;
  message := VStr "IAM Role not provided, running manual translation"
|}.

(** No character of the string is [c]. *)
Fixpoint free_of (c : ascii) (s : string) : bool :=
  match s with
  | EmptyString => true
  | String x r => negb (Ascii.eqb x c) && free_of c r
  end.

End Logger.
(** ** The methods of [AwsTranslateManager] *)

Section Manager.

(** [JSON.parse(text)] and [JSON.stringify(value, null, 2)]. *)
Variable JSON_parse : string → Outcome jsval.
Variable JSON_stringify : jsval → string.

(** The storage service refuses a command with [Some err], or serves it. *)
Variable s3_fault : S3Command → option JsError.

(** The translation service: the [TranslatedText] of its answer to a
    request, or the error it throws. *)
Variable translate_send : TranslateTextCommand → Outcome string.

(** The [JobId] answered to a batch job request, or the error thrown. *)
Variable translate_start_job : StartTextTranslationJobCommand → Outcome string.

(** [parse(rows, { fields, quote })] of [json2csv]. *)
Variable json2csv_parse : list (gmap string jsval) → list string → Outcome string.

(** [Logger.isEnabled()]. *)
Variable logging_enabled : bool.

(** [Logger.writeLog] is synchronous and can throw before it has written
    anything: a route whose path is not a string ([template.matchAll]), the
    file system under [writeToLocal], [require("aws-sdk")] under
    [writeToS3].  [logger_fault flag action message critical] is the error
    it throws for a record, if it throws. *)
Variable logger_fault : string → string → string → bool → option JsError.

(** The text of [Date.now()]. *)
Variable Date_now : string.

(** [Logger.writeLog({ flag, action, message, critical })]: nothing when
    logging is off; else the record is handed to the log sinks, or the
    logger throws. *)
Definition writeLog (flag action msg : string) (critical : bool) : M unit :=
  if negb logging_enabled then ret tt
  else match logger_fault flag action msg critical with
       | Some err => throw err
       | None => emit (EvLog flag action msg critical)
       end.

(** [streamToString((await this.s3.send(new GetObjectCommand(...))).Body)] *)
Definition s3_getObject (Bucket Key : string) : M string :=
  λ st, match s3_fault (GetObjectCommand Bucket Key) with
        | Some err => (Throw err, st)
        | None =>
            match s3 st !! (Bucket, Key) with
            | Some body => (Ok body, st)
            | None => (Throw NoSuchKey, st)
            end
        end.

(** [await this.s3.send(new PutObjectCommand(...))] *)
Definition s3_putObject (Bucket Key Body ContentType : string) : M unit :=
  λ st, match s3_fault (PutObjectCommand Bucket Key Body ContentType) with
        | Some err => (Throw err, st)
        | None =>
            (Ok tt, {| this := this st;
                       s3 := <[(Bucket, Key) := Body]> (s3 st);
                       journal := journal st |})
        end.

(** [(await this.translate.send(new TranslateTextCommand(c))).TranslatedText] *)
Definition translate_text_send (c : TranslateTextCommand) : M string :=
  emit (EvTranslate c) ;;; lift (translate_send c).

Definition translate_job_send (c : StartTextTranslationJobCommand) : M string :=
  emit (EvJob c) ;;; lift (translate_start_job c).

(** [...(this.customDictionaryName && { TerminologyNames: [...] })] *)
Definition terminology_of (m : Manager) : option (list string) :=
  if truthy_str (customDictionaryName m) then Some [customDictionaryName m]
  else None.

(** *** translateText *)

Definition translateText (text targetLang : string) : M string :=
  m <- get_this ;;
  let command := {| Text := VStr text;
                    SourceLanguageCode := "en";
                    TargetLanguageCode := targetLang;
                    TerminologyNames := terminology_of m |} in
  try_catch
    (translate_text_send command)
    (λ err,
       add_error "Failed to translate text" ;;;
       writeLog "system_error" "translateText" (message err) true ;;;
       throw (Error "Translation failed")).

(** *** startBulkTranslation *)

(** Lines 180-199: the units of the downloaded text. *)
Definition parse_items (rawText : string) : M (list jsval) :=
  try_catch
    (parsed <- lift (JSON_parse rawText) ;;
     items <- match parsed with
              | VArr l => ret l
              | _ =>
                  translations <- lift (get_prop parsed "translations") ;;
                  match translations with
                  | VArr l => ret l
                  | _ => ret []
                  end
              end ;;
     if (List.length items =? 0)%nat
     then throw (Error "Parsed JSON did not contain an array of translatable items.")
     else ret items)
    (λ _,
       warn NotAJsonArray ;;;
       ret (map VStr
              (List.filter (λ line, negb (JsString.is_empty (JsString.trim line)))
                 (JsString.split_lines rawText)))).

(** Lines 204-207: the text of one unit. *)
Definition extract_text (entry : jsval) : jsval :=
  match entry with
  | VStr _ => entry
  | _ => js_or (js_or (opt_get entry "Text") (opt_get entry "text"))
               (opt_get entry "source")
  end.

(** The request the manual loop builds for one text and one language. *)
Definition manual_command (text : jsval) (lang : string) : TranslateTextCommand :=
  {| Text := text;
     SourceLanguageCode := "en";
     TargetLanguageCode := lang;
     TerminologyNames := None |}.

(** The object [resultsPerLang]: its own properties, and whether
    [Object.prototype] is still its prototype. *)
Record Results := mkResults {
  own : gmap string jsval;
  inherits : bool
}.

(** [const resultsPerLang = {}] *)
Definition no_results : Results := {| own := ∅; inherits := true |}.

(** [resultsPerLang[lang] = v], for [v] a string ([Some s]) or [null]
    ([None]).  Under the key [__proto__] the assignment runs the setter that
    [Object.prototype] carries: it ignores a string, and [null] takes the
    prototype away; neither creates a property.  Once the prototype is gone
    the key is a key like any other. *)
Definition store_result (r : Results) (lang : string) (v : option string) : Results :=
  if (lang =? "__proto__")%string && inherits r
  then match v with
       | Some _ => r
       | None => {| own := own r; inherits := false |}
       end
  else {| own := <[lang := from_option VStr VNull v]> (own r);
          inherits := inherits r |}.

(** Lines 215-236: the inner loop, over the target languages. *)
Fixpoint translate_langs (text : jsval) (langs : list string)
    (resultsPerLang : Results) : M Results :=
  match langs with
  | [] => ret resultsPerLang
  | lang :: rest =>
      r <- try_catch
             (result <- translate_text_send (manual_command text lang) ;;
              ret (store_result resultsPerLang lang (Some result)))
             (λ translationError,
                writeLog "translation_error" "manualTranslate"
                  (message translationError) false ;;;
                ret (store_result resultsPerLang lang None)) ;;
      translate_langs text rest r
  end.

(** [{ original: text, ...resultsPerLang }]: the spread copies the own
    properties, and writes them after [original]. *)
Definition result_record (text : jsval) (resultsPerLang : Results) : jsval :=
  VObj (own resultsPerLang ∪ {[ "original" := text ]}).

(** Lines 203-239: the outer loop, over the units; [translated] is the
    array built so far. *)
Fixpoint translate_items (items : list jsval) (langs : list string)
    (translated : list jsval) : M (list jsval) :=
  match items with
  | [] => ret translated
  | entry :: rest =>
      let text := extract_text entry in
      if negb (truthy text)
      then warn (SkippedItem entry) ;;; translate_items rest langs translated
      else
        resultsPerLang <- translate_langs text langs no_results ;;
        translate_items rest langs (translated ++ [result_record text resultsPerLang])
  end.

Definition s3_key (m : Manager) (uri : string) : string :=
  JsString.replace ("s3://" +:+ bucket m +:+ "/") "" uri.

Definition startBulkTranslation (inputS3Uri outputS3Uri : string)
    (targetLangs : list string) : M string :=
  m <- get_this ;;
  if negb (truthy_opt (iamRoleArn m))
  then
    writeLog "manual_fallback" "startBulkTranslation"
      "IAM Role not provided, running manual translation" false ;;;
    try_catch
      (let inputKey := s3_key m inputS3Uri in
       rawText <- s3_getObject (bucket m) inputKey ;;
       items <- parse_items rawText ;;
       translated <- translate_items items targetLangs [] ;;
       let outputKey := s3_key m outputS3Uri in
       s3_putObject (bucket m) outputKey (JSON_stringify (VArr translated))
         "application/json" ;;;
       ret "manual-job-done")
      (λ err,
         add_error "Manual translation failed" ;;;
         writeLog "system_error" "manualTranslation" (message err) true ;;;
         throw (Error ("Manual translation failed: " +:+ message err)))
  else
    let jobParams := {| JobName := "bulk-translate-" +:+ Date_now;
                        InputS3Uri := inputS3Uri;
                        InputContentType := "application/json";
                        OutputS3Uri := outputS3Uri;
                        DataAccessRoleArn := default "" (iamRoleArn m);
                        TargetLanguageCodes := targetLangs;
                        JobTerminologyNames := terminology_of m |} in
    try_catch
      (translate_job_send jobParams)
      (λ err,
         add_error "Failed to start AWS translation job" ;;;
         writeLog "system_error" "startBulkTranslation" (message err) true ;;;
         throw (Error "Bulk translation job failed")).

(** *** loadCustomDictionaryJson *)

(** Lines 342-344: how the handler recognises a missing file. *)
Definition isMissingFile (err : JsError) : bool :=
  (name err =? "NoSuchKey")%string
  || JsString.includes "The specified key does not exist" (message err).

Definition loadCustomDictionaryJson : M jsval :=
  m <- get_this ;;
  try_catch
    (jsonStr <- s3_getObject (bucket m) (jsonKey m) ;;
     entries <- lift (JSON_parse jsonStr) ;;
     set_entries entries ;;;
     ret entries)
    (λ err,
       if isMissingFile err
       then
         writeLog "dictionary_missing" "loadCustomDictionaryJson"
           ("No dictionary file found at " +:+ quoted (jsonKey m)) false ;;;
         set_entries (VArr []) ;;;
         ret (VArr [])
       else
         add_error "Failed to load dictionary JSON" ;;;
         writeLog "system_error" "loadCustomDictionaryJson" (message err) true ;;;
         throw (Error ("Failed to load dictionary: " +:+ message err))).

(** *** addOrUpdateDictionaryEntry *)

(** [e.k.toLowerCase()] *)
Definition lower_field (e : jsval) (k : string) : Outcome string :=
  obind (get_prop e k) (λ v,
    match v with
    | VStr s => Ok (JsString.toLowerCase s)
    | _ => Throw (TypeError "toLowerCase is not a function")
    end).

(** Lines 406-408: the callback of [findIndex]; [&&] reads the language only
    when the source matches. *)
Definition same_key (source targetLang : string) (e : jsval) : Outcome bool :=
  obind (lower_field e "source") (λ s,
    if (s =? JsString.toLowerCase source)%string
    then obind (lower_field e "language") (λ l,
           Ok (l =? JsString.toLowerCase targetLang)%string)
    else Ok false).

(** [l.findIndex(p)], counted from [i]; [None] is [-1]. *)
Fixpoint find_index (p : jsval → Outcome bool) (l : list jsval) (i : nat)
    : Outcome (option nat) :=
  match l with
  | [] => Ok None
  | e :: rest =>
      obind (p e) (λ b, if b then Ok (Some i) else find_index p rest (S i))
  end.

Definition findIndex (p : jsval → Outcome bool) (v : jsval) : Outcome (option nat) :=
  match v with
  | VArr l => find_index p l 0
  | _ => Throw (TypeError "findIndex is not a function")
  end.

(** [entries[idx].translation = translation] *)
Definition assign_translation (v : jsval) (idx : nat) (translation : string)
    : Outcome jsval :=
  match v with
  | VArr l =>
      match l !! idx with
      | Some (VObj o) => Ok (VArr (<[idx := VObj (<["translation" := VStr translation]> o)]> l))
      | _ => Throw (TypeError "Cannot set properties")
      end
  | _ => Throw (TypeError "Cannot read properties")
  end.

(** [{ source, language: targetLang, translation }] *)
Definition new_entry (source targetLang translation : string) : jsval :=
  VObj (<["source" := VStr source]>
          (<["language" := VStr targetLang]>
             (<["translation" := VStr translation]> ∅))).

(** [entries.push(e)] *)
Definition push (v e : jsval) : Outcome jsval :=
  match v with
  | VArr l => Ok (VArr (l ++ [e]))
  | _ => Throw (TypeError "push is not a function")
  end.

Definition addOrUpdateDictionaryEntry (source targetLang translation : string)
    : M EntryReply :=
  try_catch
    (m <- get_this ;;
     idx <- lift (findIndex (same_key source targetLang) (_dictionaryEntries m)) ;;
     match idx with
     | Some i =>
         entries <- lift (assign_translation (_dictionaryEntries m) i translation) ;;
         set_entries entries ;;;
         writeLog "dictionary_update" "addOrUpdateDictionaryEntry"
           ("Updated translation for " +:+ quoted source +:+ " in "
              +:+ quoted targetLang) false ;;;
         ret (UpdatedEntry source targetLang)
     | None =>
         entries <- lift (push (_dictionaryEntries m)
                            (new_entry source targetLang translation)) ;;
         set_entries entries ;;;
         writeLog "dictionary_add" "addOrUpdateDictionaryEntry"
           ("Added new translation for " +:+ quoted source +:+ " in "
              +:+ quoted targetLang) false ;;;
         ret (AddedEntry source targetLang)
     end)
    (λ err,
       add_error "Failed to add/update dictionary entry" ;;;
       writeLog "system_error" "addOrUpdateDictionaryEntry" (message err) true ;;;
       throw (Error "Could not add or update dictionary entry")).

(** *** saveCustomDictionaryJson *)

Definition saveCustomDictionaryJson (params_bucket params_jsonKey : string)
    (params_dictionaryEntries : jsval) : M unit :=
  try_catch
    (let body := JSON_stringify params_dictionaryEntries in
     s3_putObject params_bucket params_jsonKey body "application/json" ;;;
     writeLog "dictionary_saved" "saveCustomDictionaryJson"
       "Custom dictionary saved to S3 successfully" false ;;;
     ret tt)
    (λ err,
       add_error "Failed to save dictionary to S3" ;;;
       writeLog "system_error" "saveCustomDictionaryJson" (message err) true ;;;
       throw (Error "Could not save custom dictionary to S3")).

(** *** convertJsonToAwsCsvAndUpload *)

(** [l.filter(p)] with a callback that may throw. *)
Fixpoint filter_entries (p : jsval → Outcome bool) (l : list jsval)
    : Outcome (list jsval) :=
  match l with
  | [] => Ok []
  | e :: rest =>
      obind (p e) (λ b,
        obind (filter_entries p rest) (λ kept,
          Ok (if b then e :: kept else kept)))
  end.

(** [{ [sourceLangCode]: e.source, [targetLangCode]: e.translation }] *)
Definition csv_row (sourceLangCode targetLangCode : string) (e : jsval)
    : gmap string jsval :=
  <[targetLangCode := opt_get e "translation"]>
    (<[sourceLangCode := opt_get e "source"]> ∅).

(** Lines 617-622 *)
Definition csv_rows (dictionaryEntries : jsval) (sourceLangCode targetLangCode : string)
    : Outcome (list (gmap string jsval)) :=
  match dictionaryEntries with
  | VArr l =>
      obind
        (filter_entries
           (λ e, obind (lower_field e "language") (λ lang,
                   Ok (lang =? targetLangCode)%string)) l)
        (λ kept, Ok (map (csv_row sourceLangCode targetLangCode) kept))
  | _ => Throw (TypeError "filter is not a function")
  end.

Definition convertJsonToAwsCsvAndUpload (params_bucket params_csvKey
    params_targetLang : string) (params_dictionaryEntries : jsval) : M unit :=
  let sourceLangCode := "en" in
  let targetLangCode := JsString.trim (JsString.toLowerCase params_targetLang) in
  rows <- lift (csv_rows params_dictionaryEntries sourceLangCode targetLangCode) ;;
  try_catch
    (csv <- lift (json2csv_parse rows [sourceLangCode; targetLangCode]) ;;
     s3_putObject params_bucket params_csvKey csv "text/csv" ;;;
     writeLog "csv_uploaded" "convertJsonToAwsCsvAndUpload"
       "CSV file uploaded to S3" false ;;;
     ret tt)
    (λ err,
       add_error "Failed to convert and upload CSV" ;;;
       writeLog "system_error" "convertJsonToAwsCsvAndUpload" (message err) true ;;;
       throw (Error "Could not convert JSON to CSV and upload")).

(** ** Notions used to state the properties *)

(** The non-blank lines of a text, as units. *)
Definition line_units (rawText : string) : list jsval :=
  map VStr
    (List.filter (λ line, negb (JsString.is_empty (JsString.trim line)))
       (JsString.split_lines rawText)).

(** The array that rules (a) and (b) pick out of a parsed value, if any. *)
Definition selected_array (parsed : jsval) : option (list jsval) :=
  match parsed with
  | VArr l => Some l
  | VObj o =>
      match o !! "translations" with
      | Some (VArr l) => Some l
      | _ => None
      end
  | _ => None
  end.

(** The units of a text by the ordered-preference rules. *)
Definition parsed_units (rawText : string) : list jsval :=
  match JSON_parse rawText with
  | Ok parsed =>
      match selected_array parsed with
      | Some (x :: l) => x :: l
      | _ => line_units rawText
      end
  | Throw _ => line_units rawText
  end.

(** The texts of the units that are not skipped, in the order of the units. *)
Definition retained_texts (items : list jsval) : list jsval :=
  List.filter truthy (map extract_text items).

(** What one (unit, language) attempt leaves in the record. *)
Definition lang_result (text : jsval) (lang : string) : jsval :=
  match translate_send (manual_command text lang) with
  | Ok s => VStr s
  | Throw _ => VNull
  end.

(** *** The logger, as the methods meet it *)

(** What [Logger.writeLog] throws for a record; nothing when logging is off. *)
Definition log_fault (flag action msg : string) (critical : bool) : option JsError :=
  if logging_enabled then logger_fault flag action msg critical else None.

(** The outcome of [Logger.writeLog] for a record. *)
Definition logged (flag action msg : string) (critical : bool) : Outcome unit :=
  match log_fault flag action msg critical with
  | Some err => Throw err
  | None => Ok tt
  end.

(** The logger accepts every record. *)
Definition logger_serves : Prop :=
  ∀ flag action msg critical, log_fault flag action msg critical = None.

(** What a handler of the class throws: it collects the error, writes a
    [system_error] record with the message of the error caught, and throws
    [final]; when the logger throws for that record, its error escapes
    instead. *)
Definition handler_error (action msg final : string) : JsError :=
  match log_fault "system_error" action msg true with
  | Some err => err
  | None => Error final
  end.

(** The outcome of a [try] block that has done its work and has its record
    of success left to write, before it returns [a]: a throw of the logger
    there is caught by the handler of the method like any other. *)
Definition reported {A : Type} (flag action msg final : string) (a : A) : Outcome A :=
  match log_fault flag action msg false with
  | None => Ok a
  | Some err => Throw (handler_error action (message err) final)
  end.

(** What the dictionary methods answer once their work is done. *)
Definition added_reply (source targetLang : string) : Outcome EntryReply :=
  reported "dictionary_add" "addOrUpdateDictionaryEntry"
    ("Added new translation for " +:+ quoted source +:+ " in " +:+ quoted targetLang)
    "Could not add or update dictionary entry" (AddedEntry source targetLang).

Definition updated_reply (source targetLang : string) : Outcome EntryReply :=
  reported "dictionary_update" "addOrUpdateDictionaryEntry"
    ("Updated translation for " +:+ quoted source +:+ " in " +:+ quoted targetLang)
    "Could not add or update dictionary entry" (UpdatedEntry source targetLang).

Definition saved_reply : Outcome unit :=
  reported "dictionary_saved" "saveCustomDictionaryJson"
    "Custom dictionary saved to S3 successfully"
    "Could not save custom dictionary to S3" tt.

Definition exported_reply : Outcome unit :=
  reported "csv_uploaded" "convertJsonToAwsCsvAndUpload" "CSV file uploaded to S3"
    "Could not convert JSON to CSV and upload" tt.

(** *** The manual fallback, as the specification words it *)

(** The text of a unit: a string that is not empty is its own text; an
    object gives the first value that counts as true among those of its
    fields [Text], [text] and [source], looked up in that order; anything
    else has no text. *)
Definition spec_unit_text (unit : jsval) : option jsval :=
  match unit with
  | VStr s => if JsString.is_empty s then None else Some (VStr s)
  | VObj o => List.find truthy (omap (λ k, o !! k) ["Text"; "text"; "source"])
  | _ => None
  end.

(** The same with the first value that is there, whatever it is: the
    reading of "the first present value". *)
Definition claimed_unit_text (unit : jsval) : option jsval :=
  match unit with
  | VStr s => Some (VStr s)
  | VObj o => head (omap (λ k, o !! k) ["Text"; "text"; "source"])
  | _ => None
  end.

(** The texts of the units that have one, in the order of the units. *)
Definition spec_retained (units : list jsval) : list jsval :=
  omap spec_unit_text units.

(** The request for one text and one language: the text, from [en] to the
    language, without terminology. *)
Definition spec_request (text : jsval) (lang : string) : TranslateTextCommand :=
  {| Text := text;
     SourceLanguageCode := "en";
     TargetLanguageCode := lang;
     TerminologyNames := None |}.

(** The requests for a list of texts: text by text, and for each text
    language by language. *)
Definition spec_requests (texts : list jsval) (langs : list string)
    : list TranslateTextCommand :=
  texts ≫= (λ text, map (spec_request text) langs).

(** What a record holds for a language: the translated text, or [null]
    when the service threw. *)
Definition spec_result (text : jsval) (lang : string) : jsval :=
  match translate_send (spec_request text lang) with
  | Ok translated => VStr translated
  | Throw _ => VNull
  end.

(** *** Texts made of lines *)

(** A line break: LF, or CR LF. *)
Definition line_break (crlf : bool) : string :=
  if crlf then String "013" (String "010" EmptyString)
  else String "010" EmptyString.

(** The text whose lines are [lines], each followed by its break, and then
    [last]. *)
Fixpoint joined_lines (lines : list (string * bool)) (last : string) : string :=
  match lines with
  | [] => last
  | (line, crlf) :: rest => line +:+ line_break crlf +:+ joined_lines rest last
  end.

Fixpoint has_LF (s : string) : bool :=
  match s with
  | EmptyString => false
  | String c r => (c =? "010")%char || has_LF r
  end.

Definition starts_with_LF (s : string) : bool :=
  match s with
  | String c _ => (c =? "010")%char
  | EmptyString => false
  end.

Fixpoint ends_with_CR (s : string) : bool :=
  match s with
  | EmptyString => false
  | String c EmptyString => (c =? "013")%char
  | String _ r => ends_with_CR r
  end.

(** A line before a break: no LF inside, and before a bare LF no CR at its
    end, which would belong to the break. *)
Definition proper_line (l : string * bool) : Prop :=
  has_LF l.1 = false ∧ (l.2 = false → ends_with_CR l.1 = false).

(** A line of white space only; the empty line is one. *)
Fixpoint blank_line (s : string) : bool :=
  match s with
  | EmptyString => true
  | String c r => JsString.is_whitespace c && blank_line r
  end.

(** *** States *)

(** The states agree on the manager and on the bucket. *)
Definition same_store (st st' : State) : Prop :=
  this st' = this st ∧ s3 st' = s3 st.

(** The identity key of an entry: its source and language, in lower case. *)
Definition entry_key (e : jsval) : option (string * string) :=
  match e with
  | VObj o =>
      match o !! "source", o !! "language" with
      | Some (VStr s), Some (VStr l) =>
          Some (JsString.toLowerCase s, JsString.toLowerCase l)
      | _, _ => None
      end
  | _ => None
  end.

Definition call_key (source targetLang : string) : string * string :=
  (JsString.toLowerCase source, JsString.toLowerCase targetLang).

Definition has_key (k : string * string) (e : jsval) : bool :=
  bool_decide (entry_key e = Some k).

Definition count_key (k : string * string) (l : list jsval) : nat :=
  List.length (List.filter (has_key k) l).

(** The uniqueness invariant of the dictionary. *)
Definition unique_keys (l : list jsval) : Prop :=
  ∀ k, (count_key k l ≤ 1)%nat.

Definition well_formed (l : list jsval) : Prop :=
  Forall (λ e, is_Some (entry_key e)) l.

(** The store a state holds in memory. *)
Definition entries_of (st : State) : jsval := _dictionaryEntries (this st).

Definition with_store (st : State) (v : jsval) : State :=
  {| this := with_entries (this st) v; s3 := s3 st; journal := journal st |}.

(** The answer of the service for one text and one language, as the loop
    stores it. *)
Definition lang_outcome (text : jsval) (lang : string) : option string :=
  match translate_send (manual_command text lang) with
  | Ok s => Some s
  | Throw _ => None
  end.

(** The per-language results gathered for one text, starting from [acc]. *)
Definition results_of (text : jsval) (langs : list string) (acc : Results) : Results :=
  fold_left (λ r lang, store_result r lang (lang_outcome text lang)) langs acc.

(** The output record of one retained text. *)
Definition record_for (langs : list string) (text : jsval) : jsval :=
  result_record text (results_of text langs no_results).

(** Appending on a miss: no entry of [l] has the key of the call, and [l']
    is [l] followed by the new entry. *)
Definition appended (source targetLang translation : string) (l l' : list jsval) : Prop :=
  count_key (call_key source targetLang) l = 0%nat
  ∧ l' = (l ++ [new_entry source targetLang translation])%list.

(** Overwriting on a match: [l] splits at its first entry with the key of
    the call, and [l'] differs from [l] in the translation of that entry. *)
Definition overwritten (source targetLang translation : string) (l l' : list jsval) : Prop :=
  ∃ a o b,
    l = (a ++ VObj o :: b)%list
    ∧ count_key (call_key source targetLang) a = 0%nat
    ∧ has_key (call_key source targetLang) (VObj o) = true
    ∧ l' = (a ++ VObj (<["translation" := VStr translation]> o) :: b)%list.

(** The target tag as the export compares it: lower case, then trimmed. *)
Definition normalize_tag (targetLang : string) : string :=
  JsString.trim (JsString.toLowerCase targetLang).

(** An entry whose [language] is a string. *)
Definition has_language (e : jsval) : Prop :=
  ∃ o s, e = VObj o ∧ o !! "language" = Some (VStr s).

(** The language of the entry, in lower case, is [code]. *)
Definition language_matches (code : string) (e : jsval) : bool :=
  match e with
  | VObj o =>
      match o !! "language" with
      | Some (VStr s) => (JsString.toLowerCase s =? code)%string
      | _ => false
      end
  | _ => false
  end.

(** A value that is not a string with something besides white space in it. *)
Definition is_blank (v : jsval) : bool :=
  match v with
  | VStr s => JsString.is_empty (JsString.trim s)
  | _ => true
  end.

(** The selection as the specification words it: the language equal to the
    target tag once both are trimmed and in lower case, and neither the
    source nor the translation blank. *)
Definition claimed_csv_selection (l : list jsval) (targetLang : string) : list jsval :=
  List.filter
    (λ e, match opt_get e "language" with
          | VStr s => (normalize_tag s =? normalize_tag targetLang)%string
          | _ => false
          end
          && negb (is_blank (opt_get e "source"))
          && negb (is_blank (opt_get e "translation")))
    l.

(** The requests to the translation service recorded in a journal. *)
Definition sends (j : list Event) : list TranslateTextCommand :=
  omap (λ e, match e with EvTranslate c => Some c | _ => None end) j.

(** The batch job requests recorded in a journal. *)
Definition jobs (j : list Event) : list StartTextTranslationJobCommand :=
  omap (λ e, match e with EvJob c => Some c | _ => None end) j.

(** ** Concrete dictionaries for the runner's configuration *)

(** A dictionary of two entries, and a state that holds it in memory. *)
Definition demo_dictionary : jsval :=
  VArr [new_entry "hello" "fr" "bonjour"; new_entry "world" "fr" "monde"].

Definition demo_dictionary_state : State :=
  with_store Demo.state demo_dictionary.

(** The same, with a text that is not JSON stored under the dictionary key. *)
Definition demo_corrupt_state : State :=
  {| this := this demo_dictionary_state;
     s3 := <[("abhisesbucket", "input/translations.json") := "not json"]>
             Demo.bucket_contents;
     journal := [] |}.

(** An entry stored with capitals in its source and language. *)
Definition demo_capital_entries : list jsval := [new_entry "Hello" "FR" "salut"].

Definition demo_capital_state : State :=
  with_store Demo.state (VArr demo_capital_entries).

(** The two entries of the export example, and a list with an entry whose
    translation is still empty. *)
Definition demo_export_entries : list jsval :=
  [new_entry "hello" "fr" "bonjour"; new_entry "x" "de" "y"].

Definition demo_blank_entries : list jsval :=
  [new_entry "hello" "fr" "bonjour"; new_entry "world" "fr" ""].

(** A unit whose [Text] is there and empty, and a list of units of every
    kind. *)
Definition demo_empty_Text_unit : jsval :=
  VObj {[ "Text" := VStr ""; "text" := VStr "hello" ]}.

Definition demo_units : list jsval :=
  [VStr "hi"; demo_empty_Text_unit; VNum 7; VObj {[ "source" := VStr "src" ]}; VStr ""].

(** A dictionary given by the (source, language, translation) of its entries. *)
Definition entry_of (e : string * string * string) : jsval :=
  new_entry e.1.1 e.1.2 e.2.

Definition entries_json (es : list (string * string * string)) : jsval :=
  VArr (map entry_of es).

(** ** Proof steps *)

(** Runs the next [writeLog] of the goal: [lemma] says that it returns and
    keeps the manager and the bucket; [st1] names the state it leaves. *)
Ltac run_writeLog lemma st1 Ht Hs :=
  match goal with
  | |- context [writeLog ?f ?a ?m ?c ?s] =>
      destruct (lemma f a m c s) as (st1 & -> & [Ht Hs])
  end.

(** The same in either case: [lemma] gives the outcome of the record, [E]
    names which it is. *)
Ltac run_log lemma st1 Hq E :=
  match goal with
  | |- context [writeLog ?f ?a ?m ?c ?s] =>
      destruct (lemma f a m c s) as (st1 & -> & Hq);
      unfold logged;
      destruct (log_fault f a m c) eqn:E
  end.

(** ** The other methods of the class *)

(** The message returned by [deleteDictionaryEntry], by its two forms. *)
Inductive DeleteReply : Type :=
| DeletedEntry (source targetLang : string)
| NoEntryFound (source targetLang : string).

(** The input of [new ImportTerminologyCommand(importParams)]. *)
Record ImportTerminologyCommand : Type := {
  Name : string;
  MergeStrategy : string;
  Description : string;
  TerminologyFile : string;
  TerminologyFormat : string
}.

(** The answer of the translation service to a terminology import, or the
    error it throws. *)
Variable translate_import : ImportTerminologyCommand → Outcome jsval.

(** *** deleteDictionaryEntry *)

(** Lines 483-489: the list without the entries that have the key. *)
Definition without_key (source targetLang : string) (v : jsval) : Outcome (list jsval) :=
  match v with
  | VArr l =>
      filter_entries
        (λ e, obind (same_key source targetLang e) (λ b, Ok (negb b))) l
  | _ => Throw (TypeError "filter is not a function")
  end.

(** [v.length] and then [v.filter(...)]: only an array gets past both;
    [undefined] and [null] fail at the first, any other value at the
    second. *)
Definition as_array (v : jsval) : Outcome (list jsval) :=
  match v with
  | VArr l => Ok l
  | VUndefined | VNull => Throw (TypeError "Cannot read properties of undefined or null")
  | _ => Throw (TypeError "filter is not a function")
  end.

Definition deleteDictionaryEntry (source targetLang : string) : M DeleteReply :=
  try_catch
    (m <- get_this ;;
     entries <- lift (as_array (_dictionaryEntries m)) ;;
     let before := List.length entries in
     kept <- lift (without_key source targetLang (VArr entries)) ;;
     set_entries (VArr kept) ;;;
     let after := List.length kept in
     if (after <? before)%nat
     then
       writeLog "dictionary_delete" "deleteDictionaryEntry"
         ("Deleted entry for " +:+ quoted source +:+ " in " +:+ quoted targetLang)
         false ;;;
       ret (DeletedEntry source targetLang)
     else
       writeLog "dictionary_not_found" "deleteDictionaryEntry"
         ("No entry found for " +:+ quoted source +:+ " in " +:+ quoted targetLang)
         false ;;;
       ret (NoEntryFound source targetLang))
    (λ err,
       add_error "Failed to delete dictionary entry" ;;;
       writeLog "system_error" "deleteDictionaryEntry" (message err) true ;;;
       throw (Error "Could not delete dictionary entry")).

(** *** importDictionaryToAwsTranslate *)

Definition import_command (customDictionaryName targetLang csv : string)
    : ImportTerminologyCommand :=
  {| Name := customDictionaryName;
     MergeStrategy := "OVERWRITE";
     Description := "Overrides for " +:+ targetLang;
     TerminologyFile := csv;
     TerminologyFormat := "CSV" |}.

Definition importDictionaryToAwsTranslate (params_bucket params_csvKey
    params_customDictionaryName params_targetLang : string) : M jsval :=
  try_catch
    (csvBuffer <- s3_getObject params_bucket params_csvKey ;;
     result <- lift (translate_import
                       (import_command params_customDictionaryName
                          params_targetLang csvBuffer)) ;;
     writeLog "dictionary_imported" "importDictionaryToAwsTranslate"
       "Custom terminology imported successfully" false ;;;
     ret result)
    (λ err,
       add_error "Failed to import custom terminology" ;;;
       writeLog "system_error" "importDictionaryToAwsTranslate" (message err) true ;;;
       throw (Error "Failed to import dictionary to AWS Translate")).

(** *** listBucketFiles *)

(** The [Contents] of the answer to [ListObjectsV2Command] for a bucket of
    the store, which is absent when nothing is listed; or the error thrown. *)
Variable s3_list :
  string → gmap (string * string) string → Outcome (option (list (gmap string jsval))).

Definition listBucketFiles (params_bucket : string)
    : M (option (list (gmap string jsval))) :=
  try_catch
    (contents <- (λ st, (s3_list params_bucket (s3 st), st)) ;;
     writeLog "bucket_listing" "listBucketFiles"
       ("Retrieved " +:+ pretty (default 0%nat (List.length <$> contents)) +:+ " files")
       false ;;;
     ret contents)
    (λ err, add_error "Failed to list files in S3 bucket" ;;;
            writeLog "system_error" "listBucketFiles" (message err) true ;;;
            throw (Error "Could not list files in S3 bucket")).

(** ** The runner script *)

(** What the script prints last: nothing more after the last step, or the
    line of its [catch]. *)
Inductive Report : Type :=
| Completed
| Failed (message : string).

Definition runner_config : Config := {|
  cfg_region := Some "us-east-1";
  cfg_bucket := Some "abhisesbucket";
  cfg_jsonKey := "input/translations.json";
  cfg_csvKey := Some "costume_terminology.csv";
  cfg_customDictionaryName := Some "my-translate-overrides";
  cfg_iamRoleArn := None;
  cfg_defaultTargetLanguage := Some "fr"
|}.

(** [const manager = new AwsTranslateManager(config)] *)
Definition new_manager (config : Config) : M unit :=
  λ st, (Ok tt, {| this := constructor config; s3 := s3 st; journal := journal st |}).

Definition runner : M Report :=
  new_manager runner_config ;;;
  try_catch
    (m <- get_this ;;
     translateText "My name is Abhises" (defaultTargetLanguage m) ;;;
     startBulkTranslation "s3://abhisesbucket/logs/auth/login/12345/10-07-2025.log"
       "s3://abhisesbucket/output/login.json" [defaultTargetLanguage m] ;;;
     loadCustomDictionaryJson ;;;
     addOrUpdateDictionaryEntry "hello" "fr" "bonjour" ;;;
     addOrUpdateDictionaryEntry "world" "fr" "monde" ;;;
     (m <- get_this ;;
      saveCustomDictionaryJson (bucket m) (jsonKey m) (_dictionaryEntries m)) ;;;
     (m <- get_this ;;
      convertJsonToAwsCsvAndUpload (bucket m) (csvKey m) "fr" (_dictionaryEntries m)) ;;;
     (m <- get_this ;;
      importDictionaryToAwsTranslate (bucket m) (csvKey m) (customDictionaryName m) "fr") ;;;
     (m <- get_this ;; listBucketFiles (bucket m)) ;;;
     ret Completed)
    (λ err, ret (Failed (message err))).

(** ** The second version of the class

    The second half of [translationManger.js] (from line 818) holds the
    same methods without validation, handlers and logging. *)

(** [Date.now()] as read by the constructor of the second version. *)
Variable constructed_at : string.

(** [this.generatedCsvKey] *)
Definition legacy_generatedCsvKey (m : Manager) : string :=
  "output/" +:+ csvKey m +:+ "_" +:+ constructed_at +:+ ".csv".

(** [for (const item of items)]: an array gives its elements, a string its
    characters, and nothing else can be iterated. *)
Definition legacy_iterate (items : jsval) : Outcome (list jsval) :=
  match items with
  | VArr l => Ok l
  | VStr s => Ok (map (λ c, VStr (String c EmptyString)) (list_ascii_of_string s))
  | _ => Throw (TypeError "items is not iterable")
  end.

(** [item?.Text || item?.text || item?.source] *)
Definition legacy_text (item : jsval) : jsval :=
  js_or (js_or (opt_get item "Text") (opt_get item "text")) (opt_get item "source").

Fixpoint legacy_translate_langs (text : jsval) (langs : list string)
    (resultsPerLang : Results) : M Results :=
  match langs with
  | [] => ret resultsPerLang
  | lang :: rest =>
      result <- translate_text_send (manual_command text lang) ;;
      legacy_translate_langs text rest (store_result resultsPerLang lang (Some result))
  end.

Fixpoint legacy_translate_items (items : list jsval) (langs : list string)
    (translated : list jsval) : M (list jsval) :=
  match items with
  | [] => ret translated
  | item :: rest =>
      let text := legacy_text item in
      if negb (truthy text)
      then warn (SkippedItem item) ;;; legacy_translate_items rest langs translated
      else
        resultsPerLang <- legacy_translate_langs text langs no_results ;;
        legacy_translate_items rest langs
          (translated ++ [result_record text resultsPerLang])
  end.

Definition legacy_startBulkTranslation (inputS3Uri outputS3Uri : string)
    (targetLangs : list string) : M string :=
  m <- get_this ;;
  if negb (truthy_opt (iamRoleArn m))
  then
    jsonText <- s3_getObject (bucket m) (s3_key m inputS3Uri) ;;
    parsed <- lift (JSON_parse jsonText) ;;
    items <- lift (legacy_iterate parsed) ;;
    translated <- legacy_translate_items items targetLangs [] ;;
    s3_putObject (bucket m) (s3_key m outputS3Uri) (JSON_stringify (VArr translated))
      "application/json" ;;;
    ret "manual-job-done"
  else
    translate_job_send
      {| JobName := "bulk-translate-" +:+ Date_now;
         InputS3Uri := inputS3Uri;
         InputContentType := "application/json";
         OutputS3Uri := outputS3Uri;
         DataAccessRoleArn := default "" (iamRoleArn m);
         TargetLanguageCodes := targetLangs;
         JobTerminologyNames := terminology_of m |}.

(** [e.language === targetLang] *)
Definition legacy_language_is (targetLang : string) (e : jsval) : Outcome bool :=
  obind (get_prop e "language") (λ v,
    Ok match v with
       | VStr s => (s =? targetLang)%string
       | _ => false
       end).

(** [{ SourceText: e.source, [targetLang]: e.translation }] *)
Definition legacy_row (targetLang : string) (e : jsval) : gmap string jsval :=
  <[targetLang := opt_get e "translation"]>
    (<["SourceText" := opt_get e "source"]> ∅).

Definition legacy_rows (entries : jsval) (targetLang : string)
    : Outcome (list (gmap string jsval)) :=
  match entries with
  | VArr l =>
      obind (filter_entries (legacy_language_is targetLang) l)
        (λ kept, Ok (map (legacy_row targetLang) kept))
  | _ => Throw (TypeError "filter is not a function")
  end.

Definition legacy_convertJsonToAwsCsvAndUpload (targetLang : string) : M unit :=
  m <- get_this ;;
  rows <- lift (legacy_rows (_dictionaryEntries m) targetLang) ;;
  csv <- lift (json2csv_parse rows ["SourceText"; targetLang]) ;;
  s3_putObject (bucket m) (legacy_generatedCsvKey m) csv "text/csv".

Definition legacy_importDictionaryToAwsTranslate (targetLang : string) : M jsval :=
  m <- get_this ;;
  if negb (truthy_str (customDictionaryName m))
  then throw (Error "Custom dictionary name is required.")
  else
    csvBuffer <- s3_getObject (bucket m) (csvKey m) ;;
    lift (translate_import (import_command (customDictionaryName m) targetLang csvBuffer)).

(** ** Further notions *)

(** The request [translateText] builds. *)
Definition text_command (m : Manager) (text targetLang : string) : TranslateTextCommand :=
  {| Text := VStr text;
     SourceLanguageCode := "en";
     TargetLanguageCode := targetLang;
     TerminologyNames := terminology_of m |}.

(** The request of the batch branch. *)
Definition job_command (m : Manager) (inputS3Uri outputS3Uri : string)
    (targetLangs : list string) : StartTextTranslationJobCommand :=
  {| JobName := "bulk-translate-" +:+ Date_now;
     InputS3Uri := inputS3Uri;
     InputContentType := "application/json";
     OutputS3Uri := outputS3Uri;
     DataAccessRoleArn := default "" (iamRoleArn m);
     TargetLanguageCodes := targetLangs;
     JobTerminologyNames := terminology_of m |}.

(** The requests the manual loop sends for a list of retained texts: unit by
    unit, and for each unit language by language. *)
Definition manual_requests (texts : list jsval) (langs : list string)
    : list TranslateTextCommand :=
  List.concat (map (λ text, map (manual_command text) langs) texts).

(** What [deleteDictionaryEntry] answers once the store is filtered, and
    what the import and the listing answer once the service has answered. *)
Definition deleted_reply (source targetLang : string) : Outcome DeleteReply :=
  reported "dictionary_delete" "deleteDictionaryEntry"
    ("Deleted entry for " +:+ quoted source +:+ " in " +:+ quoted targetLang)
    "Could not delete dictionary entry" (DeletedEntry source targetLang).

Definition not_found_reply (source targetLang : string) : Outcome DeleteReply :=
  reported "dictionary_not_found" "deleteDictionaryEntry"
    ("No entry found for " +:+ quoted source +:+ " in " +:+ quoted targetLang)
    "Could not delete dictionary entry" (NoEntryFound source targetLang).

Definition imported_reply (result : jsval) : Outcome jsval :=
  reported "dictionary_imported" "importDictionaryToAwsTranslate"
    "Custom terminology imported successfully"
    "Failed to import dictionary to AWS Translate" result.

Definition listed_reply (contents : option (list (gmap string jsval)))
    : Outcome (option (list (gmap string jsval))) :=
  reported "bucket_listing" "listBucketFiles"
    ("Retrieved " +:+ pretty (default 0%nat (List.length <$> contents)) +:+ " files")
    "Could not list files in S3 bucket" contents.

(** The entries that do not have the key. *)
Definition others (k : string * string) (l : list jsval) : list jsval :=
  List.filter (λ e, negb (has_key k e)) l.

(** The states differ at most by log records, collected errors and
    warnings: same manager, same bucket, same requests. *)
Definition quiet (st st' : State) : Prop :=
  same_store st st'
  ∧ sends (journal st') = sends (journal st)
  ∧ jobs (journal st') = jobs (journal st).

(** The dictionary after [addOrUpdateDictionaryEntry] on well-formed
    entries: the translation of the first entry with the key of the call is
    overwritten, or a new entry is appended. *)
Fixpoint upsert (source targetLang translation : string) (l : list jsval) : list jsval :=
  match l with
  | [] => [new_entry source targetLang translation]
  | e :: rest =>
      if has_key (call_key source targetLang) e
      then match e with
           | VObj o => VObj (<["translation" := VStr translation]> o)
           | _ => e
           end :: rest
      else e :: upsert source targetLang translation rest
  end.

(** The record of a text, by what it holds: under every requested language
    (the language [__proto__], which names no property, apart) the answer of
    the service to the request for the text and the language, or [null];
    the text under [original], unless [original] is a language; nothing
    under any other name. *)
Definition holds_results (langs : list string) (text record : jsval) : Prop :=
  ∃ o, record = VObj o
       ∧ (∀ lang, lang ∈ langs → lang ≠ "__proto__" →
                  o !! lang = Some (spec_result text lang))
       ∧ ("original" ∉ langs → o !! "original" = Some text)
       ∧ (∀ k, k ∉ langs → k ≠ "original" → o !! k = None).

(** The texts the manual loop of the second version retains, in the order of the items. *)
Definition legacy_texts (items : list jsval) : list jsval :=
  List.filter truthy (map legacy_text items).

(** The dictionary the runner ends with, from the one it loaded. *)
Definition runner_dictionary (l : list jsval) : list jsval :=
  upsert "world" "fr" "monde" (upsert "hello" "fr" "bonjour" l).

(** From [st] to [st'] the requests [cmds] were sent to the translation
    service, in that order, and nothing else changed but the log. *)
Definition sent (cmds : list TranslateTextCommand) (st st' : State) : Prop :=
  same_store st st'
  ∧ sends (journal st') = (sends (journal st) ++ cmds)%list
  ∧ jobs (journal st') = jobs (journal st).

(** ** Further examples *)

(** A dictionary whose second entry has no source, and one whose second
    entry has no language. *)
Definition demo_no_source_entries : list jsval :=
  [new_entry "hello" "fr" "bonjour"; VObj {[ "language" := VStr "fr" ]}].

Definition demo_no_source_state : State :=
  with_store Demo.state (VArr demo_no_source_entries).

Definition demo_no_language_entries : list jsval :=
  [new_entry "hello" "fr" "bonjour"; VObj {[ "source" := VStr "x" ]}].

(** The bucket with an exported CSV under the manager's CSV key. *)
Definition demo_csv_state : State :=
  {| this := Demo.manager;
     s3 := <[("abhisesbucket", "costume_terminology.csv") := Demo.hello_csv]>
             Demo.bucket_contents;
     journal := [] |}.

(** A terminology service that answers with the name it was given. *)
Definition demo_import_service (c : ImportTerminologyCommand) : Outcome jsval :=
  Ok (VObj {[ "TerminologyProperties" := VObj {[ "Name" := VStr (Name c) ]} ]}).

(** A listing service that answers with the keys the bucket holds. *)
Definition demo_list_service (Bucket : string) (store : gmap (string * string) string)
    : Outcome (option (list (gmap string jsval))) :=
  Ok (Some (omap (λ kv : string * string * string,
                    if (kv.1.1 =? Bucket)%string
                    then Some {[ "Key" := VStr kv.1.2 ]} else None)
              (map_to_list store))).

(** A bucket with the log file the runner names as bulk input and with a
    dictionary of one entry. *)
Definition demo_runner_state : State :=
  {| this := Demo.manager;
     s3 := <[("abhisesbucket", "logs/auth/login/12345/10-07-2025.log")
             := "user logged in"]>
             (<[("abhisesbucket", "input/translations.json")
                := RefJson.stringify (entries_json [("hello", "fr", "salut")])]> ∅);
     journal := [] |}.

(** A bucket whose dictionary file holds an object, not an array. *)
Definition demo_object_dictionary_state : State :=
  {| this := Demo.manager;
     s3 := <[("abhisesbucket", "input/translations.json")
             := Demo.empty_translations_json]> ∅;
     journal := [] |}.

(** ** Properties *)

(** *** The monad and the journal *)

Lemma same_store_refl st : same_store st st.
Proof. split; reflexivity. Qed.

Lemma same_store_trans st1 st2 st3 :
  same_store st1 st2 → same_store st2 st3 → same_store st1 st3.
Proof. intros [H1 H2] [H3 H4]. split; congruence. Qed.

Lemma sends_app (j1 j2 : list Event) : sends (j1 ++ j2)%list = (sends j1 ++ sends j2)%list.
Proof. unfold sends. apply omap_app. Qed.

Lemma jobs_app (j1 j2 : list Event) : jobs (j1 ++ j2)%list = (jobs j1 ++ jobs j2)%list.
Proof. unfold jobs. apply omap_app. Qed.

Lemma quiet_refl st : quiet st st.
Proof. split; [apply same_store_refl | split; reflexivity]. Qed.

Lemma quiet_trans st1 st2 st3 : quiet st1 st2 → quiet st2 st3 → quiet st1 st3.
Proof.
  intros (Ha & Hb & Hc) (Hd & He & Hf).
  split; [eapply same_store_trans; eassumption | split; congruence].
Qed.

Lemma emit_quiet e st :
  sends [e] = [] → jobs [e] = [] →
  ∃ st', emit e st = (Ok tt, st') ∧ quiet st st'.
Proof.
  intros Hs Hj. eexists. split; [reflexivity | ].
  split; [split; reflexivity | ]. simpl.
  rewrite sends_app, jobs_app, Hs, Hj, !app_nil_r. split; reflexivity.
Qed.

(** [Logger.writeLog] either returns or throws what the logger threw; it
    changes nothing but the log. *)
Lemma writeLog_run flag action msg critical st :
  ∃ st', writeLog flag action msg critical st = (logged flag action msg critical, st')
         ∧ quiet st st'.
Proof.
  unfold writeLog, logged, log_fault. destruct logging_enabled; cbn [negb].
  - destruct (logger_fault flag action msg critical) as [err | ].
    + exists st. split; [reflexivity | apply quiet_refl].
    + apply emit_quiet; reflexivity.
  - exists st. split; [reflexivity | apply quiet_refl].
Qed.

Lemma writeLog_quiet (Hlog : logger_serves) flag action msg critical st :
  ∃ st', writeLog flag action msg critical st = (Ok tt, st') ∧ quiet st st'.
Proof.
  destruct (writeLog_run flag action msg critical st) as (st' & Hrun & Hq).
  exists st'. split; [ | exact Hq].
  rewrite Hrun. unfold logged. rewrite Hlog. reflexivity.
Qed.

Lemma writeLog_same_store (Hlog : logger_serves) flag action msg critical st :
  ∃ st', writeLog flag action msg critical st = (Ok tt, st') ∧ same_store st st'.
Proof.
  destruct (writeLog_quiet Hlog flag action msg critical st) as (st' & Hrun & Hq & _).
  exists st'. split; assumption.
Qed.

Lemma add_error_quiet title st :
  ∃ st', add_error title st = (Ok tt, st') ∧ quiet st st'.
Proof. apply emit_quiet; reflexivity. Qed.

Lemma warn_quiet w st :
  ∃ st', warn w st = (Ok tt, st') ∧ quiet st st'.
Proof. apply emit_quiet; reflexivity. Qed.

(** The three steps every handler of the class ends with. *)
Lemma handler_run {A : Type} title action msg final st :
  ∃ st',
    (add_error title ;;; writeLog "system_error" action msg true ;;; @throw A (Error final)) st
    = (Throw (handler_error action msg final), st')
    ∧ quiet st st'.
Proof.
  unfold bind at 1.
  destruct (add_error_quiet title st) as (st1 & -> & H1).
  unfold bind at 1.
  destruct (writeLog_run "system_error" action msg true st1) as (st2 & -> & H2).
  exists st2. split; [ | eapply quiet_trans; eassumption].
  unfold logged, handler_error.
  destruct (log_fault "system_error" action msg true); reflexivity.
Qed.

Lemma handler_error_serves action msg final :
  logger_serves → handler_error action msg final = Error final.
Proof. intros Hlog. unfold handler_error. rewrite Hlog. reflexivity. Qed.

Lemma reported_serves {A : Type} flag action msg final (a : A) :
  logger_serves → reported flag action msg final a = Ok a.
Proof. intros Hlog. unfold reported. rewrite Hlog. reflexivity. Qed.

Ltac run_handler st1 H :=
  cbv beta iota;
  match goal with
  | |- context [(add_error ?t ;;; writeLog "system_error" ?a ?m true
                 ;;; @throw ?A (Error ?e)) ?s] =>
      destruct (@handler_run A t a m e s) as (st1 & -> & H)
  end.

(** *** Lines *)

Lemma split_lines_LF r :
  JsString.split_lines (String "010" r) = EmptyString :: JsString.split_lines r.
Proof. reflexivity. Qed.

Lemma split_lines_CRLF r :
  JsString.split_lines (String "013" (String "010" r))
  = EmptyString :: JsString.split_lines r.
Proof. reflexivity. Qed.

(** A character that does not open a line break goes to the piece under way. *)
Lemma split_lines_char c r :
  (c =? "010")%char = false →
  ((c =? "013")%char = true → starts_with_LF r = false) →
  JsString.split_lines (String c r)
  = match JsString.split_lines r with
    | h :: t => String c h :: t
    | [] => [String c EmptyString]
    end.
Proof.
  intros Hc Hr.
  destruct (c =? "013")%char eqn:E.
  - apply Ascii.eqb_eq in E. subst c. specialize (Hr eq_refl).
    destruct r as [ | d r]; [reflexivity | ].
    simpl in Hr.
    destruct d as [[] [] [] [] [] [] [] []]; try discriminate Hr; reflexivity.
  - clear Hr.
    destruct c as [[] [] [] [] [] [] [] []];
      try discriminate Hc; try discriminate E; reflexivity.
Qed.

Lemma has_LF_starts r s :
  has_LF r = false → r ≠ EmptyString → starts_with_LF (r +:+ s) = false.
Proof.
  destruct r as [ | c r]; [contradiction | ]. simpl. intros H _.
  apply orb_false_iff in H. exact (proj1 H).
Qed.

Lemma split_lines_last last :
  has_LF last = false → JsString.split_lines last = [last].
Proof.
  induction last as [ | c r IH]; [reflexivity | ].
  simpl has_LF. intros H. apply orb_false_iff in H. destruct H as [Hc Hr].
  rewrite split_lines_char; [rewrite (IH Hr); reflexivity | exact Hc | ].
  intros _. destruct r as [ | d r]; [reflexivity | ].
  simpl in *. apply orb_false_iff in Hr. exact (proj1 Hr).
Qed.

Lemma split_lines_line line crlf rest :
  proper_line (line, crlf) →
  JsString.split_lines (line +:+ line_break crlf +:+ rest)
  = line :: JsString.split_lines rest.
Proof.
  unfold proper_line. cbn [fst snd].
  induction line as [ | c r IH]; intros [Hlf Hcr].
  - destruct crlf; reflexivity.
  - simpl has_LF in Hlf. apply orb_false_iff in Hlf. destruct Hlf as [Hc Hr].
    change (String c r +:+ line_break crlf +:+ rest)
      with (String c (r +:+ line_break crlf +:+ rest)).
    rewrite split_lines_char.
    + rewrite IH; [reflexivity | ]. split; [exact Hr | ].
      intros Hb. specialize (Hcr Hb). destruct r; [reflexivity | exact Hcr].
    + exact Hc.
    + intros E. destruct r as [ | d r].
      * destruct crlf; [reflexivity | ].
        specialize (Hcr eq_refl). simpl in Hcr. congruence.
      * apply has_LF_starts; [exact Hr | discriminate].
Qed.

Lemma split_lines_joined lines last :
  Forall proper_line lines → has_LF last = false →
  JsString.split_lines (joined_lines lines last) = (map fst lines ++ [last])%list.
Proof.
  intros Hl Hlast. induction Hl as [ | [line crlf] rest Hp _ IH].
  - apply split_lines_last. exact Hlast.
  - cbn [joined_lines map fst app]. rewrite (split_lines_line _ _ _ Hp), IH.
    reflexivity.
Qed.

Lemma blank_line_trim s : JsString.is_empty (JsString.trim s) = blank_line s.
Proof.
  unfold JsString.trim. induction s as [ | c r IH]; [reflexivity | ].
  simpl blank_line. simpl JsString.trimStart.
  destruct (JsString.is_whitespace c) eqn:E; [exact IH | ].
  simpl. rewrite E. destruct (JsString.trimEnd r); reflexivity.
Qed.

(** The units of a text made of lines are its lines that are not blank. *)
Lemma line_units_joined lines last :
  Forall proper_line lines → has_LF last = false →
  line_units (joined_lines lines last)
  = map VStr (List.filter (λ line, negb (blank_line line)) (map fst lines ++ [last])%list).
Proof.
  intros Hl Hlast. unfold line_units. rewrite (split_lines_joined _ _ Hl Hlast).
  f_equal. apply List.filter_ext. intros line. rewrite blank_line_trim. reflexivity.
Qed.

(** *** Parsing the downloaded text *)

Lemma parse_items_quiet rawText st :
  ∃ st', parse_items rawText st = (Ok (parsed_units rawText), st') ∧ quiet st st'.
Proof.
  assert (Hq : ∀ w, quiet st {| this := this st; s3 := s3 st;
                                journal := (journal st ++ [EvWarn w])%list |}).
  { intros w. split; [split; reflexivity | ]. simpl.
    rewrite sends_app, jobs_app, !app_nil_r. split; reflexivity. }
  unfold parse_items, parsed_units, try_catch, bind, lift, warn, emit.
  fold (line_units rawText).
  destruct (JSON_parse rawText) as [parsed | err]; simpl.
  - destruct parsed as [ | | b | n | s | l | o]; simpl;
      try (eexists; split; [reflexivity | apply Hq]).
    + destruct l as [ | x l]; simpl;
        eexists; (split; [reflexivity | first [apply Hq | apply quiet_refl]]).
    + unfold opt_get. destruct (o !! "translations") as [v | ]; simpl;
        [ | eexists; split; [reflexivity | apply Hq] ].
      destruct v as [ | | b | n | s | l | o']; simpl;
        try (eexists; split; [reflexivity | apply Hq]).
      destruct l as [ | x l]; simpl;
        eexists; (split; [reflexivity | first [apply Hq | apply quiet_refl]]).
  - eexists; split; [reflexivity | apply Hq].
Qed.

Lemma parse_items_units rawText st :
  ∃ st', parse_items rawText st = (Ok (parsed_units rawText), st') ∧ same_store st st'.
Proof.
  destruct (parse_items_quiet rawText st) as (st' & Hrun & Hq & _).
  exists st'. split; assumption.
Qed.

(** C2. The unit list of the manual fallback follows the ordered-preference
    rules: whatever the downloaded text, [parse_items] returns (it never
    throws) and leaves manager and bucket alone; (a) a text that parses to a
    non-empty array gives its elements; (b) a text that parses to an object
    whose [translations] is a non-empty array gives that array; (c) a text
    that does not parse gives its non-blank lines; and an empty array under
    (a) or (b), like any other parsed value, falls through to the non-blank
    lines as well.  In particular the object with [translations: []] is read
    line by line.  The non-blank lines of a text are these: when the text is
    a sequence of lines, each ended by LF or by CR LF, and a last line, they
    are the lines that hold something besides white space, in the order of
    the text; so the text of the lines [a], an empty line and [b] gives the
    two units [a] and [b]. *)
Theorem C2_parse_items_ordered_preference (rawText : string) (st : State) :
  ∃ items st',
    parse_items rawText st = (Ok items, st') ∧ same_store st st' ∧
    items = parsed_units rawText ∧
    (∀ x l, JSON_parse rawText = Ok (VArr (x :: l)) → items = x :: l) ∧
    (∀ o x l, JSON_parse rawText = Ok (VObj o) →
       o !! "translations" = Some (VArr (x :: l)) → items = x :: l) ∧
    (∀ err, JSON_parse rawText = Throw err → items = line_units rawText) ∧
    (JSON_parse rawText = Ok (VArr []) → items = line_units rawText) ∧
    (∀ o, JSON_parse rawText = Ok (VObj o) →
       o !! "translations" = Some (VArr []) → items = line_units rawText) ∧
    (∀ parsed, JSON_parse rawText = Ok parsed →
       selected_array parsed = None → items = line_units rawText) ∧
    (JSON_parse rawText = Ok (VObj {[ "translations" := VArr [] ]}) →
       items = line_units rawText) ∧
    (∀ lines last,
       rawText = joined_lines lines last →
       Forall proper_line lines → has_LF last = false →
       line_units rawText
       = map VStr (List.filter (λ line, negb (blank_line line))
                     (map fst lines ++ [last])%list)) ∧
    (rawText = joined_lines [("a", false); ("", true)] "b" →
       line_units rawText = [VStr "a"; VStr "b"]).
Proof.
  destruct (parse_items_units rawText st) as (st' & Hrun & Hsame).
  exists (parsed_units rawText), st'.
  split; [exact Hrun | ]. split; [exact Hsame | ]. split; [reflexivity | ].
  unfold parsed_units.
  repeat split.
  - intros x l H. rewrite H. reflexivity.
  - intros o x l H Ht. rewrite H. simpl. rewrite Ht. reflexivity.
  - intros err H. rewrite H. reflexivity.
  - intros H. rewrite H. reflexivity.
  - intros o H Ht. rewrite H. simpl. rewrite Ht. reflexivity.
  - intros parsed H Hs. rewrite H, Hs. reflexivity.
  - intros H. rewrite H. reflexivity.
  - intros lines last -> Hl Hlast. apply line_units_joined; assumption.
  - intros ->. reflexivity.
Qed.

(** *** Extracting the text of a unit *)

(** The text the loop extracts is the text of the unit, and the loop keeps
    the unit exactly when it has one. *)
Lemma spec_unit_text_extract entry :
  spec_unit_text entry
  = if truthy (extract_text entry) then Some (extract_text entry) else None.
Proof.
  destruct entry as [ | | b | n | s | l | o]; try reflexivity.
  - destruct s; reflexivity.
  - simpl. unfold js_or.
    destruct (o !! "Text") as [v1 | ]; destruct (o !! "text") as [v2 | ];
      destruct (o !! "source") as [v3 | ]; simpl;
      repeat match goal with
             | |- context [truthy ?v] => is_var v; destruct (truthy v) eqn:?; simpl
             end;
      first [congruence | reflexivity].
Qed.

Lemma retained_texts_cons entry rest :
  retained_texts (entry :: rest)
  = if truthy (extract_text entry) then extract_text entry :: retained_texts rest
    else retained_texts rest.
Proof. reflexivity. Qed.

Lemma retained_texts_spec items : retained_texts items = spec_retained items.
Proof.
  induction items as [ | entry rest IH]; [reflexivity | ].
  rewrite retained_texts_cons. unfold spec_retained. cbn [omap list_omap].
  rewrite spec_unit_text_extract. fold (spec_retained rest). rewrite <- IH.
  destruct (truthy (extract_text entry)); reflexivity.
Qed.

Lemma manual_requests_spec texts langs :
  manual_requests texts langs = spec_requests texts langs.
Proof.
  unfold manual_requests, spec_requests.
  induction texts as [ | text rest IH]; [reflexivity | ].
  cbn [map List.concat mbind list_bind]. rewrite IH. reflexivity.
Qed.

(** The request the loop builds is the request for the text and the
    language, so what the loop stores is the result for them. *)
Lemma manual_command_spec text lang : manual_command text lang = spec_request text lang.
Proof. reflexivity. Qed.

Lemma lang_result_spec text lang : lang_result text lang = spec_result text lang.
Proof. unfold lang_result, spec_result. rewrite manual_command_spec. reflexivity. Qed.

Lemma lang_outcome_result text lang :
  from_option VStr VNull (lang_outcome text lang) = lang_result text lang.
Proof.
  unfold lang_outcome, lang_result.
  destruct (translate_send (manual_command text lang)); reflexivity.
Qed.

Lemma spec_retained_sublist items :
  map Some (spec_retained items) `sublist_of` map spec_unit_text items.
Proof.
  unfold spec_retained. induction items as [ | entry rest IH]; [constructor | ].
  cbn [omap list_omap map].
  destruct (spec_unit_text entry); [apply sublist_skip | apply sublist_cons]; exact IH.
Qed.

(** *** What a record holds *)

Lemma store_result_other r lang v k :
  k ≠ lang → own (store_result r lang v) !! k = own r !! k.
Proof.
  intros Hne. unfold store_result.
  destruct ((lang =? "__proto__")%string && inherits r).
  - destruct v; reflexivity.
  - simpl. apply lookup_insert_ne. congruence.
Qed.

Lemma store_result_same r lang v :
  lang ≠ "__proto__" →
  own (store_result r lang v) !! lang = Some (from_option VStr VNull v).
Proof.
  intros Hne. unfold store_result.
  destruct (String.eqb_spec lang "__proto__") as [E | _]; [contradiction | ].
  simpl. apply lookup_insert_eq.
Qed.

Lemma results_of_cons text lang rest acc :
  results_of text (lang :: rest) acc
  = results_of text rest (store_result acc lang (lang_outcome text lang)).
Proof. reflexivity. Qed.

Lemma results_of_notin langs :
  ∀ text acc k, k ∉ langs → own (results_of text langs acc) !! k = own acc !! k.
Proof.
  induction langs as [ | lang rest IH]; intros text acc k Hk; [reflexivity | ].
  rewrite results_of_cons, IH.
  - apply store_result_other. intros ->. apply Hk. left.
  - intros Hin. apply Hk. right. exact Hin.
Qed.

Lemma results_of_in langs :
  ∀ text acc k, k ∈ langs → k ≠ "__proto__" →
    own (results_of text langs acc) !! k = Some (lang_result text k).
Proof.
  induction langs as [ | lang rest IH]; intros text acc k Hk Hne.
  - inversion Hk.
  - rewrite results_of_cons.
    destruct (decide (k ∈ rest)) as [Hin | Hnin].
    + apply IH; assumption.
    + apply elem_of_cons in Hk. destruct Hk as [-> | Hk]; [ | contradiction].
      rewrite (results_of_notin rest text _ lang Hnin).
      rewrite (store_result_same _ _ _ Hne). rewrite lang_outcome_result. reflexivity.
Qed.

(** The properties of the record of a text: under a requested language
    other than [__proto__] the result for that language; under [original]
    the text, unless [original] is a language; nothing else. *)
Lemma record_fields_lookup langs text k :
  (own (results_of text langs no_results) ∪ {[ "original" := text ]}) !! k
  = if decide (k ∈ langs)
    then if decide (k = "__proto__")
         then (own (results_of text langs no_results) ∪ {[ "original" := text ]}) !! k
         else Some (lang_result text k)
    else if decide (k = "original") then Some text else None.
Proof.
  destruct (decide (k ∈ langs)) as [Hin | Hnin].
  - destruct (decide (k = "__proto__")) as [ | Hne]; [reflexivity | ].
    apply lookup_union_Some_l. apply results_of_in; assumption.
  - pose proof (results_of_notin langs text no_results k Hnin) as H.
    change (own no_results) with (∅ : gmap string jsval) in H.
    rewrite lookup_empty in H. rewrite lookup_union_r by exact H.
    destruct (decide (k = "original")) as [-> | Hne].
    + apply lookup_singleton_eq.
    + apply lookup_singleton_ne. congruence.
Qed.

(** *** The two loops of the manual fallback *)

Lemma quiet_sent st st' : quiet st st' → sent [] st st'.
Proof.
  intros (Ha & Hb & Hc). split; [exact Ha | ].
  split; [rewrite app_nil_r; exact Hb | exact Hc].
Qed.

Lemma sent_trans a b st1 st2 st3 :
  sent a st1 st2 → sent b st2 st3 → sent (a ++ b)%list st1 st3.
Proof.
  intros (Ha & Hb & Hc) (Hd & He & Hf).
  split; [eapply same_store_trans; eassumption | ].
  split; [rewrite He, Hb, app_assoc; reflexivity | congruence].
Qed.

Lemma sent_quiet a st1 st2 st3 : sent a st1 st2 → quiet st2 st3 → sent a st1 st3.
Proof.
  intros H1 H2. apply quiet_sent in H2.
  rewrite <- (app_nil_r a). eapply sent_trans; eassumption.
Qed.

Lemma quiet_then_sent a st1 st2 st3 : quiet st1 st2 → sent a st2 st3 → sent a st1 st3.
Proof.
  intros H1 H2. apply quiet_sent in H1.
  change a with ([] ++ a)%list. eapply sent_trans; eassumption.
Qed.

Lemma translate_text_send_sent c st :
  ∃ st', translate_text_send c st = (translate_send c, st') ∧ sent [c] st st'.
Proof.
  unfold translate_text_send, bind, emit, lift.
  eexists. split; [reflexivity | ].
  split; [split; reflexivity | ]. simpl.
  rewrite sends_app, jobs_app, app_nil_r. split; reflexivity.
Qed.

(** One attempt: the request is sent; the result is stored when the service
    answers; when it throws, the record of the failure is written first, and
    [null] is stored only if the logger took the record. *)
Lemma attempt_run text lang (acc : Results) st :
  ∃ st',
    try_catch
      (result <- translate_text_send (manual_command text lang) ;;
       ret (store_result acc lang (Some result)))
      (λ translationError,
         writeLog "translation_error" "manualTranslate"
           (message translationError) false ;;;
         ret (store_result acc lang None)) st
    = (match translate_send (manual_command text lang) with
       | Ok result => Ok (store_result acc lang (Some result))
       | Throw err =>
           match log_fault "translation_error" "manualTranslate" (message err) false with
           | None => Ok (store_result acc lang None)
           | Some refusal => Throw refusal
           end
       end, st')
    ∧ sent [manual_command text lang] st st'.
Proof.
  unfold try_catch, bind at 1.
  destruct (translate_text_send_sent (manual_command text lang) st)
    as (st1 & -> & H1).
  destruct (translate_send (manual_command text lang)) as [s | err].
  - exists st1. split; [reflexivity | exact H1].
  - unfold bind at 1.
    run_log writeLog_run st2 H2 E;
      (exists st2; split; [reflexivity | eapply sent_quiet; eassumption]).
Qed.

Lemma attempt_sent (Hlog : logger_serves) text lang (acc : Results) st :
  ∃ st',
    try_catch
      (result <- translate_text_send (manual_command text lang) ;;
       ret (store_result acc lang (Some result)))
      (λ translationError,
         writeLog "translation_error" "manualTranslate"
           (message translationError) false ;;;
         ret (store_result acc lang None)) st
    = (Ok (store_result acc lang (lang_outcome text lang)), st')
    ∧ sent [manual_command text lang] st st'.
Proof.
  destruct (attempt_run text lang acc st) as (st' & Hrun & Hsent).
  exists st'. split; [ | exact Hsent].
  rewrite Hrun. unfold lang_outcome.
  destruct (translate_send (manual_command text lang)) as [s | err]; [reflexivity | ].
  rewrite Hlog. reflexivity.
Qed.

Lemma translate_langs_sent (Hlog : logger_serves) langs :
  ∀ text (acc : Results) st,
    ∃ st', translate_langs text langs acc st = (Ok (results_of text langs acc), st')
           ∧ sent (map (manual_command text) langs) st st'.
Proof.
  induction langs as [ | lang rest IH]; intros text acc st.
  - exists st. split; [reflexivity | apply quiet_sent, quiet_refl].
  - simpl translate_langs. unfold bind at 1.
    destruct (attempt_sent Hlog text lang acc st) as (st1 & -> & H1).
    destruct (IH text (store_result acc lang (lang_outcome text lang)) st1)
      as (st2 & -> & H2).
    exists st2. split; [reflexivity | ].
    change (map (manual_command text) (lang :: rest))
      with ([manual_command text lang] ++ map (manual_command text) rest)%list.
    eapply sent_trans; eassumption.
Qed.

Lemma translate_items_sent (Hlog : logger_serves) items :
  ∀ langs translated st,
    ∃ st',
      translate_items items langs translated st
      = (Ok (translated ++ map (record_for langs) (retained_texts items))%list, st')
      ∧ sent (manual_requests (retained_texts items) langs) st st'.
Proof.
  induction items as [ | entry rest IH]; intros langs translated st.
  - exists st. simpl. rewrite app_nil_r.
    split; [reflexivity | apply quiet_sent, quiet_refl].
  - rewrite retained_texts_cons.
    destruct (truthy (extract_text entry)) eqn:E.
    + simpl translate_items. rewrite E. cbn [negb]. unfold bind at 1.
      destruct (translate_langs_sent Hlog langs (extract_text entry) no_results st)
        as (st1 & -> & H1).
      destruct (IH langs
                  (translated ++ [result_record (extract_text entry)
                                    (results_of (extract_text entry) langs no_results)])%list
                  st1)
        as (st2 & -> & H2).
      exists st2. split.
      * rewrite <- app_assoc. reflexivity.
      * unfold manual_requests. cbn [map List.concat].
        eapply sent_trans; eassumption.
    + simpl translate_items. rewrite E. cbn [negb]. unfold bind at 1.
      destruct (warn_quiet (SkippedItem entry) st) as (st1 & -> & H1).
      destruct (IH langs translated st1) as (st2 & -> & H2).
      exists st2. split; [reflexivity | eapply quiet_then_sent; eassumption].
Qed.

(** The record of a text, read through its properties. *)
Lemma record_for_fields langs text :
  ∃ o, record_for langs text = VObj o
       ∧ (∀ lang, lang ∈ langs → lang ≠ "__proto__" →
                  o !! lang = Some (spec_result text lang))
       ∧ ("original" ∉ langs → o !! "original" = Some text)
       ∧ (∀ k, k ∉ langs → k ≠ "original" → o !! k = None).
Proof.
  exists (own (results_of text langs no_results) ∪ {[ "original" := text ]}).
  split; [reflexivity | ].
  split; [ | split ].
  - intros lang Hlang Hne. rewrite record_fields_lookup.
    destruct (decide (lang ∈ langs)); [ | contradiction].
    destruct (decide (lang = "__proto__")); [contradiction | ].
    rewrite lang_result_spec. reflexivity.
  - intros Hn. rewrite record_fields_lookup.
    destruct (decide ("original" ∈ langs)); [contradiction | reflexivity].
  - intros k Hk Hne. rewrite record_fields_lookup.
    destruct (decide (k ∈ langs)); [contradiction | ].
    destruct (decide (k = "original")); [contradiction | reflexivity].
Qed.

(** C9 (as amended). Text extraction in the manual fallback.  The text of
    a unit is the unit itself when it is a string; otherwise its fields
    [Text], [text] and [source] are consulted in that order and the first
    value that counts as true is the text, a field that holds the empty
    string, [null], [false] or [0] being passed over like a missing one; a
    unit with no such text (the empty string is one) has none
    ([spec_unit_text]).  A unit without text is skipped: the loop goes on
    with the remaining units and the same records, having written a
    warning only, and nothing is thrown for it.  For a unit with a text the
    loop translates that text into the languages and appends the record made
    of that text and the results.  So, when the logger takes its records,
    the loop returns whatever the units are: it has appended one record per
    unit that has a text, in the order of the units, each holding the text
    under [original], and has sent the requests for these texts, and for no
    other, each with the text as its [Text]. *)
Theorem C9_extract_text_priority items langs translated st :
  (∀ unit, spec_unit_text unit = None →
     ∃ st1, translate_items (unit :: items) langs translated st
            = translate_items items langs translated st1
            ∧ quiet st st1)
  ∧ (∀ unit text, spec_unit_text unit = Some text →
       translate_items (unit :: items) langs translated st
       = (resultsPerLang <- translate_langs text langs no_results ;;
          translate_items items langs
            (translated ++ [result_record text resultsPerLang])%list) st)
  ∧ (logger_serves →
     ∃ st' records,
       translate_items items langs translated st = (Ok (translated ++ records)%list, st')
       ∧ same_store st st'
       ∧ sends (journal st')
         = (sends (journal st) ++ spec_requests (spec_retained items) langs)%list
       ∧ List.length records = List.length (spec_retained items)
       ∧ (∀ i text,
            spec_retained items !! i = Some text →
            ∃ o, records !! i = Some (VObj o)
                 ∧ ("original" ∉ langs → o !! "original" = Some text))).
Proof.
  split; [ | split].
  - intros unit Hnone. rewrite spec_unit_text_extract in Hnone.
    destruct (truthy (extract_text unit)) eqn:E; [discriminate | ].
    simpl translate_items. rewrite E. cbn [negb]. unfold bind at 1.
    destruct (warn_quiet (SkippedItem unit) st) as (st1 & -> & H1).
    exists st1. split; [reflexivity | exact H1].
  - intros unit text Hsome. rewrite spec_unit_text_extract in Hsome.
    destruct (truthy (extract_text unit)) eqn:E; [ | discriminate].
    injection Hsome as Htext.
    simpl translate_items. rewrite E, Htext. reflexivity.
  - intros Hlog.
    destruct (translate_items_sent Hlog items langs translated st)
      as (st' & Hrun & Hsame & Hsends & _).
    rewrite retained_texts_spec in Hrun. rewrite retained_texts_spec in Hsends.
    rewrite manual_requests_spec in Hsends.
    exists st', (map (record_for langs) (spec_retained items)).
    split; [exact Hrun | ]. split; [exact Hsame | ]. split; [exact Hsends | ].
    split; [apply length_map | ].
    intros i text Hi.
    destruct (record_for_fields langs text) as (o & Ho & _ & Horig & _).
    exists o. split; [ | exact Horig].
    rewrite list_lookup_fmap, Hi. simpl. rewrite Ho. reflexivity.
Qed.

(** *** The manual fallback *)

Lemma manual_fallback_run (Hlog : logger_serves) st inputS3Uri outputS3Uri langs rawText :
  truthy_opt (iamRoleArn (this st)) = false →
  (∀ c, s3_fault c = None) →
  s3 st !! (bucket (this st), s3_key (this st) inputS3Uri) = Some rawText →
  ∃ st',
    startBulkTranslation inputS3Uri outputS3Uri langs st = (Ok "manual-job-done", st')
    ∧ this st' = this st
    ∧ s3 st'
      = <[(bucket (this st), s3_key (this st) outputS3Uri)
          := JSON_stringify
               (VArr (map (record_for langs) (spec_retained (parsed_units rawText))))]>
          (s3 st).
Proof.
  intros Hrole Hfault Hin.
  unfold startBulkTranslation, bind at 1. unfold get_this at 1.
  rewrite Hrole. cbn [negb].
  unfold bind at 1.
  run_writeLog (writeLog_same_store Hlog) st1 Ht1 Hs1.
  unfold try_catch, bind at 1.
  unfold s3_getObject at 1. rewrite Hfault, Hs1, Hin.
  unfold bind at 1.
  destruct (parse_items_units rawText st1) as (st2 & -> & [Ht2 Hs2]).
  unfold bind at 1.
  destruct (translate_items_sent Hlog (parsed_units rawText) langs [] st2)
    as (st3 & -> & [Ht3 Hs3] & _).
  simpl app. rewrite retained_texts_spec.
  unfold bind at 1. unfold s3_putObject at 1. rewrite Hfault.
  unfold ret.
  eexists. split; [reflexivity | ].
  simpl. split; [congruence | ].
  rewrite Hs3, Hs2, Hs1. reflexivity.
Qed.


(** C10. Order and ownership in the uploaded array of the manual fallback,
    when the bucket serves its commands and the logger takes its records.
    The texts of the retained units form a subsequence of the texts of the
    parsed units, and the uploaded array lines up with it index by index:
    it has as many records, and the record at an index belongs to the
    retained text at that index: it holds, for every requested language
    (the language [__proto__], which names no property, apart), the answer of
    the service to the request for that very text and that language, or
    [null] when the service threw; it holds the text itself under
    [original] unless [original] is one of the languages, and it holds
    nothing under any other name. *)
Theorem C10_bulk_output_order st inputS3Uri outputS3Uri langs rawText :
  truthy_opt (iamRoleArn (this st)) = false →
  (∀ c, s3_fault c = None) →
  logger_serves →
  s3 st !! (bucket (this st), s3_key (this st) inputS3Uri) = Some rawText →
  ∃ st' records,
    startBulkTranslation inputS3Uri outputS3Uri langs st = (Ok "manual-job-done", st')
    ∧ s3 st' !! (bucket (this st), s3_key (this st) outputS3Uri)
      = Some (JSON_stringify (VArr records))
    ∧ map Some (spec_retained (parsed_units rawText))
        `sublist_of` map spec_unit_text (parsed_units rawText)
    ∧ List.length records = List.length (spec_retained (parsed_units rawText))
    ∧ ∀ i,
        match spec_retained (parsed_units rawText) !! i with
        | Some text =>
            ∃ o, records !! i = Some (VObj o)
                 ∧ (∀ lang, lang ∈ langs → lang ≠ "__proto__" →
                      o !! lang
                      = Some (match translate_send
                                      {| Text := text;
                                         SourceLanguageCode := "en";
                                         TargetLanguageCode := lang;
                                         TerminologyNames := None |} with
                              | Ok translated => VStr translated
                              | Throw _ => VNull
                              end))
                 ∧ ("original" ∉ langs → o !! "original" = Some text)
                 ∧ (∀ k, k ∉ langs → k ≠ "original" → o !! k = None)
        | None => records !! i = None
        end.
Proof.
  intros Hrole Hfault Hlog Hin.
  destruct (manual_fallback_run Hlog st inputS3Uri outputS3Uri langs rawText
              Hrole Hfault Hin) as (st' & Hrun & _ & Hs3).
  exists st', (map (record_for langs) (spec_retained (parsed_units rawText))).
  split; [exact Hrun | ].
  split; [rewrite Hs3; apply lookup_insert_eq | ].
  split; [apply spec_retained_sublist | ].
  split; [apply length_map | ].
  intros i. rewrite list_lookup_fmap.
  destruct (spec_retained (parsed_units rawText) !! i) as [text | ]; simpl;
    [ | reflexivity].
  destruct (record_for_fields langs text) as (o & Ho & Hlangs & Horig & Hrest).
  exists o. split; [rewrite Ho; reflexivity | ].
  split; [ | split; assumption].
  intros lang Hlang Hne. rewrite (Hlangs lang Hlang Hne). reflexivity.
Qed.

(** The tolerance of the manual fallback ends at the logger.  The handler of
    a failed translation writes its record before it stores [null]; when the
    logger throws for that record, the error leaves the two loops and the
    call throws [Manual translation failed:] with the message of the logger
    (or what the logger throws for the record of that failure), nothing is
    uploaded, and the requests for the remaining languages and units are
    never sent.  Here for the first language of the first unit. *)
Lemma bulk_stops_when_logger_throws st inputS3Uri outputS3Uri langs rawText
    unit others text lang rest err refusal :
  truthy_opt (iamRoleArn (this st)) = false →
  s3_fault (GetObjectCommand (bucket (this st)) (s3_key (this st) inputS3Uri)) = None →
  s3 st !! (bucket (this st), s3_key (this st) inputS3Uri) = Some rawText →
  log_fault "manual_fallback" "startBulkTranslation"
    "IAM Role not provided, running manual translation" false = None →
  parsed_units rawText = unit :: others →
  spec_unit_text unit = Some text →
  langs = lang :: rest →
  translate_send (spec_request text lang) = Throw err →
  log_fault "translation_error" "manualTranslate" (message err) false = Some refusal →
  ∃ st',
    startBulkTranslation inputS3Uri outputS3Uri langs st
    = (Throw (handler_error "manualTranslation" (message refusal)
                ("Manual translation failed: " +:+ message refusal)), st')
    ∧ same_store st st'
    ∧ sends (journal st') = (sends (journal st) ++ [spec_request text lang])%list.
Proof.
  intros Hrole Hfault Hin Hfallback Hunits Hunit -> Hsend Hrefusal.
  rewrite spec_unit_text_extract in Hunit.
  destruct (truthy (extract_text unit)) eqn:Htruthy; [ | discriminate].
  injection Hunit as Htext.
  unfold startBulkTranslation, bind at 1. unfold get_this at 1.
  rewrite Hrole. cbn [negb].
  unfold bind at 1.
  run_log writeLog_run st1 H1 E; [congruence | ].
  pose proof H1 as ([Ht1 Hs1] & _).
  unfold try_catch, bind at 1.
  unfold s3_getObject at 1. rewrite Hfault, Hs1, Hin.
  unfold bind at 1.
  destruct (parse_items_quiet rawText st1) as (st2 & -> & H2).
  rewrite Hunits.
  unfold bind at 1. cbn [translate_items]. rewrite Htruthy. cbn [negb].
  unfold bind at 1. cbn [translate_langs]. unfold bind at 1.
  destruct (attempt_run (extract_text unit) lang no_results st2) as (st3 & -> & H3).
  rewrite Htext in *.
  change (manual_command text lang) with (spec_request text lang) in *.
  rewrite Hsend, Hrefusal.
  run_handler st4 H4.
  exists st4. split; [reflexivity | ].
  pose proof (sent_quiet _ _ _ _ (quiet_then_sent _ _ _ _ (quiet_trans _ _ _ H1 H2) H3) H4)
    as (Hsame & Hsends & _).
  split; assumption.
Qed.

(** *** Loading and saving the dictionary *)

(** The end of a [try] block whose work is done: the record of success is
    written and the value returned, or the logger throws and the handler
    of the method runs. *)
Lemma report_run {A : Type} flag action msg title final (a : A) st :
  ∃ st',
    try_catch
      (writeLog flag action msg false ;;; ret a)
      (λ err,
         add_error title ;;;
         writeLog "system_error" action (message err) true ;;;
         throw (Error final)) st
    = (reported flag action msg final a, st')
    ∧ quiet st st'.
Proof.
  unfold try_catch, bind at 1. unfold reported.
  run_log writeLog_run st1 H1 E.
  - run_handler st2 H2.
    exists st2. split; [reflexivity | eapply quiet_trans; eassumption].
  - exists st1. split; [reflexivity | exact H1].
Qed.

(** The end of the [try] block of the two uploads. *)
Lemma put_then_report Bucket Key body ContentType flag action msg title final st :
  s3_fault (PutObjectCommand Bucket Key body ContentType) = None →
  ∃ st',
    try_catch
      (s3_putObject Bucket Key body ContentType ;;;
       writeLog flag action msg false ;;; ret tt)
      (λ err,
         add_error title ;;;
         writeLog "system_error" action (message err) true ;;;
         throw (Error final)) st
    = (reported flag action msg final tt, st')
    ∧ this st' = this st
    ∧ s3 st' = <[(Bucket, Key) := body]> (s3 st)
    ∧ sends (journal st') = sends (journal st)
    ∧ jobs (journal st') = jobs (journal st).
Proof.
  intros Hfault.
  unfold try_catch, bind at 1. unfold s3_putObject at 1. rewrite Hfault.
  cbv beta iota.
  match goal with
  | |- context [(writeLog flag action msg false ;;; ret tt) ?s] =>
      destruct (report_run flag action msg title final tt s)
        as (st1 & Hrun & [Ht1 Hs1] & Hsends & Hjobs)
  end.
  unfold try_catch in Hrun.
  exists st1. split; [exact Hrun | ].
  simpl in *. repeat split; assumption.
Qed.

Lemma NoSuchKey_is_missing : isMissingFile NoSuchKey = true.
Proof. reflexivity. Qed.


(** C7. Any fault while loading that the handler does not take for a
    missing file ([isMissingFile]: the error is not named [NoSuchKey] and
    its message does not say that the key does not exist), whether the fetch
    fails or the text fetched is not JSON, makes the method throw, and
    leaves the in-memory store (indeed the whole manager, and the bucket) as
    it was before the call.  What it throws is the error of its handler:
    [Failed to load dictionary:] followed by the message of the fault, or
    what the logger threw for the record of the fault. *)
Theorem C7_load_fault_keeps_store st err :
  isMissingFile err = false →
  (s3_fault (GetObjectCommand (bucket (this st)) (jsonKey (this st))) = Some err
   ∨ (s3_fault (GetObjectCommand (bucket (this st)) (jsonKey (this st))) = None
      ∧ ∃ text, s3 st !! (bucket (this st), jsonKey (this st)) = Some text
                ∧ JSON_parse text = Throw err)) →
  ∃ st',
    loadCustomDictionaryJson st
    = (Throw (handler_error "loadCustomDictionaryJson" (message err)
                ("Failed to load dictionary: " +:+ message err)), st')
    ∧ (logger_serves →
       handler_error "loadCustomDictionaryJson" (message err)
         ("Failed to load dictionary: " +:+ message err)
       = Error ("Failed to load dictionary: " +:+ message err))
    ∧ entries_of st' = entries_of st
    ∧ same_store st st'.
Proof.
  intros Hnot Hcause.
  assert (∃ st0,
            try_catch (throw err)
              (λ err0,
                 if isMissingFile err0
                 then
                   writeLog "dictionary_missing" "loadCustomDictionaryJson"
                     ("No dictionary file found at " +:+ quoted (jsonKey (this st)))
                     false ;;;
                   set_entries (VArr []) ;;;
                   ret (VArr [])
                 else
                   add_error "Failed to load dictionary JSON" ;;;
                   writeLog "system_error" "loadCustomDictionaryJson"
                     (message err0) true ;;;
                   throw (Error ("Failed to load dictionary: " +:+ message err0))) st
            = (Throw (handler_error "loadCustomDictionaryJson" (message err)
                        ("Failed to load dictionary: " +:+ message err)), st0)
            ∧ same_store st st0) as (st0 & Hrun & Hsame).
  { unfold try_catch. unfold throw at 1. cbv beta iota. rewrite Hnot.
    run_handler st1 H1.
    exists st1. split; [reflexivity | exact (proj1 H1)]. }
  exists st0. split; [ | split; [ | split; [ | exact Hsame] ] ].
  - rewrite <- Hrun.
    unfold loadCustomDictionaryJson, bind at 1. unfold get_this at 1.
    unfold try_catch, throw, bind at 1. unfold s3_getObject at 1.
    destruct Hcause as [Hf | (Hf & text & Hobj & Hparse)].
    + rewrite Hf. reflexivity.
    + rewrite Hf, Hobj. unfold bind at 1. unfold lift at 1. rewrite Hparse.
      reflexivity.
  - apply handler_error_serves.
  - unfold entries_of. destruct Hsame as [-> _]. reflexivity.
Qed.

Lemma save_run st (Bucket Key : string) (entries : jsval) :
  s3_fault (PutObjectCommand Bucket Key (JSON_stringify entries) "application/json")
  = None →
  ∃ st',
    saveCustomDictionaryJson Bucket Key entries st = (saved_reply, st')
    ∧ this st' = this st
    ∧ s3 st' = <[(Bucket, Key) := JSON_stringify entries]> (s3 st).
Proof.
  intros Hfault.
  destruct (put_then_report Bucket Key (JSON_stringify entries) "application/json"
              "dictionary_saved" "saveCustomDictionaryJson"
              "Custom dictionary saved to S3 successfully"
              "Failed to save dictionary to S3"
              "Could not save custom dictionary to S3" st Hfault)
    as (st1 & Hrun & Ht1 & Hs1 & _).
  exists st1. split; [exact Hrun | ]. split; assumption.
Qed.

Lemma load_run st text entries :
  s3_fault (GetObjectCommand (bucket (this st)) (jsonKey (this st))) = None →
  s3 st !! (bucket (this st), jsonKey (this st)) = Some text →
  JSON_parse text = Ok entries →
  ∃ st',
    loadCustomDictionaryJson st = (Ok entries, st')
    ∧ this st' = with_entries (this st) entries
    ∧ s3 st' = s3 st.
Proof.
  intros Hfault Hobj Hparse.
  unfold loadCustomDictionaryJson, bind at 1. unfold get_this at 1.
  unfold try_catch, bind at 1. unfold s3_getObject at 1.
  rewrite Hfault, Hobj.
  unfold bind at 1. unfold lift at 1. rewrite Hparse.
  unfold bind, set_entries, ret. simpl.
  eexists. split; [reflexivity | split; reflexivity].
Qed.

(** C5. Round trip through the bucket.  When the bucket serves its commands
    and the JSON text of the in-memory list reads back as that list, [save]
    (with the manager's own bucket, key and list as validated arguments)
    stores that text, does not touch the manager, and succeeds (always, when
    the logger takes its records; it throws only if the logger throws for
    the record of the success, the text being stored by then); and a later
    [load], whatever the memory holds by then, returns the very list that
    was saved and makes it the in-memory store again: same entries, same
    order.  The list is arbitrary; the empty one is an instance. *)
Theorem C5_save_load_roundtrip st other :
  (∀ c, s3_fault c = None) →
  JSON_parse (JSON_stringify (entries_of st)) = Ok (entries_of st) →
  ∃ st1 st2,
    saveCustomDictionaryJson (bucket (this st)) (jsonKey (this st)) (entries_of st) st
    = (saved_reply, st1)
    ∧ (logger_serves → saved_reply = Ok tt)
    ∧ this st1 = this st
    ∧ loadCustomDictionaryJson (with_store st1 other) = (Ok (entries_of st), st2)
    ∧ entries_of st2 = entries_of st.
Proof.
  intros Hfault Hjson.
  destruct (save_run st (bucket (this st)) (jsonKey (this st)) (entries_of st)
              (Hfault _)) as (st1 & Hsave & Ht1 & Hs1).
  assert (Hkey : s3 (with_store st1 other)
                   !! (bucket (this (with_store st1 other)),
                       jsonKey (this (with_store st1 other)))
                 = Some (JSON_stringify (entries_of st))).
  { simpl. rewrite Ht1, Hs1. apply lookup_insert_eq. }
  destruct (load_run (with_store st1 other) _ _ (Hfault _) Hkey Hjson)
    as (st2 & Hload & Ht2 & _).
  exists st1, st2.
  split; [exact Hsave | ].
  split; [apply reported_serves | ].
  split; [exact Ht1 | ]. split; [exact Hload | ].
  unfold entries_of at 1. rewrite Ht2. reflexivity.
Qed.

(** *** The uniqueness invariant of the dictionary *)

Lemma entry_key_inv e k :
  entry_key e = Some k →
  ∃ o s l, e = VObj o ∧ o !! "source" = Some (VStr s) ∧ o !! "language" = Some (VStr l)
           ∧ k = (JsString.toLowerCase s, JsString.toLowerCase l).
Proof.
  destruct e as [ | | b | n | s | l | o]; simpl; try discriminate.
  destruct (o !! "source") as [[ | | b | n | s | l | o'] | ] eqn:Es; try discriminate.
  destruct (o !! "language") as [[ | | b | n | s' | l | o'] | ] eqn:El; try discriminate.
  intros [= <-]. exists o, s, s'. repeat split; assumption.
Qed.

Lemma same_key_well_formed source targetLang e :
  is_Some (entry_key e) →
  same_key source targetLang e = Ok (has_key (call_key source targetLang) e).
Proof.
  intros [k Hk]. unfold has_key. rewrite Hk.
  destruct (entry_key_inv e k Hk) as (o & s & l & -> & Hs & Hl & ->).
  unfold same_key, lower_field, get_prop, opt_get, call_key. rewrite Hs. simpl.
  destruct (String.eqb_spec (JsString.toLowerCase s) (JsString.toLowerCase source))
    as [E1 | N1].
  - rewrite Hl. simpl.
    destruct (String.eqb_spec (JsString.toLowerCase l) (JsString.toLowerCase targetLang))
      as [E2 | N2].
    + rewrite E1, E2. rewrite bool_decide_eq_true_2; reflexivity.
    + rewrite bool_decide_eq_false_2; [reflexivity | ]. intros [= _ H]. contradiction.
  - rewrite bool_decide_eq_false_2; [reflexivity | ]. intros [= H _]. contradiction.
Qed.

Lemma count_key_app k a b :
  count_key k (a ++ b)%list = (count_key k a + count_key k b)%nat.
Proof. unfold count_key. rewrite List.filter_app, length_app. reflexivity. Qed.

Lemma count_key_cons k e l :
  count_key k (e :: l) = ((if has_key k e then 1 else 0) + count_key k l)%nat.
Proof. unfold count_key. simpl. destruct (has_key k e); reflexivity. Qed.

Lemma count_key_zero k l e :
  count_key k l = 0%nat → e ∈ l → has_key k e = false.
Proof.
  induction l as [ | x l IH]; intros Hc Hin.
  - inversion Hin.
  - rewrite count_key_cons in Hc.
    apply elem_of_cons in Hin. destruct Hin as [-> | Hin].
    + destruct (has_key k x); [discriminate | reflexivity].
    + apply IH; [ | exact Hin]. destruct (has_key k x); [discriminate | exact Hc].
Qed.

(** [findIndex] on a well-formed list: either no entry has the key, or the
    list splits at the first entry that has it. *)
Lemma find_index_well_formed source targetLang l :
  ∀ i,
    well_formed l →
    (find_index (same_key source targetLang) l i = Ok None
     ∧ count_key (call_key source targetLang) l = 0%nat)
    ∨ (∃ a o b,
         l = (a ++ VObj o :: b)%list
         ∧ count_key (call_key source targetLang) a = 0%nat
         ∧ has_key (call_key source targetLang) (VObj o) = true
         ∧ find_index (same_key source targetLang) l i
           = Ok (Some (i + List.length a)%nat)).
Proof.
  induction l as [ | e l IH]; intros i Hwf.
  - left. split; reflexivity.
  - apply Forall_cons in Hwf. destruct Hwf as [He Hwf].
    simpl. rewrite (same_key_well_formed _ _ _ He). simpl.
    destruct (has_key (call_key source targetLang) e) eqn:Hk.
    + right. destruct He as [k Hkey].
      destruct (entry_key_inv e k Hkey) as (o & s & l0 & -> & _).
      exists [], o, l. simpl. rewrite Nat.add_0_r.
      repeat split; [exact Hk].
    + destruct (IH (S i) Hwf) as [[Hf Hc] | (a & o & b & -> & Hc & Ho & Hf)].
      * left. split; [exact Hf | ]. rewrite count_key_cons, Hk. exact Hc.
      * right. exists (e :: a), o, b. simpl.
        split; [reflexivity | ].
        split; [rewrite count_key_cons, Hk; exact Hc | ].
        split; [exact Ho | ].
        rewrite Hf. f_equal. f_equal. lia.
Qed.

Lemma lookup_middle_entry (a b : list jsval) (x : jsval) :
  (a ++ x :: b)%list !! List.length a = Some x.
Proof. induction a as [ | y a IH]; simpl; [reflexivity | exact IH]. Qed.

Lemma insert_middle_entry (a b : list jsval) (x y : jsval) :
  <[List.length a := y]> (a ++ x :: b)%list = (a ++ y :: b)%list.
Proof. induction a as [ | z a IH]; simpl; [reflexivity | f_equal; exact IH]. Qed.

Lemma entry_key_new_entry source targetLang translation :
  entry_key (new_entry source targetLang translation)
  = Some (call_key source targetLang).
Proof. reflexivity. Qed.

Lemma entry_key_assign o translation :
  entry_key (VObj (<["translation" := VStr translation]> o)) = entry_key (VObj o).
Proof.
  simpl. rewrite !lookup_insert_ne by discriminate. reflexivity.
Qed.

Lemma has_key_assign k o translation :
  has_key k (VObj (<["translation" := VStr translation]> o)) = has_key k (VObj o).
Proof. unfold has_key. rewrite entry_key_assign. reflexivity. Qed.

(** The end of the [try] block of a dictionary method, from the assignment
    to the store on: the store is assigned whatever the logger does next. *)
Lemma store_then_report {A : Type} entries flag action msg title final (a : A) st :
  ∃ st',
    try_catch
      (set_entries entries ;;; writeLog flag action msg false ;;; ret a)
      (λ err,
         add_error title ;;;
         writeLog "system_error" action (message err) true ;;;
         throw (Error final)) st
    = (reported flag action msg final a, st')
    ∧ this st' = with_entries (this st) entries
    ∧ s3 st' = s3 st
    ∧ sends (journal st') = sends (journal st)
    ∧ jobs (journal st') = jobs (journal st).
Proof.
  unfold try_catch, bind at 1. unfold set_entries at 1.
  cbv beta iota.
  match goal with
  | |- context [(writeLog flag action msg false ;;; ret a) ?s] =>
      destruct (report_run flag action msg title final a s)
        as (st1 & Hrun & [Ht1 Hs1] & Hsends & Hjobs)
  end.
  unfold try_catch in Hrun.
  exists st1. split; [exact Hrun | ].
  simpl in *. repeat split; assumption.
Qed.

(** One call on a well-formed store: it touches neither the bucket nor the
    configuration, and either appends (no entry had the key) or overwrites
    the translation of the first entry that has the key; it answers
    accordingly, unless the logger throws for the record of the change. *)
Lemma addOrUpdate_step st l source targetLang translation :
  entries_of st = VArr l →
  well_formed l →
  ∃ st' l' reply,
    addOrUpdateDictionaryEntry source targetLang translation st = (reply, st')
    ∧ this st' = with_entries (this st) (VArr l')
    ∧ s3 st' = s3 st
    ∧ ((reply = added_reply source targetLang
        ∧ appended source targetLang translation l l')
       ∨ (reply = updated_reply source targetLang
          ∧ overwritten source targetLang translation l l')).
Proof.
  intros Hst Hwf. unfold entries_of in Hst.
  unfold addOrUpdateDictionaryEntry, try_catch, bind at 1. unfold get_this at 1.
  unfold bind at 1. unfold lift at 1. rewrite Hst. unfold findIndex.
  destruct (find_index_well_formed source targetLang l 0 Hwf)
    as [[Hf Hc] | (a & o & b & Hl & Hc & Ho & Hf)]; rewrite Hf.
  - unfold bind at 1. unfold lift at 1. unfold push.
    cbv beta iota.
    match goal with
    | |- context [(set_entries ?e ;;; writeLog ?f ?a ?m false ;;; ret ?r) ?s] =>
        destruct (store_then_report e f a m "Failed to add/update dictionary entry"
                    "Could not add or update dictionary entry" r s)
          as (st1 & Hrun & Ht1 & Hs1 & _)
    end.
    unfold try_catch in Hrun.
    exists st1, (l ++ [new_entry source targetLang translation])%list,
      (added_reply source targetLang).
    split; [exact Hrun | ]. split; [exact Ht1 | ]. split; [exact Hs1 | ].
    left. split; [reflexivity | ]. split; [exact Hc | reflexivity].
  - unfold bind at 1. unfold lift at 1. unfold assign_translation.
    simpl. rewrite Hl, lookup_middle_entry, insert_middle_entry.
    cbv beta iota.
    match goal with
    | |- context [(set_entries ?e ;;; writeLog ?f ?a ?m false ;;; ret ?r) ?s] =>
        destruct (store_then_report e f a m "Failed to add/update dictionary entry"
                    "Could not add or update dictionary entry" r s)
          as (st1 & Hrun & Ht1 & Hs1 & _)
    end.
    unfold try_catch in Hrun.
    exists st1, (a ++ VObj (<["translation" := VStr translation]> o) :: b)%list,
      (updated_reply source targetLang).
    split; [exact Hrun | ]. split; [exact Ht1 | ]. split; [exact Hs1 | ].
    right. split; [reflexivity | ]. exists a, o, b. repeat split; assumption.
Qed.

Lemma appended_well_formed source targetLang translation l l' :
  appended source targetLang translation l l' → well_formed l → well_formed l'.
Proof.
  intros [_ ->] Hwf. apply Forall_app. split; [exact Hwf | ].
  apply Forall_cons. split; [ | constructor].
  rewrite entry_key_new_entry. eexists. reflexivity.
Qed.

Lemma overwritten_well_formed source targetLang translation l l' :
  overwritten source targetLang translation l l' → well_formed l → well_formed l'.
Proof.
  intros (a & o & b & -> & _ & _ & ->) Hwf.
  apply Forall_app in Hwf. destruct Hwf as [Ha Hob].
  apply Forall_cons in Hob. destruct Hob as [Ho Hb].
  apply Forall_app. split; [exact Ha | ].
  apply Forall_cons. split; [ | exact Hb].
  rewrite entry_key_assign. exact Ho.
Qed.

Lemma appended_count source targetLang translation l l' k :
  appended source targetLang translation l l' →
  count_key k l'
  = (count_key k l + if bool_decide (k = call_key source targetLang) then 1 else 0)%nat.
Proof.
  intros [_ ->]. rewrite count_key_app, count_key_cons.
  unfold has_key. rewrite entry_key_new_entry.
  change (count_key k []) with 0%nat. rewrite Nat.add_0_r. f_equal.
  destruct (decide (k = call_key source targetLang)) as [-> | Hne].
  - rewrite !bool_decide_eq_true_2; reflexivity.
  - rewrite !bool_decide_eq_false_2; [reflexivity | exact Hne | ].
    intros [= H]. apply Hne. symmetry. exact H.
Qed.

Lemma overwritten_count source targetLang translation l l' k :
  overwritten source targetLang translation l l' → count_key k l' = count_key k l.
Proof.
  intros (a & o & b & -> & _ & _ & ->).
  rewrite !count_key_app, !count_key_cons, has_key_assign. reflexivity.
Qed.

Lemma appended_unique source targetLang translation l l' :
  appended source targetLang translation l l' → unique_keys l → unique_keys l'.
Proof.
  intros Happ Hu k. rewrite (appended_count _ _ _ _ _ k Happ).
  destruct Happ as [Hc _].
  destruct (decide (k = call_key source targetLang)) as [-> | Hne].
  - rewrite Hc, bool_decide_eq_true_2; [lia | reflexivity].
  - rewrite bool_decide_eq_false_2 by exact Hne. specialize (Hu k). lia.
Qed.

Lemma overwritten_unique source targetLang translation l l' :
  overwritten source targetLang translation l l' → unique_keys l → unique_keys l'.
Proof.
  intros Hov Hu k. rewrite (overwritten_count _ _ _ _ _ k Hov). apply Hu.
Qed.

Lemma new_entry_translation source targetLang translation :
  opt_get (new_entry source targetLang translation) "translation" = VStr translation.
Proof. reflexivity. Qed.

Lemma appended_holds source targetLang translation l l' :
  appended source targetLang translation l l' →
  count_key (call_key source targetLang) l' = 1%nat
  ∧ ∀ e, e ∈ l' → has_key (call_key source targetLang) e = true →
         opt_get e "translation" = VStr translation.
Proof.
  intros Happ. split.
  - rewrite (appended_count _ _ _ _ _ _ Happ).
    destruct Happ as [-> _]. rewrite bool_decide_eq_true_2; reflexivity.
  - destruct Happ as [Hc ->]. intros e Hin Hk.
    apply elem_of_app in Hin. destruct Hin as [Hin | Hin].
    + rewrite (count_key_zero _ _ _ Hc Hin) in Hk. discriminate.
    + apply list_elem_of_singleton in Hin. subst e. apply new_entry_translation.
Qed.

Lemma overwritten_holds source targetLang translation l l' :
  overwritten source targetLang translation l l' →
  unique_keys l →
  count_key (call_key source targetLang) l' = 1%nat
  ∧ ∀ e, e ∈ l' → has_key (call_key source targetLang) e = true →
         opt_get e "translation" = VStr translation.
Proof.
  intros Hov Hu.
  pose proof (overwritten_count _ _ _ _ _ (call_key source targetLang) Hov) as Hcount.
  destruct Hov as (a & o & b & -> & Ha & Ho & ->).
  pose proof (Hu (call_key source targetLang)) as H1.
  rewrite count_key_app, count_key_cons, Ha, Ho in H1.
  assert (Hb : count_key (call_key source targetLang) b = 0%nat) by lia.
  split.
  - rewrite Hcount, count_key_app, count_key_cons, Ha, Ho, Hb. reflexivity.
  - intros e Hin Hk.
    apply elem_of_app in Hin. destruct Hin as [Hin | Hin].
    + rewrite (count_key_zero _ _ _ Ha Hin) in Hk. discriminate.
    + apply elem_of_cons in Hin. destruct Hin as [-> | Hin].
      * simpl. rewrite lookup_insert_eq. reflexivity.
      * rewrite (count_key_zero _ _ _ Hb Hin) in Hk. discriminate.
Qed.

(** C4. Uniqueness of the identity key under [addOrUpdateDictionaryEntry].
    On a store of well-formed entries (objects with a string [source] and
    a string [language]) that has at most one entry per identity key (source
    and language, compared in lower case): a call appends the new entry when
    no entry has the key and overwrites the translation of the entry that
    has it otherwise, and keeps the store well formed and the invariant
    true; a second call on the same key is an update, after which the store
    has exactly one entry with the key, and that entry holds the
    translation of the second call.  Each call returns its answer when the
    logger takes its records (it throws only if the logger throws for the
    record of the change, and the store is changed all the same). *)
Theorem C4_add_or_update_keeps_keys_unique st l source targetLang t1 t2 :
  entries_of st = VArr l →
  well_formed l →
  unique_keys l →
  ∃ st1 st2 l1 l2 r1,
    addOrUpdateDictionaryEntry source targetLang t1 st = (r1, st1)
    ∧ entries_of st1 = VArr l1
    ∧ ((r1 = added_reply source targetLang ∧ appended source targetLang t1 l l1)
       ∨ (r1 = updated_reply source targetLang ∧ overwritten source targetLang t1 l l1))
    ∧ (logger_serves →
       added_reply source targetLang = Ok (AddedEntry source targetLang)
       ∧ updated_reply source targetLang = Ok (UpdatedEntry source targetLang))
    ∧ well_formed l1 ∧ unique_keys l1
    ∧ addOrUpdateDictionaryEntry source targetLang t2 st1
      = (updated_reply source targetLang, st2)
    ∧ entries_of st2 = VArr l2
    ∧ overwritten source targetLang t2 l1 l2
    ∧ well_formed l2 ∧ unique_keys l2
    ∧ count_key (call_key source targetLang) l2 = 1%nat
    ∧ (∀ e, e ∈ l2 → has_key (call_key source targetLang) e = true →
            opt_get e "translation" = VStr t2).
Proof.
  intros Hst Hwf Hu.
  destruct (addOrUpdate_step st l source targetLang t1 Hst Hwf)
    as (st1 & l1 & r1 & Hrun1 & Ht1 & _ & Hcase1).
  assert (Hst1 : entries_of st1 = VArr l1) by (unfold entries_of; rewrite Ht1; reflexivity).
  assert (Hwf1 : well_formed l1).
  { destruct Hcase1 as [[_ H] | [_ H]];
      [eapply appended_well_formed | eapply overwritten_well_formed]; eassumption. }
  assert (Hu1 : unique_keys l1).
  { destruct Hcase1 as [[_ H] | [_ H]];
      [eapply appended_unique | eapply overwritten_unique]; eassumption. }
  assert (Hc1 : count_key (call_key source targetLang) l1 = 1%nat).
  { destruct Hcase1 as [[_ H] | [_ H]];
      [apply (appended_holds _ _ _ _ _ H) | apply (overwritten_holds _ _ _ _ _ H Hu)]. }
  destruct (addOrUpdate_step st1 l1 source targetLang t2 Hst1 Hwf1)
    as (st2 & l2 & r2 & Hrun2 & Ht2 & _ & Hcase2).
  assert (Hst2 : entries_of st2 = VArr l2) by (unfold entries_of; rewrite Ht2; reflexivity).
  destruct Hcase2 as [[_ [Hz _]] | [-> Hov]]; [rewrite Hc1 in Hz; discriminate | ].
  exists st1, st2, l1, l2, r1.
  split; [exact Hrun1 | ]. split; [exact Hst1 | ]. split; [exact Hcase1 | ].
  split.
  { intros Hlog. split; apply reported_serves; exact Hlog. }
  split; [exact Hwf1 | ]. split; [exact Hu1 | ].
  split; [exact Hrun2 | ]. split; [exact Hst2 | ]. split; [exact Hov | ].
  split; [eapply overwritten_well_formed; eassumption | ].
  split; [eapply overwritten_unique; eassumption | ].
  exact (overwritten_holds _ _ _ _ _ Hov Hu1).
Qed.

(** *** The CSV export *)

Lemma filter_entries_language code l :
  Forall has_language l →
  filter_entries
    (λ e, obind (lower_field e "language") (λ lang, Ok (lang =? code)%string)) l
  = Ok (List.filter (language_matches code) l).
Proof.
  induction l as [ | e l IH]; intros Hl.
  - reflexivity.
  - apply Forall_cons in Hl. destruct Hl as [(o & s & -> & Ho) Hl].
    simpl. unfold lower_field at 1. unfold get_prop, opt_get. rewrite Ho. simpl.
    rewrite (IH Hl). simpl.
    destruct (JsString.toLowerCase s =? code)%string; reflexivity.
Qed.

Lemma csv_rows_selected code l :
  Forall has_language l →
  csv_rows (VArr l) "en" code
  = Ok (map (csv_row "en" code) (List.filter (language_matches code) l)).
Proof.
  intros Hl. unfold csv_rows. rewrite (filter_entries_language code l Hl). reflexivity.
Qed.

(** The export of a list of entries that each have a string [language]:
    the rows handed to [json2csv] are, in list order, one per entry whose
    language in lower case equals the target tag in lower case and trimmed,
    and of no other entry; the row of an entry holds its translation under
    the target column and, when the target column is not [en], its source
    under the column [en]; the text that [json2csv] makes of these rows with
    the fields [en] and the target column is what is stored under the CSV
    key.  For the entries (hello, fr, bonjour) and (x, de, y) and the tag
    [fr] there is exactly one row, (hello, bonjour). *)
Theorem csv_export_rows st l targetLang Bucket Key csv :
  Forall has_language l →
  json2csv_parse
    (map (csv_row "en" (normalize_tag targetLang))
       (List.filter (language_matches (normalize_tag targetLang)) l))
    ["en"; normalize_tag targetLang] = Ok csv →
  s3_fault (PutObjectCommand Bucket Key csv "text/csv") = None →
  csv_rows (VArr l) "en" (normalize_tag targetLang)
  = Ok (map (csv_row "en" (normalize_tag targetLang))
          (List.filter (language_matches (normalize_tag targetLang)) l))
  ∧ (∀ e, e ∈ List.filter (language_matches (normalize_tag targetLang)) l
          ↔ e ∈ l ∧ language_matches (normalize_tag targetLang) e = true)
  ∧ (∀ e, csv_row "en" (normalize_tag targetLang) e !! normalize_tag targetLang
          = Some (opt_get e "translation"))
  ∧ (∀ e, normalize_tag targetLang ≠ "en" →
          csv_row "en" (normalize_tag targetLang) e !! "en"
          = Some (opt_get e "source"))
  ∧ (∃ st',
       convertJsonToAwsCsvAndUpload Bucket Key targetLang (VArr l) st
       = (exported_reply, st')
       ∧ (logger_serves → exported_reply = Ok tt)
       ∧ this st' = this st
       ∧ s3 st' = <[(Bucket, Key) := csv]> (s3 st))
  ∧ csv_rows (VArr [new_entry "hello" "fr" "bonjour"; new_entry "x" "de" "y"])
      "en" (normalize_tag "fr")
    = Ok [ {[ "en" := VStr "hello"; "fr" := VStr "bonjour" ]} ].
Proof.
  intros Hl Hcsv Hfault.
  split; [apply csv_rows_selected; exact Hl | ].
  split.
  { intros e. rewrite !list_elem_of_In. apply List.filter_In. }
  split.
  { intros e. unfold csv_row. apply lookup_insert_eq. }
  split.
  { intros e Hne. unfold csv_row. rewrite lookup_insert_ne by exact Hne.
    apply lookup_insert_eq. }
  split; [ | reflexivity].
  unfold convertJsonToAwsCsvAndUpload, bind at 1. unfold lift at 1.
  fold (normalize_tag targetLang).
  rewrite (csv_rows_selected _ l Hl).
  unfold try_catch, bind at 1. unfold lift at 1. rewrite Hcsv.
  destruct (put_then_report Bucket Key csv "text/csv" "csv_uploaded"
              "convertJsonToAwsCsvAndUpload" "CSV file uploaded to S3"
              "Failed to convert and upload CSV"
              "Could not convert JSON to CSV and upload" st Hfault)
    as (st1 & Hrun & Ht1 & Hs1 & _).
  unfold try_catch in Hrun.
  exists st1. split; [exact Hrun | ].
  split; [apply reported_serves | ]. split; assumption.
Qed.

(** *** Further properties *)

(** Saving never changes the manager, whether the upload succeeds or the
    storage service refuses it, and whatever the logger does. *)
Theorem save_keeps_manager Bucket Key entries st :
  this (snd (saveCustomDictionaryJson Bucket Key entries st)) = this st.
Proof.
  unfold saveCustomDictionaryJson, try_catch, bind at 1.
  unfold s3_putObject at 1.
  destruct (s3_fault (PutObjectCommand Bucket Key (JSON_stringify entries)
                        "application/json")) as [err | ].
  - run_handler st1 H1. destruct H1 as ([Ht1 _] & _). exact Ht1.
  - unfold bind at 1.
    run_log writeLog_run st1 H1 E.
    + run_handler st2 H2. destruct H1 as ([Ht1 _] & _). destruct H2 as ([Ht2 _] & _).
      simpl in *. congruence.
    + destruct H1 as ([Ht1 _] & _). simpl in *. exact Ht1.
Qed.

(** A text of two lines with a blank line between them, which is not JSON,
    gives exactly the two units [a] and [b]. *)
Theorem parse_items_newline_text st err :
  JSON_parse Demo.two_lines = Throw err →
  ∃ st',
    parse_items Demo.two_lines st = (Ok [VStr "a"; VStr "b"], st')
    ∧ same_store st st'.
Proof.
  intros Hparse.
  destruct (parse_items_units Demo.two_lines st) as (st' & Hrun & Hsame).
  exists st'. split; [ | exact Hsame].
  rewrite Hrun. unfold parsed_units. rewrite Hparse. reflexivity.
Qed.

(** *** translateText *)


Lemma translateText_run st text targetLang translated :
  translate_send (text_command (this st) text targetLang) = Ok translated →
  ∃ st',
    translateText text targetLang st = (Ok translated, st')
    ∧ same_store st st'
    ∧ sends (journal st')
      = (sends (journal st) ++ [text_command (this st) text targetLang])%list.
Proof.
  intros Hsend.
  unfold translateText, bind at 1. unfold get_this at 1.
  fold (text_command (this st) text targetLang).
  unfold try_catch, translate_text_send, bind at 1. unfold emit at 1. unfold lift.
  rewrite Hsend.
  eexists. split; [reflexivity | ]. simpl.
  split; [split; reflexivity | ].
  rewrite sends_app. reflexivity.
Qed.

Lemma or_default_truthy o d : truthy_str d = true → truthy_str (or_default o d) = true.
Proof.
  intros Hd. unfold or_default. destruct o as [s | ]; [ | exact Hd].
  destruct (truthy_str s) eqn:E; [exact E | exact Hd].
Qed.

(** A manager made by the constructor always has a terminology name, so
    that every request of [translateText] and every batch job names one:
    leaving [customDictionaryName] out of the configuration, or giving the
    empty string, selects [my-translate-overrides] and does not switch the
    terminology off.  Bucket, region, CSV key and default language are
    non-empty in the same way, and the dictionary starts empty. *)
Theorem constructor_always_names_terminology config :
  terminology_of (constructor config) = Some [customDictionaryName (constructor config)]
  ∧ truthy_str (customDictionaryName (constructor config)) = true
  ∧ (truthy_opt (cfg_customDictionaryName config) = false →
     customDictionaryName (constructor config) = "my-translate-overrides")
  ∧ (∀ name, cfg_customDictionaryName config = Some name → truthy_str name = true →
     customDictionaryName (constructor config) = name)
  ∧ truthy_str (bucket (constructor config)) = true
  ∧ truthy_str (region (constructor config)) = true
  ∧ truthy_str (csvKey (constructor config)) = true
  ∧ truthy_str (defaultTargetLanguage (constructor config)) = true
  ∧ _dictionaryEntries (constructor config) = VArr []
  ∧ ∀ text targetLang,
      TerminologyNames (text_command (constructor config) text targetLang)
      = Some [customDictionaryName (constructor config)].
Proof.
  assert (Hname : truthy_str (customDictionaryName (constructor config)) = true)
    by (apply or_default_truthy; reflexivity).
  assert (Hterm : terminology_of (constructor config)
                  = Some [customDictionaryName (constructor config)])
    by (unfold terminology_of; rewrite Hname; reflexivity).
  split; [exact Hterm | ]. split; [exact Hname | ].
  split.
  { simpl. unfold or_default, truthy_opt.
    destruct (cfg_customDictionaryName config) as [s | ]; [ | reflexivity].
    intros ->. reflexivity. }
  split.
  { intros name Hcfg Ht. simpl. rewrite Hcfg. unfold or_default. rewrite Ht.
    reflexivity. }
  repeat (split; [apply or_default_truthy; reflexivity | ]).
  split; [reflexivity | ].
  intros text targetLang. exact Hterm.
Qed.

(** *** startBulkTranslation *)

Lemma records_hold langs texts :
  Forall2 (holds_results langs) texts (map (record_for langs) texts).
Proof.
  induction texts as [ | text rest IH]; [constructor | ].
  cbn [map]. constructor; [apply record_for_fields | exact IH].
Qed.

Lemma manual_requests_run (Hlog : logger_serves) st inputS3Uri outputS3Uri langs rawText :
  truthy_opt (iamRoleArn (this st)) = false →
  s3_fault (GetObjectCommand (bucket (this st)) (s3_key (this st) inputS3Uri)) = None →
  s3 st !! (bucket (this st), s3_key (this st) inputS3Uri) = Some rawText →
  ∃ r st',
    startBulkTranslation inputS3Uri outputS3Uri langs st = (r, st')
    ∧ this st' = this st
    ∧ sends (journal st')
      = (sends (journal st)
         ++ spec_requests (spec_retained (parsed_units rawText)) langs)%list
    ∧ jobs (journal st') = jobs (journal st)
    ∧ match s3_fault
              (PutObjectCommand (bucket (this st)) (s3_key (this st) outputS3Uri)
                 (JSON_stringify
                    (VArr (map (record_for langs) (spec_retained (parsed_units rawText)))))
                 "application/json") with
      | None =>
          r = Ok "manual-job-done"
          ∧ s3 st'
            = <[(bucket (this st), s3_key (this st) outputS3Uri)
                := JSON_stringify
                     (VArr (map (record_for langs)
                              (spec_retained (parsed_units rawText))))]> (s3 st)
      | Some err =>
          r = Throw (Error ("Manual translation failed: " +:+ message err))
          ∧ s3 st' = s3 st
      end.
Proof.
  intros Hrole Hfault Hin.
  unfold startBulkTranslation, bind at 1. unfold get_this at 1.
  rewrite Hrole. cbn [negb].
  unfold bind at 1.
  destruct (writeLog_quiet Hlog "manual_fallback" "startBulkTranslation"
              "IAM Role not provided, running manual translation" false st)
    as (st1 & -> & H1).
  pose proof H1 as ([Ht1 Hs1] & _).
  unfold try_catch, bind at 1.
  unfold s3_getObject at 1. rewrite Hfault, Hs1, Hin.
  unfold bind at 1.
  destruct (parse_items_quiet rawText st1) as (st2 & -> & H2).
  unfold bind at 1.
  destruct (translate_items_sent Hlog (parsed_units rawText) langs [] st2)
    as (st3 & -> & H3).
  simpl app.
  pose proof (quiet_then_sent _ _ _ _ (quiet_trans _ _ _ H1 H2) H3)
    as ([Ht3 Hs3] & Hsends & Hjobs).
  rewrite retained_texts_spec in *. rewrite manual_requests_spec in Hsends.
  unfold bind at 1. unfold s3_putObject at 1.
  destruct (s3_fault (PutObjectCommand _ _ _ _)) as [err | ] eqn:Hput.
  - run_handler st4 H4.
    destruct H4 as ([Ht4 Hs4] & Hsends4 & Hjobs4).
    exists (Throw (Error ("Manual translation failed: " +:+ message err))), st4.
    split; [rewrite (handler_error_serves _ _ _ Hlog); reflexivity | ].
    split; [congruence | ].
    split; [congruence | ].
    split; [congruence | ].
    split; [reflexivity | congruence].
  - unfold ret. eexists _, _. split; [reflexivity | ]. simpl.
    split; [exact Ht3 | ].
    split; [exact Hsends | ].
    split; [exact Hjobs | ].
    split; [reflexivity | rewrite Hs3; reflexivity].
Qed.



Lemma bulk_missing_input_run st inputS3Uri outputS3Uri langs :
  truthy_opt (iamRoleArn (this st)) = false →
  s3_fault (GetObjectCommand (bucket (this st)) (s3_key (this st) inputS3Uri)) = None →
  s3 st !! (bucket (this st), s3_key (this st) inputS3Uri) = None →
  ∃ thrown st',
    startBulkTranslation inputS3Uri outputS3Uri langs st = (Throw thrown, st')
    ∧ quiet st st'
    ∧ (logger_serves →
       thrown = Error ("Manual translation failed: " +:+ message NoSuchKey)).
Proof.
  intros Hrole Hfault Hmiss.
  unfold startBulkTranslation, bind at 1. unfold get_this at 1.
  rewrite Hrole. cbn [negb].
  unfold bind at 1.
  run_log writeLog_run st1 H1 E.
  - eexists _, st1. split; [reflexivity | ]. split; [exact H1 | ].
    intros Hlog. rewrite Hlog in E. discriminate.
  - pose proof H1 as ([Ht1 Hs1] & _).
    unfold try_catch, bind at 1.
    unfold s3_getObject at 1. rewrite Hs1, Hfault, Hmiss.
    run_handler st2 H2.
    eexists _, st2. split; [reflexivity | ].
    split; [eapply quiet_trans; eassumption | apply handler_error_serves].
Qed.


(** *** deleteDictionaryEntry *)

Lemma without_key_well_formed source targetLang l :
  well_formed l →
  without_key source targetLang (VArr l) = Ok (others (call_key source targetLang) l).
Proof.
  unfold without_key, others. induction 1 as [ | e l He Hl IH]; [reflexivity | ].
  simpl. rewrite (same_key_well_formed _ _ _ He). simpl. rewrite IH. simpl.
  destruct (has_key (call_key source targetLang) e); reflexivity.
Qed.

Lemma others_length k l :
  (List.length (others k l) + count_key k l)%nat = List.length l.
Proof.
  unfold others, count_key. induction l as [ | e l IH]; [reflexivity | ].
  simpl. destruct (has_key k e); simpl; lia.
Qed.

Lemma others_absent k l : count_key k l = 0%nat → others k l = l.
Proof.
  unfold others. induction l as [ | e l IH]; intros Hc; [reflexivity | ].
  rewrite count_key_cons in Hc. simpl.
  destruct (has_key k e); [discriminate | ].
  simpl. rewrite IH by exact Hc. reflexivity.
Qed.

Lemma count_key_others k l : count_key k (others k l) = 0%nat.
Proof.
  unfold others. induction l as [ | e l IH]; [reflexivity | ].
  simpl. destruct (has_key k e) eqn:E; simpl; [exact IH | ].
  rewrite count_key_cons, E. exact IH.
Qed.

Lemma count_key_others_ne k k' l :
  k' ≠ k → count_key k' (others k l) = count_key k' l.
Proof.
  intros Hne. unfold others. induction l as [ | e l IH]; [reflexivity | ].
  simpl. destruct (has_key k e) eqn:E; simpl.
  - rewrite count_key_cons, IH.
    assert (has_key k' e = false) as ->; [ | reflexivity].
    unfold has_key in *. apply bool_decide_eq_true_1 in E.
    apply bool_decide_eq_false_2. rewrite E. intros [= H]. apply Hne. symmetry. exact H.
  - rewrite !count_key_cons, IH. reflexivity.
Qed.

Lemma others_sublist k l : others k l `sublist_of` l.
Proof.
  unfold others. induction l as [ | e l IH]; simpl.
  - constructor.
  - destruct (negb (has_key k e)); [apply sublist_skip | apply sublist_cons]; exact IH.
Qed.

Lemma others_well_formed k l : well_formed l → well_formed (others k l).
Proof.
  unfold others. induction 1 as [ | e l He Hl IH]; simpl; [constructor | ].
  destruct (negb (has_key k e)); [constructor; assumption | exact IH].
Qed.

Lemma others_unique k l : unique_keys l → unique_keys (others k l).
Proof.
  intros Hu k'. destruct (decide (k' = k)) as [-> | Hne].
  - rewrite count_key_others. lia.
  - rewrite count_key_others_ne by exact Hne. apply Hu.
Qed.

(** One call of [deleteDictionaryEntry] on a well-formed store. *)
Lemma delete_run st l source targetLang :
  entries_of st = VArr l →
  well_formed l →
  ∃ st',
    deleteDictionaryEntry source targetLang st
    = (if (0 <? count_key (call_key source targetLang) l)%nat
       then deleted_reply source targetLang
       else not_found_reply source targetLang, st')
    ∧ this st' = with_entries (this st) (VArr (others (call_key source targetLang) l))
    ∧ s3 st' = s3 st.
Proof.
  intros Hst Hwf. unfold entries_of in Hst.
  unfold deleteDictionaryEntry, try_catch, bind at 1. unfold get_this at 1.
  unfold bind at 1. unfold lift at 1. rewrite Hst. cbn [as_array].
  unfold bind at 1. unfold lift at 1.
  rewrite (without_key_well_formed _ _ _ Hwf).
  cbv beta iota zeta.
  pose proof (others_length (call_key source targetLang) l) as Hlen.
  destruct (Nat.ltb_spec (List.length (others (call_key source targetLang) l))
              (List.length l)) as [Hlt | Hge].
  - assert ((0 <? count_key (call_key source targetLang) l)%nat = true) as ->
      by (apply Nat.ltb_lt; lia).
    match goal with
    | |- context [(set_entries ?e ;;; writeLog ?f ?a ?m false ;;; ret ?r) ?s] =>
        destruct (store_then_report e f a m "Failed to delete dictionary entry"
                    "Could not delete dictionary entry" r s)
          as (st1 & Hrun & Ht1 & Hs1 & _)
    end.
    unfold try_catch in Hrun.
    exists st1. split; [exact Hrun | ]. split; assumption.
  - assert ((0 <? count_key (call_key source targetLang) l)%nat = false) as ->
      by (apply Nat.ltb_ge; lia).
    match goal with
    | |- context [(set_entries ?e ;;; writeLog ?f ?a ?m false ;;; ret ?r) ?s] =>
        destruct (store_then_report e f a m "Failed to delete dictionary entry"
                    "Could not delete dictionary entry" r s)
          as (st1 & Hrun & Ht1 & Hs1 & _)
    end.
    unfold try_catch in Hrun.
    exists st1. split; [exact Hrun | ]. split; assumption.
Qed.



(** Deleting twice is deleting once: after a first [deleteDictionaryEntry]
    on a well-formed store, a second call for the same key finds no entry
    (it answers [No entry found] whenever the logger takes its record) and
    leaves the store as the first call left it. *)
Theorem delete_twice_is_delete_once st l source targetLang :
  entries_of st = VArr l →
  well_formed l →
  ∃ reply st1 st2,
    deleteDictionaryEntry source targetLang st = (reply, st1)
    ∧ (reply = deleted_reply source targetLang ∨ reply = not_found_reply source targetLang)
    ∧ deleteDictionaryEntry source targetLang st1
      = (not_found_reply source targetLang, st2)
    ∧ (logger_serves →
         deleted_reply source targetLang = Ok (DeletedEntry source targetLang)
         ∧ not_found_reply source targetLang = Ok (NoEntryFound source targetLang))
    ∧ entries_of st2 = entries_of st1
    ∧ s3 st2 = s3 st.
Proof.
  intros Hst Hwf.
  destruct (delete_run st l source targetLang Hst Hwf) as (st1 & Hrun1 & Ht1 & Hs1).
  assert (Hst1 : entries_of st1 = VArr (others (call_key source targetLang) l))
    by (unfold entries_of; rewrite Ht1; reflexivity).
  destruct (delete_run st1 _ source targetLang Hst1 (others_well_formed _ _ Hwf))
    as (st2 & Hrun2 & Ht2 & Hs2).
  rewrite count_key_others in Hrun2. simpl in Hrun2.
  eexists _, st1, st2.
  split; [exact Hrun1 | ].
  split; [destruct (0 <? _)%nat; [left | right]; reflexivity | ].
  split; [exact Hrun2 | ].
  split; [intros Hlog; split; apply reported_serves; exact Hlog | ].
  split; [ | congruence].
  unfold entries_of at 1. rewrite Ht2. simpl. rewrite Hst1. f_equal.
  apply others_absent, count_key_others.
Qed.

(** *** Failures of the dictionary operations *)

Lemma filter_entries_throw (p : jsval → Outcome bool) l e err :
  e ∈ l → p e = Throw err → ∃ err', filter_entries p l = Throw err'.
Proof.
  intros Hin Hp. induction l as [ | x l IH]; [inversion Hin | ].
  simpl. destruct (p x) as [b | err0] eqn:Ex; simpl; [ | eexists; reflexivity].
  apply elem_of_cons in Hin. destruct Hin as [-> | Hin]; [congruence | ].
  destruct (IH Hin) as (err' & ->). simpl. eexists. reflexivity.
Qed.

Lemma lower_field_throw e k :
  (∀ s, opt_get e k ≠ VStr s) →
  ∃ err, lower_field e k = Throw err ∧ name err = "TypeError".
Proof.
  intros Hk. unfold lower_field, get_prop.
  destruct e as [ | | b | n | s | l | o]; simpl;
    try (eexists; split; reflexivity).
  destruct (default VUndefined (o !! k)) as [ | | b | n | s | l | o'] eqn:E;
    try (eexists; split; reflexivity).
  exfalso. apply (Hk s). simpl. exact E.
Qed.

Lemma addOrUpdate_outcome st source targetLang translation :
  ∃ r st',
    addOrUpdateDictionaryEntry source targetLang translation st = (r, st')
    ∧ ((∃ entries,
          (r = added_reply source targetLang ∨ r = updated_reply source targetLang)
          ∧ quiet (with_store st entries) st')
       ∨ (∃ err,
            r = Throw (handler_error "addOrUpdateDictionaryEntry" (message err)
                         "Could not add or update dictionary entry")
            ∧ quiet st st')).
Proof.
  unfold addOrUpdateDictionaryEntry, try_catch, bind at 1. unfold get_this at 1.
  unfold bind at 1. unfold lift at 1.
  destruct (findIndex (same_key source targetLang) (_dictionaryEntries (this st)))
    as [[i | ] | err].
  - unfold bind at 1. unfold lift at 1.
    destruct (assign_translation (_dictionaryEntries (this st)) i translation)
      as [entries | err].
    + cbv beta iota.
      match goal with
      | |- context [(set_entries ?e ;;; writeLog ?f ?a ?m false ;;; ret ?r) ?s] =>
          destruct (store_then_report e f a m "Failed to add/update dictionary entry"
                      "Could not add or update dictionary entry" r s)
            as (st1 & Hrun & Ht1 & Hs1 & Hsends & Hjobs)
      end.
      unfold try_catch in Hrun.
      eexists _, st1. split; [exact Hrun | ]. left. exists entries.
      split; [right; reflexivity | ].
      split; [split; assumption | split; assumption].
    + run_handler st1 H1. eexists _, st1. split; [reflexivity | ].
      right. exists err. split; [reflexivity | exact H1].
  - unfold bind at 1. unfold lift at 1.
    destruct (push (_dictionaryEntries (this st))
                (new_entry source targetLang translation)) as [entries | err].
    + cbv beta iota.
      match goal with
      | |- context [(set_entries ?e ;;; writeLog ?f ?a ?m false ;;; ret ?r) ?s] =>
          destruct (store_then_report e f a m "Failed to add/update dictionary entry"
                      "Could not add or update dictionary entry" r s)
            as (st1 & Hrun & Ht1 & Hs1 & Hsends & Hjobs)
      end.
      unfold try_catch in Hrun.
      eexists _, st1. split; [exact Hrun | ]. left. exists entries.
      split; [left; reflexivity | ].
      split; [split; assumption | split; assumption].
    + run_handler st1 H1. eexists _, st1. split; [reflexivity | ].
      right. exists err. split; [reflexivity | exact H1].
  - run_handler st1 H1. eexists _, st1. split; [reflexivity | ].
    right. exists err. split; [reflexivity | exact H1].
Qed.

Lemma delete_outcome st source targetLang :
  ∃ r st',
    deleteDictionaryEntry source targetLang st = (r, st')
    ∧ ((∃ entries,
          (r = deleted_reply source targetLang ∨ r = not_found_reply source targetLang)
          ∧ quiet (with_store st entries) st')
       ∨ (∃ err,
            r = Throw (handler_error "deleteDictionaryEntry" (message err)
                         "Could not delete dictionary entry")
            ∧ quiet st st')).
Proof.
  unfold deleteDictionaryEntry, try_catch, bind at 1. unfold get_this at 1.
  unfold bind at 1. unfold lift at 1.
  destruct (as_array (_dictionaryEntries (this st))) as [entries | err].
  - unfold bind at 1. unfold lift at 1.
    destruct (without_key source targetLang (VArr entries)) as [kept | err].
    + cbv beta iota zeta.
      destruct (List.length kept <? List.length entries)%nat.
      * match goal with
        | |- context [(set_entries ?e ;;; writeLog ?f ?a ?m false ;;; ret ?r) ?s] =>
            destruct (store_then_report e f a m "Failed to delete dictionary entry"
                        "Could not delete dictionary entry" r s)
              as (st1 & Hrun & Ht1 & Hs1 & Hsends & Hjobs)
        end.
        unfold try_catch in Hrun.
        eexists _, st1. split; [exact Hrun | ]. left. exists (VArr kept).
        split; [left; reflexivity | ].
        split; [split; assumption | split; assumption].
      * match goal with
        | |- context [(set_entries ?e ;;; writeLog ?f ?a ?m false ;;; ret ?r) ?s] =>
            destruct (store_then_report e f a m "Failed to delete dictionary entry"
                        "Could not delete dictionary entry" r s)
              as (st1 & Hrun & Ht1 & Hs1 & Hsends & Hjobs)
        end.
        unfold try_catch in Hrun.
        eexists _, st1. split; [exact Hrun | ]. left. exists (VArr kept).
        split; [right; reflexivity | ].
        split; [split; assumption | split; assumption].
    + run_handler st1 H1. eexists _, st1. split; [reflexivity | ].
      right. exists err. split; [reflexivity | exact H1].
  - run_handler st1 H1. eexists _, st1. split; [reflexivity | ].
    right. exists err. split; [reflexivity | exact H1].
Qed.


(** One entry without a string source disables deletion altogether: as the
    filter reads the source of every entry, [deleteDictionaryEntry] then
    throws for every key, also for keys of sound entries, and removes
    nothing; what it throws is [Could not delete dictionary entry] when
    the logger takes its records. *)
Theorem delete_fails_on_entry_without_source st l e source targetLang :
  entries_of st = VArr l →
  e ∈ l →
  (∀ s, opt_get e "source" ≠ VStr s) →
  ∃ thrown st',
    deleteDictionaryEntry source targetLang st = (Throw thrown, st')
    ∧ quiet st st'
    ∧ (logger_serves → thrown = Error "Could not delete dictionary entry").
Proof.
  intros Hst Hin Hsrc. unfold entries_of in Hst.
  destruct (lower_field_throw e "source" Hsrc) as (err & Herr & _).
  assert (Hp : (λ e, obind (same_key source targetLang e) (λ b, Ok (negb b))) e
               = Throw err).
  { unfold same_key. rewrite Herr. reflexivity. }
  destruct (filter_entries_throw _ l e err Hin Hp) as (err' & Hf).
  unfold deleteDictionaryEntry, try_catch, bind at 1. unfold get_this at 1.
  unfold bind at 1. unfold lift at 1. rewrite Hst. cbn [as_array].
  unfold bind at 1. unfold lift at 1. unfold without_key. rewrite Hf.
  run_handler st1 H1. eexists _, st1. split; [reflexivity | ].
  split; [exact H1 | apply handler_error_serves].
Qed.

(** *** importDictionaryToAwsTranslate *)


Lemma import_run (Hlog : logger_serves) st Bucket Key dictionaryName targetLang csv result :
  s3_fault (GetObjectCommand Bucket Key) = None →
  s3 st !! (Bucket, Key) = Some csv →
  translate_import (import_command dictionaryName targetLang csv) = Ok result →
  ∃ st',
    importDictionaryToAwsTranslate Bucket Key dictionaryName targetLang st
    = (Ok result, st')
    ∧ same_store st st'.
Proof.
  intros Hfault Hobj Himport.
  unfold importDictionaryToAwsTranslate, try_catch, bind at 1.
  unfold s3_getObject at 1. rewrite Hfault, Hobj.
  unfold bind at 1. unfold lift at 1. rewrite Himport.
  unfold bind at 1.
  match goal with
  | |- context [writeLog ?f ?a ?m false ?s] =>
      destruct (writeLog_quiet Hlog f a m false s) as (st1 & -> & (H1 & _))
  end.
  exists st1. split; [reflexivity | exact H1].
Qed.


(** *** Failures of the CSV export *)


(** An entry without a string language makes the export fail before its
    guarded part: the [TypeError] of the filter reaches the caller as it is,
    not as the fixed error of the method, and nothing is recorded, neither by
    the error handler nor in the log; the state is untouched. *)
Theorem export_entry_without_language_escapes st l e targetLang Bucket Key :
  e ∈ l →
  (∀ s, opt_get e "language" ≠ VStr s) →
  ∃ err,
    convertJsonToAwsCsvAndUpload Bucket Key targetLang (VArr l) st = (Throw err, st)
    ∧ name err = "TypeError".
Proof.
  intros Hin Hlang.
  destruct (lower_field_throw e "language" Hlang) as (err & Herr & _).
  assert (Hall : ∀ l' code,
            (∃ x, x ∈ l' ∧ ∀ s, opt_get x "language" ≠ VStr s) →
            ∃ err', filter_entries
                      (λ e, obind (lower_field e "language")
                              (λ lang, Ok (lang =? code)%string)) l' = Throw err'
                    ∧ name err' = "TypeError").
  { intros l' code. induction l' as [ | x l' IH]; intros (y & Hy & Hbad).
    - inversion Hy.
    - simpl. destruct (lower_field x "language") as [lang | err0] eqn:Ex; simpl.
      + apply elem_of_cons in Hy. destruct Hy as [-> | Hy].
        * destruct (lower_field_throw x "language" Hbad) as (e1 & He1 & _). congruence.
        * destruct (IH (ex_intro _ y (conj Hy Hbad))) as (err' & -> & Hn).
          simpl. exists err'. split; [reflexivity | exact Hn].
      + exists err0. split; [reflexivity | ].
        unfold lower_field, get_prop in Ex.
        destruct x as [ | | b | n | s | l0 | o]; simpl in Ex;
          try (injection Ex as <-; reflexivity).
        destruct (default VUndefined (o !! "language")); simpl in Ex;
          try (injection Ex as <-; reflexivity); discriminate. }
  destruct (Hall l (JsString.trim (JsString.toLowerCase targetLang))
              (ex_intro _ e (conj Hin Hlang))) as (err' & Hf & Hn).
  exists err'. split; [ | exact Hn].
  unfold convertJsonToAwsCsvAndUpload, bind at 1. unfold lift at 1.
  unfold csv_rows. rewrite Hf. reflexivity.
Qed.

(** *** From the dictionary to the export *)

Lemma is_whitespace_lower c :
  JsString.is_whitespace (JsString.lower_char c) = JsString.is_whitespace c.
Proof.
  destruct c as [[] [] [] [] [] [] [] []]; reflexivity.
Qed.

Lemma trimStart_lower s :
  JsString.trimStart (JsString.toLowerCase s) = JsString.toLowerCase (JsString.trimStart s).
Proof.
  induction s as [ | c r IH]; [reflexivity | ].
  cbn [JsString.toLowerCase JsString.trimStart]. rewrite is_whitespace_lower.
  destruct (JsString.is_whitespace c); [exact IH | reflexivity].
Qed.

Lemma trimEnd_lower s :
  JsString.trimEnd (JsString.toLowerCase s) = JsString.toLowerCase (JsString.trimEnd s).
Proof.
  induction s as [ | c r IH]; [reflexivity | ].
  cbn [JsString.toLowerCase JsString.trimEnd]. rewrite IH, is_whitespace_lower.
  destruct (JsString.trimEnd r); cbn [JsString.toLowerCase]; [ | reflexivity].
  destruct (JsString.is_whitespace c); reflexivity.
Qed.

Lemma trim_lower s :
  JsString.trim (JsString.toLowerCase s) = JsString.toLowerCase (JsString.trim s).
Proof. unfold JsString.trim. rewrite trimStart_lower, trimEnd_lower. reflexivity. Qed.

Lemma toLowerCase_length s : String.length (JsString.toLowerCase s) = String.length s.
Proof. induction s as [ | c r IH]; simpl; congruence. Qed.

Lemma trimStart_length s :
  (String.length (JsString.trimStart s) ≤ String.length s)%nat
  ∧ (String.length (JsString.trimStart s) = String.length s → JsString.trimStart s = s).
Proof.
  induction s as [ | c r [IH1 IH2]]; [split; [simpl; lia | reflexivity] | ].
  cbn [JsString.trimStart]. destruct (JsString.is_whitespace c).
  - simpl. split; [lia | intros H; lia].
  - split; [lia | reflexivity].
Qed.

Lemma trimEnd_length s :
  (String.length (JsString.trimEnd s) ≤ String.length s)%nat
  ∧ (String.length (JsString.trimEnd s) = String.length s → JsString.trimEnd s = s).
Proof.
  induction s as [ | c r [IH1 IH2]]; [split; [simpl; lia | reflexivity] | ].
  cbn [JsString.trimEnd]. destruct (JsString.trimEnd r) as [ | c' r'] eqn:E.
  - destruct (JsString.is_whitespace c); simpl in *.
    + split; [lia | intros H; lia].
    + split; [lia | ]. intros H. rewrite <- IH2 by lia. reflexivity.
  - cbn [String.length] in *. split; [lia | ].
    intros H. rewrite <- IH2 by lia. reflexivity.
Qed.

Lemma trim_fixed_by_length s :
  String.length (JsString.trim s) = String.length s → JsString.trim s = s.
Proof.
  unfold JsString.trim. intros H.
  destruct (trimStart_length s) as [H1 H2].
  destruct (trimEnd_length (JsString.trimStart s)) as [H3 H4].
  rewrite H4 by lia. apply H2. lia.
Qed.

Lemma trimStart_trimEnd_fixed s :
  JsString.trimStart s = s → JsString.trimStart (JsString.trimEnd s) = JsString.trimEnd s.
Proof.
  destruct s as [ | c r]; [reflexivity | ].
  cbn [JsString.trimStart JsString.trimEnd].
  destruct (JsString.is_whitespace c) eqn:E.
  - intros H. pose proof (proj1 (trimStart_length r)) as Hlen.
    rewrite H in Hlen. simpl in Hlen. lia.
  - intros _. destruct (JsString.trimEnd r); cbn [JsString.trimStart]; rewrite E; reflexivity.
Qed.

Lemma trimStart_idempotent s :
  JsString.trimStart (JsString.trimStart s) = JsString.trimStart s.
Proof.
  induction s as [ | c r IH]; [reflexivity | ].
  cbn [JsString.trimStart]. destruct (JsString.is_whitespace c) eqn:E; [exact IH | ].
  cbn [JsString.trimStart]. rewrite E. reflexivity.
Qed.

Lemma trimEnd_cons c r :
  JsString.trimEnd (String c r)
  = match JsString.trimEnd r with
    | EmptyString =>
        if JsString.is_whitespace c then EmptyString else String c EmptyString
    | String c' r' => String c (String c' r')
    end.
Proof. reflexivity. Qed.

Lemma trimEnd_idempotent s :
  JsString.trimEnd (JsString.trimEnd s) = JsString.trimEnd s.
Proof.
  induction s as [ | c r IH]; [reflexivity | ].
  rewrite (trimEnd_cons c r). destruct (JsString.trimEnd r) as [ | c' r'] eqn:E.
  - destruct (JsString.is_whitespace c) eqn:Ec; [reflexivity | ].
    rewrite trimEnd_cons. cbn [JsString.trimEnd]. rewrite Ec. reflexivity.
  - rewrite trimEnd_cons, IH. reflexivity.
Qed.

Lemma trim_idempotent s : JsString.trim (JsString.trim s) = JsString.trim s.
Proof.
  unfold JsString.trim.
  rewrite (trimStart_trimEnd_fixed _ (trimStart_idempotent s)).
  apply trimEnd_idempotent.
Qed.

(** A tag without white space around it is its own export column, up to
    capitals; a tag with white space around it is the export column of no
    tag. *)
Lemma normalize_tag_trimmed targetLang tag :
  JsString.trim targetLang = targetLang →
  JsString.toLowerCase tag = JsString.toLowerCase targetLang →
  normalize_tag tag = JsString.toLowerCase targetLang.
Proof.
  intros Htrim Htag. unfold normalize_tag. rewrite Htag, trim_lower, Htrim. reflexivity.
Qed.

Lemma normalize_tag_untrimmed targetLang tag :
  JsString.trim targetLang ≠ targetLang →
  JsString.toLowerCase targetLang ≠ normalize_tag tag.
Proof.
  intros Hne Heq. apply Hne. apply trim_fixed_by_length.
  assert (H : JsString.trim (JsString.toLowerCase targetLang)
              = JsString.toLowerCase targetLang).
  { rewrite Heq. unfold normalize_tag. apply trim_idempotent. }
  rewrite <- (toLowerCase_length (JsString.trim targetLang)), <- trim_lower, H.
  apply toLowerCase_length.
Qed.

Lemma well_formed_has_language l : well_formed l → Forall has_language l.
Proof.
  intros Hwf. eapply Forall_impl; [exact Hwf | ]. intros e [k Hk].
  destruct (entry_key_inv e k Hk) as (o & s & lang & -> & _ & Hl & _).
  exists o, lang. split; [reflexivity | exact Hl].
Qed.

Lemma has_key_language_matches source targetLang e :
  has_key (call_key source targetLang) e = true →
  language_matches (JsString.toLowerCase targetLang) e = true
  ∧ ∃ s, opt_get e "source" = VStr s
         ∧ JsString.toLowerCase s = JsString.toLowerCase source.
Proof.
  unfold has_key. intros H. apply bool_decide_eq_true_1 in H.
  destruct (entry_key_inv e _ H) as (o & s & lang & -> & Hs & Hl & Hk).
  unfold call_key in Hk. injection Hk as Hs' Hl'.
  split.
  - simpl. rewrite Hl. rewrite <- Hl'. apply String.eqb_refl.
  - exists s. split; [simpl; rewrite Hs; reflexivity | congruence].
Qed.

(** What is added to the dictionary under a tag without white space around
    it is exported under that tag, however the tag is capitalised at export:
    after [addOrUpdateDictionaryEntry] on a well-formed store (whether the
    call returned its reply or the logger threw for the record of the
    change) there is an entry with the source of the call (up to capitals)
    and the translation of the call, and the rows the export builds for the
    tag hold the row of that entry. *)
Theorem added_entry_is_exported st l source targetLang translation :
  entries_of st = VArr l →
  well_formed l →
  JsString.trim targetLang = targetLang →
  ∃ st1 reply l1 e,
    addOrUpdateDictionaryEntry source targetLang translation st = (reply, st1)
    ∧ (reply = added_reply source targetLang ∨ reply = updated_reply source targetLang)
    ∧ (logger_serves → ∃ answer, reply = Ok answer)
    ∧ entries_of st1 = VArr l1
    ∧ e ∈ l1
    ∧ opt_get e "translation" = VStr translation
    ∧ (∃ s, opt_get e "source" = VStr s
            ∧ JsString.toLowerCase s = JsString.toLowerCase source)
    ∧ ∀ tag,
        JsString.toLowerCase tag = JsString.toLowerCase targetLang →
        ∃ rows,
          csv_rows (VArr l1) "en" (normalize_tag tag) = Ok rows
          ∧ csv_row "en" (normalize_tag tag) e ∈ rows.
Proof.
  intros Hst Hwf Htrim.
  destruct (addOrUpdate_step st l source targetLang translation Hst Hwf)
    as (st1 & l1 & reply & Hadd & Ht1 & _ & Hcase).
  assert (Hst1 : entries_of st1 = VArr l1) by (unfold entries_of; rewrite Ht1; reflexivity).
  assert (Hwf1 : well_formed l1).
  { destruct Hcase as [[_ H] | [_ H]];
      [eapply appended_well_formed | eapply overwritten_well_formed]; eassumption. }
  assert (He : ∃ e, e ∈ l1 ∧ has_key (call_key source targetLang) e = true
                    ∧ opt_get e "translation" = VStr translation).
  { destruct Hcase as [[_ [_ ->]] | [_ (a & o & b & _ & _ & Ho & ->)]].
    - exists (new_entry source targetLang translation).
      split; [apply elem_of_app; right; apply list_elem_of_singleton; reflexivity | ].
      split; [ | reflexivity].
      unfold has_key. rewrite entry_key_new_entry.
      apply bool_decide_eq_true_2. reflexivity.
    - exists (VObj (<["translation" := VStr translation]> o)).
      split; [apply elem_of_app; right; apply elem_of_cons; left; reflexivity | ].
      split; [rewrite has_key_assign; exact Ho | ].
      simpl. rewrite lookup_insert_eq. reflexivity. }
  destruct He as (e & Hin & Hkey & Htr).
  destruct (has_key_language_matches _ _ _ Hkey) as [Hmatch Hsrc].
  exists st1, reply, l1, e.
  split; [exact Hadd | ].
  split; [destruct Hcase as [[H _] | [H _]]; [left | right]; exact H | ].
  split.
  { intros Hlog. destruct Hcase as [[-> _] | [-> _]]; eexists;
      apply reported_serves; exact Hlog. }
  split; [exact Hst1 | ]. split; [exact Hin | ].
  split; [exact Htr | ]. split; [exact Hsrc | ].
  intros tag Htag. eexists. split.
  - apply csv_rows_selected. apply well_formed_has_language. exact Hwf1.
  - apply list_elem_of_fmap. exists e. split; [reflexivity | ].
    apply list_elem_of_In, List.filter_In. split; [apply list_elem_of_In; exact Hin | ].
    rewrite (normalize_tag_trimmed targetLang tag Htrim Htag). exact Hmatch.
Qed.

(** What is added under a tag with white space around it is never exported:
    the entry keeps the tag as given, while the export trims the tag it is
    asked for.  After such an entry has been added under a new key (the
    call answers [Added] whenever the logger takes its record), the rows the
    export builds are, for every tag, the rows it built before. *)
Theorem untrimmed_tag_is_never_exported st l source targetLang translation :
  entries_of st = VArr l →
  well_formed l →
  count_key (call_key source targetLang) l = 0%nat →
  JsString.trim targetLang ≠ targetLang →
  ∃ st1,
    addOrUpdateDictionaryEntry source targetLang translation st
    = (added_reply source targetLang, st1)
    ∧ (logger_serves →
       added_reply source targetLang = Ok (AddedEntry source targetLang))
    ∧ entries_of st1 = VArr (l ++ [new_entry source targetLang translation])%list
    ∧ ∀ tag,
        csv_rows (entries_of st1) "en" (normalize_tag tag)
        = csv_rows (VArr l) "en" (normalize_tag tag).
Proof.
  intros Hst Hwf Hzero Htrim.
  destruct (addOrUpdate_step st l source targetLang translation Hst Hwf)
    as (st1 & l1 & reply & Hadd & Ht1 & _ & Hcase).
  assert (Hst1 : entries_of st1 = VArr l1) by (unfold entries_of; rewrite Ht1; reflexivity).
  assert (Happ : reply = added_reply source targetLang
                 ∧ appended source targetLang translation l l1).
  { destruct Hcase as [H | [_ (a & o & b & -> & Ha & Ho & _)]]; [exact H | ].
    rewrite count_key_app, count_key_cons, Ho in Hzero. lia. }
  destruct Happ as [-> Happ].
  pose proof (appended_well_formed _ _ _ _ _ Happ Hwf) as Hwf1.
  destruct Happ as [_ ->].
  exists st1. split; [exact Hadd | ].
  split; [apply reported_serves | ]. split; [exact Hst1 | ].
  intros tag. rewrite Hst1.
  rewrite (csv_rows_selected _ _ (well_formed_has_language _ Hwf1)).
  rewrite (csv_rows_selected _ _ (well_formed_has_language _ Hwf)).
  rewrite List.filter_app. cbn [List.filter].
  assert (language_matches (normalize_tag tag)
            (new_entry source targetLang translation) = false) as ->.
  { unfold new_entry, language_matches.
    rewrite lookup_insert_ne by discriminate. rewrite lookup_insert_eq.
    apply String.eqb_neq. apply normalize_tag_untrimmed. exact Htrim. }
  rewrite app_nil_r. reflexivity.
Qed.

(** *** The second version of the class *)

Lemma append_length (a b : string) :
  String.length (a +:+ b) = (String.length a + String.length b)%nat.
Proof.
  induction a as [ | x a IH]; [reflexivity | ].
  change (String x a +:+ b) with (String x (a +:+ b)). simpl. rewrite IH. reflexivity.
Qed.

Lemma legacy_generatedCsvKey_fresh m : legacy_generatedCsvKey m ≠ csvKey m.
Proof.
  unfold legacy_generatedCsvKey. intros H.
  apply (f_equal String.length) in H.
  rewrite !append_length in H. simpl in H. lia.
Qed.

Lemma legacy_convert_run targetLang st :
  ∃ r st',
    legacy_convertJsonToAwsCsvAndUpload targetLang st = (r, st')
    ∧ this st' = this st
    ∧ ((st' = st ∧ ∃ err, r = Throw err)
       ∨ (r = Ok tt
          ∧ ∃ csv, s3 st'
                   = <[(bucket (this st), legacy_generatedCsvKey (this st)) := csv]>
                       (s3 st))).
Proof.
  unfold legacy_convertJsonToAwsCsvAndUpload, bind at 1. unfold get_this at 1.
  unfold bind at 1. unfold lift at 1.
  destruct (legacy_rows (_dictionaryEntries (this st)) targetLang) as [rows | err].
  - unfold bind at 1. unfold lift at 1.
    destruct (json2csv_parse rows ["SourceText"; targetLang]) as [csv | err].
    + unfold s3_putObject.
      destruct (s3_fault _) as [err | ].
      * eexists _, st. split; [reflexivity | ]. split; [reflexivity | ].
        left. split; [reflexivity | eexists; reflexivity].
      * eexists _, _. split; [reflexivity | ]. split; [reflexivity | ].
        right. split; [reflexivity | eexists; reflexivity].
    + eexists _, st. split; [reflexivity | ]. split; [reflexivity | ].
      left. split; [reflexivity | eexists; reflexivity].
  - eexists _, st. split; [reflexivity | ]. split; [reflexivity | ].
    left. split; [reflexivity | eexists; reflexivity].
Qed.

Lemma legacy_import_reads st st' targetLang :
  this st' = this st →
  s3 st' !! (bucket (this st), csvKey (this st))
  = s3 st !! (bucket (this st), csvKey (this st)) →
  fst (legacy_importDictionaryToAwsTranslate targetLang st')
  = fst (legacy_importDictionaryToAwsTranslate targetLang st).
Proof.
  intros Ht Hs.
  unfold legacy_importDictionaryToAwsTranslate, bind at 1 3. unfold get_this.
  rewrite Ht.
  destruct (truthy_str (customDictionaryName (this st))); cbn [negb]; [ | reflexivity].
  unfold bind, s3_getObject, lift.
  destruct (s3_fault (GetObjectCommand (bucket (this st)) (csvKey (this st))));
    [reflexivity | ].
  rewrite Hs.
  destruct (s3 st !! (bucket (this st), csvKey (this st))); reflexivity.
Qed.

(** In the second version the export never feeds the import.  The export
    writes the CSV under [generatedCsvKey], which is never the CSV key, and
    the import reads the CSV key: whatever the export does, the import that
    follows gives what it would have given without the export.  A
    successful export changes the bucket under the generated key only. *)
Theorem legacy_export_never_feeds_import st targetLang importLang :
  legacy_generatedCsvKey (this st) ≠ csvKey (this st)
  ∧ fst (legacy_importDictionaryToAwsTranslate importLang
           (snd (legacy_convertJsonToAwsCsvAndUpload targetLang st)))
    = fst (legacy_importDictionaryToAwsTranslate importLang st)
  ∧ ∃ r st',
      legacy_convertJsonToAwsCsvAndUpload targetLang st = (r, st')
      ∧ this st' = this st
      ∧ s3 st' !! (bucket (this st), csvKey (this st))
        = s3 st !! (bucket (this st), csvKey (this st))
      ∧ (r = Ok tt →
           ∃ csv, s3 st'
                  = <[(bucket (this st), legacy_generatedCsvKey (this st)) := csv]>
                      (s3 st)).
Proof.
  pose proof (legacy_generatedCsvKey_fresh (this st)) as Hfresh.
  destruct (legacy_convert_run targetLang st) as (r & st' & Hrun & Ht & Hcase).
  assert (Hs : s3 st' !! (bucket (this st), csvKey (this st))
               = s3 st !! (bucket (this st), csvKey (this st))).
  { destruct Hcase as [[-> _] | [_ (csv & ->)]]; [reflexivity | ].
    apply lookup_insert_ne. intros [= H]. apply Hfresh. exact H. }
  split; [exact Hfresh | ]. split.
  - rewrite Hrun. simpl snd. apply legacy_import_reads; assumption.
  - exists r, st'. split; [exact Hrun | ]. split; [exact Ht | ]. split; [exact Hs | ].
    intros ->. destruct Hcase as [[_ (err & Herr)] | [_ H]]; [discriminate | exact H].
Qed.

Lemma legacy_langs_run text langs :
  ∀ acc st,
    ∃ r st',
      legacy_translate_langs text langs acc st = (r, st')
      ∧ same_store st st'
      ∧ match r with
        | Ok _ => ∀ lang, lang ∈ langs →
                    ∃ s, translate_send (manual_command text lang) = Ok s
        | Throw err => ∃ lang, lang ∈ langs
                         ∧ translate_send (manual_command text lang) = Throw err
        end.
Proof.
  induction langs as [ | lang rest IH]; intros acc st.
  - eexists _, st. split; [reflexivity | ]. split; [apply same_store_refl | ].
    intros lang Hin. inversion Hin.
  - cbn [legacy_translate_langs]. unfold bind at 1.
    destruct (translate_text_send_sent (manual_command text lang) st)
      as (st1 & -> & (H1 & _)).
    destruct (translate_send (manual_command text lang)) as [s | err] eqn:E.
    + destruct (IH (store_result acc lang (Some s)) st1) as (r & st2 & -> & H2 & Hr).
      exists r, st2. split; [reflexivity | ].
      split; [eapply same_store_trans; eassumption | ].
      destruct r as [m | err].
      * intros x Hx. apply elem_of_cons in Hx. destruct Hx as [-> | Hx];
          [eexists; exact E | apply Hr, Hx].
      * destruct Hr as (x & Hx & Herr). exists x.
        split; [apply elem_of_cons; right; exact Hx | exact Herr].
    + exists (Throw err), st1. split; [reflexivity | ]. split; [exact H1 | ].
      exists lang. split; [apply elem_of_cons; left; reflexivity | exact E].
Qed.

Lemma elem_of_manual_requests c texts langs :
  c ∈ manual_requests texts langs
  ↔ ∃ text lang, text ∈ texts ∧ lang ∈ langs ∧ c = manual_command text lang.
Proof.
  unfold manual_requests. rewrite list_elem_of_In, List.in_concat. split.
  - intros (x & Hx & Hc). apply List.in_map_iff in Hx.
    destruct Hx as (text & <- & Htext). apply List.in_map_iff in Hc.
    destruct Hc as (lang & <- & Hlang).
    exists text, lang. rewrite !list_elem_of_In. repeat split; assumption.
  - intros (text & lang & Htext & Hlang & ->).
    exists (map (manual_command text) langs). split.
    + apply List.in_map_iff. exists text.
      split; [reflexivity | apply list_elem_of_In; exact Htext].
    + apply List.in_map_iff. exists lang.
      split; [reflexivity | apply list_elem_of_In; exact Hlang].
Qed.

Lemma legacy_items_run langs items :
  ∀ translated st,
    ∃ r st',
      legacy_translate_items items langs translated st = (r, st')
      ∧ same_store st st'
      ∧ match r with
        | Ok _ => ∀ c, c ∈ manual_requests (legacy_texts items) langs →
                    ∃ s, translate_send c = Ok s
        | Throw err => ∃ c, c ∈ manual_requests (legacy_texts items) langs
                         ∧ translate_send c = Throw err
        end.
Proof.
  induction items as [ | item rest IH]; intros translated st.
  - eexists _, st. split; [reflexivity | ]. split; [apply same_store_refl | ].
    intros c Hc. inversion Hc.
  - cbn [legacy_translate_items]. unfold legacy_texts. cbn [map List.filter].
    fold (legacy_texts rest).
    destruct (truthy (legacy_text item)) eqn:E; cbn [negb].
    + unfold bind at 1.
      destruct (legacy_langs_run (legacy_text item) langs no_results st)
        as (r1 & st1 & -> & H1 & Hr1).
      destruct r1 as [results | err].
      * destruct (IH (translated ++ [result_record (legacy_text item) results])%list st1)
          as (r & st2 & -> & H2 & Hr).
        exists r, st2. split; [reflexivity | ].
        split; [eapply same_store_trans; eassumption | ].
        destruct r as [out | err].
        -- intros c Hc. apply elem_of_manual_requests in Hc.
           destruct Hc as (text & lang & Htext & Hlang & ->).
           apply elem_of_cons in Htext. destruct Htext as [-> | Htext].
           ++ apply Hr1, Hlang.
           ++ apply Hr. apply elem_of_manual_requests. exists text, lang.
              repeat split; assumption.
        -- destruct Hr as (c & Hc & Herr). exists c. split; [ | exact Herr].
           apply elem_of_manual_requests in Hc.
           destruct Hc as (text & lang & Htext & Hlang & ->).
           apply elem_of_manual_requests. exists text, lang.
           split; [apply elem_of_cons; right; exact Htext | ].
           split; [exact Hlang | reflexivity].
      * exists (Throw err), st1. split; [reflexivity | ]. split; [exact H1 | ].
        destruct Hr1 as (lang & Hlang & Herr).
        exists (manual_command (legacy_text item) lang). split; [ | exact Herr].
        apply elem_of_manual_requests. exists (legacy_text item), lang.
        split; [apply elem_of_cons; left; reflexivity | ].
        split; [exact Hlang | reflexivity].
    + unfold bind at 1.
      destruct (warn_quiet (SkippedItem item) st) as (st1 & -> & (H1 & _)).
      destruct (IH translated st1) as (r & st2 & -> & H2 & Hr).
      exists r, st2. split; [reflexivity | ].
      split; [eapply same_store_trans; eassumption | exact Hr].
Qed.

(** In the second version the manual fallback is all or nothing, unlike the
    first one: when the input is an array and the service refuses one of
    the requests of the retained units, the call throws the error of the
    service as it is, and nothing is uploaded: bucket and manager are as
    before. *)
Theorem legacy_bulk_is_all_or_nothing st inputS3Uri outputS3Uri langs rawText items c :
  truthy_opt (iamRoleArn (this st)) = false →
  s3_fault (GetObjectCommand (bucket (this st)) (s3_key (this st) inputS3Uri)) = None →
  s3 st !! (bucket (this st), s3_key (this st) inputS3Uri) = Some rawText →
  JSON_parse rawText = Ok (VArr items) →
  c ∈ manual_requests (legacy_texts items) langs →
  (∀ s, translate_send c ≠ Ok s) →
  ∃ err st' failed,
    legacy_startBulkTranslation inputS3Uri outputS3Uri langs st = (Throw err, st')
    ∧ failed ∈ manual_requests (legacy_texts items) langs
    ∧ translate_send failed = Throw err
    ∧ same_store st st'.
Proof.
  intros Hrole Hfault Hin Hparse Hc Hfail.
  unfold legacy_startBulkTranslation, bind at 1. unfold get_this at 1.
  rewrite Hrole. cbn [negb].
  unfold bind at 1. unfold s3_getObject at 1. rewrite Hfault, Hin.
  unfold bind at 1. unfold lift at 1. rewrite Hparse.
  unfold bind at 1. unfold lift at 1. cbn [legacy_iterate].
  unfold bind at 1.
  destruct (legacy_items_run langs items [] st) as (r & st' & -> & Hsame & Hr).
  destruct r as [out | err].
  - exfalso. destruct (Hr c Hc) as (s & Hs). exact (Hfail s Hs).
  - destruct Hr as (failed & Hin' & Herr).
    exists err, st', failed. split; [reflexivity | ].
    split; [exact Hin' | ]. split; [exact Herr | exact Hsame].
Qed.

(** Plain strings are no units for the second version: it reads the text
    of a unit from its fields only, so an input that is an array of strings
    is skipped altogether.  The call sends no request and uploads the empty
    array, where the first version translates every non-empty string. *)
Theorem legacy_bulk_skips_plain_strings st inputS3Uri outputS3Uri langs rawText strings :
  truthy_opt (iamRoleArn (this st)) = false →
  (∀ c, s3_fault c = None) →
  s3 st !! (bucket (this st), s3_key (this st) inputS3Uri) = Some rawText →
  JSON_parse rawText = Ok (VArr (map VStr strings)) →
  ∃ st',
    legacy_startBulkTranslation inputS3Uri outputS3Uri langs st
    = (Ok "manual-job-done", st')
    ∧ this st' = this st
    ∧ s3 st' = <[(bucket (this st), s3_key (this st) outputS3Uri)
                 := JSON_stringify (VArr [])]> (s3 st)
    ∧ sends (journal st') = sends (journal st)
    ∧ retained_texts (map VStr strings)
      = List.filter truthy (map VStr strings).
Proof.
  intros Hrole Hfault Hin Hparse.
  assert (Hskip : ∀ l translated st0,
            ∃ st1, legacy_translate_items (map VStr l) langs translated st0
                   = (Ok translated, st1) ∧ quiet st0 st1).
  { induction l as [ | s l IH]; intros translated st0.
    - exists st0. split; [reflexivity | apply quiet_refl].
    - cbn [map legacy_translate_items]. unfold legacy_text. cbn [opt_get js_or truthy negb].
      unfold bind at 1.
      destruct (warn_quiet (SkippedItem (VStr s)) st0) as (st1 & -> & H1).
      destruct (IH translated st1) as (st2 & -> & H2).
      exists st2. split; [reflexivity | eapply quiet_trans; eassumption]. }
  unfold legacy_startBulkTranslation, bind at 1. unfold get_this at 1.
  rewrite Hrole. cbn [negb].
  unfold bind at 1. unfold s3_getObject at 1. rewrite Hfault, Hin.
  unfold bind at 1. unfold lift at 1. rewrite Hparse.
  unfold bind at 1. unfold lift at 1. cbn [legacy_iterate].
  unfold bind at 1.
  destruct (Hskip strings [] st) as (st1 & -> & ([Ht Hs] & Hsends & _)).
  unfold bind at 1. unfold s3_putObject at 1. rewrite Hfault. unfold ret.
  eexists. split; [reflexivity | ]. simpl.
  split; [exact Ht | ]. split; [rewrite Hs; reflexivity | ].
  split; [exact Hsends | ].
  unfold retained_texts. rewrite List.map_map. reflexivity.
Qed.

(** *** The runner *)

Lemma upsert_appended source targetLang translation l l' :
  appended source targetLang translation l l' →
  l' = upsert source targetLang translation l.
Proof.
  intros [Hzero ->]. induction l as [ | e l IH]; [reflexivity | ].
  rewrite count_key_cons in Hzero. cbn [upsert].
  destruct (has_key (call_key source targetLang) e); [discriminate | ].
  simpl. rewrite IH by exact Hzero. reflexivity.
Qed.

Lemma upsert_overwritten source targetLang translation l l' :
  overwritten source targetLang translation l l' →
  l' = upsert source targetLang translation l.
Proof.
  intros (a & o & b & -> & Hzero & Ho & ->).
  induction a as [ | e a IH].
  - simpl. rewrite Ho. reflexivity.
  - rewrite count_key_cons in Hzero. simpl.
    destruct (has_key (call_key source targetLang) e); [discriminate | ].
    rewrite IH by exact Hzero. reflexivity.
Qed.

Lemma addOrUpdate_run (Hlog : logger_serves) st l source targetLang translation :
  entries_of st = VArr l →
  well_formed l →
  ∃ st' reply,
    addOrUpdateDictionaryEntry source targetLang translation st = (Ok reply, st')
    ∧ this st' = with_entries (this st) (VArr (upsert source targetLang translation l))
    ∧ s3 st' = s3 st
    ∧ well_formed (upsert source targetLang translation l).
Proof.
  intros Hst Hwf.
  destruct (addOrUpdate_step st l source targetLang translation Hst Hwf)
    as (st1 & l1 & reply & Hadd & Ht1 & Hs1 & Hcase).
  destruct Hcase as [[-> Happ] | [-> Hov]].
  - exists st1, (AddedEntry source targetLang).
    unfold added_reply in Hadd. rewrite (reported_serves _ _ _ _ _ Hlog) in Hadd.
    split; [exact Hadd | ].
    rewrite <- (upsert_appended _ _ _ _ _ Happ).
    split; [exact Ht1 | ]. split; [exact Hs1 | ].
    eapply appended_well_formed; eassumption.
  - exists st1, (UpdatedEntry source targetLang).
    unfold updated_reply in Hadd. rewrite (reported_serves _ _ _ _ _ Hlog) in Hadd.
    split; [exact Hadd | ].
    rewrite <- (upsert_overwritten _ _ _ _ _ Hov).
    split; [exact Ht1 | ]. split; [exact Hs1 | ].
    eapply overwritten_well_formed; eassumption.
Qed.

Lemma convert_run (Hlog : logger_serves) st l targetLang Bucket Key csv :
  Forall has_language l →
  json2csv_parse
    (map (csv_row "en" (normalize_tag targetLang))
       (List.filter (language_matches (normalize_tag targetLang)) l))
    ["en"; normalize_tag targetLang] = Ok csv →
  s3_fault (PutObjectCommand Bucket Key csv "text/csv") = None →
  ∃ st',
    convertJsonToAwsCsvAndUpload Bucket Key targetLang (VArr l) st = (Ok tt, st')
    ∧ this st' = this st
    ∧ s3 st' = <[(Bucket, Key) := csv]> (s3 st).
Proof.
  intros Hl Hcsv Hfault.
  unfold convertJsonToAwsCsvAndUpload, bind at 1. unfold lift at 1.
  fold (normalize_tag targetLang).
  rewrite (csv_rows_selected _ _ Hl).
  unfold try_catch, bind at 1. unfold lift at 1. rewrite Hcsv.
  unfold bind at 1. unfold s3_putObject at 1. rewrite Hfault.
  unfold bind at 1.
  run_writeLog (writeLog_same_store Hlog) st1 Ht1 Hs1.
  unfold ret. exists st1. split; [reflexivity | ].
  simpl in *. split; assumption.
Qed.

Lemma list_run (Hlog : logger_serves) st Bucket contents :
  s3_list Bucket (s3 st) = Ok contents →
  ∃ st', listBucketFiles Bucket st = (Ok contents, st') ∧ same_store st st'.
Proof.
  intros Hlist. unfold listBucketFiles, try_catch, bind at 1. rewrite Hlist.
  unfold bind at 1.
  match goal with
  | |- context [writeLog ?f ?a ?m false ?s] =>
      destruct (writeLog_quiet Hlog f a m false s) as (st1 & -> & (H1 & _))
  end.
  exists st1. split; [reflexivity | exact H1].
Qed.

Lemma save_ok_run (Hlog : logger_serves) st (Bucket Key : string) (entries : jsval) :
  s3_fault (PutObjectCommand Bucket Key (JSON_stringify entries) "application/json")
  = None →
  ∃ st',
    saveCustomDictionaryJson Bucket Key entries st = (Ok tt, st')
    ∧ this st' = this st
    ∧ s3 st' = <[(Bucket, Key) := JSON_stringify entries]> (s3 st).
Proof.
  intros Hfault.
  destruct (save_run st Bucket Key entries Hfault) as (st1 & Hrun & Ht1 & Hs1).
  unfold saved_reply in Hrun. rewrite (reported_serves _ _ _ _ _ Hlog) in Hrun.
  exists st1. split; [exact Hrun | ]. split; assumption.
Qed.

Lemma bind_ok {A B : Type} (m : M A) (k : A → M B) st a st1 r :
  m st = (Ok a, st1) → k a st1 = r → bind m k st = r.
Proof. intros Hm Hk. unfold bind. rewrite Hm. exact Hk. Qed.

Lemma bind_throw {A B : Type} (m : M A) (k : A → M B) st err st1 :
  m st = (Throw err, st1) → bind m k st = (Throw err, st1).
Proof. intros Hm. unfold bind. rewrite Hm. reflexivity. Qed.

Lemma try_catch_ok {A : Type} (body : M A) handler st a st1 :
  body st = (Ok a, st1) → try_catch body handler st = (Ok a, st1).
Proof. intros Hb. unfold try_catch. rewrite Hb. reflexivity. Qed.

Lemma try_catch_throw {A : Type} (body : M A) handler st err st1 r :
  body st = (Throw err, st1) → handler err st1 = r → try_catch body handler st = r.
Proof. intros Hb Hh. unfold try_catch. rewrite Hb. exact Hh. Qed.



(** *** Loading what is not a dictionary *)

(** [loadCustomDictionaryJson] takes any JSON value for the dictionary.  When
    the file under the dictionary key parses to something that is not an
    array, the call still succeeds and makes that value the in-memory store;
    from then on every [addOrUpdateDictionaryEntry] and every
    [deleteDictionaryEntry] throws (its fixed error, when the logger takes
    its records) and the store stays as loaded. *)
Theorem loaded_non_array_blocks_dictionary st text v :
  s3_fault (GetObjectCommand (bucket (this st)) (jsonKey (this st))) = None →
  s3 st !! (bucket (this st), jsonKey (this st)) = Some text →
  JSON_parse text = Ok v →
  (∀ l, v ≠ VArr l) →
  ∃ st1,
    loadCustomDictionaryJson st = (Ok v, st1)
    ∧ entries_of st1 = v
    ∧ (∀ source targetLang translation,
         ∃ thrown st2,
           addOrUpdateDictionaryEntry source targetLang translation st1
           = (Throw thrown, st2)
           ∧ (logger_serves →
              thrown = Error "Could not add or update dictionary entry")
           ∧ entries_of st2 = v)
    ∧ (∀ source targetLang,
         ∃ thrown st2,
           deleteDictionaryEntry source targetLang st1 = (Throw thrown, st2)
           ∧ (logger_serves → thrown = Error "Could not delete dictionary entry")
           ∧ entries_of st2 = v).
Proof.
  intros Hfault Hobj Hparse Hnot.
  destruct (load_run st text v Hfault Hobj Hparse) as (st1 & Hrun & Ht & _).
  assert (Hst1 : _dictionaryEntries (this st1) = v) by (rewrite Ht; reflexivity).
  exists st1. split; [exact Hrun | ]. split; [exact Hst1 | ].
  split.
  - intros source targetLang translation.
    unfold addOrUpdateDictionaryEntry, try_catch, bind at 1. unfold get_this at 1.
    unfold bind at 1. unfold lift at 1. rewrite Hst1.
    assert (∃ err, findIndex (same_key source targetLang) v = Throw err) as (err & ->).
    { destruct v; try (eexists; reflexivity). exfalso. eapply Hnot. reflexivity. }
    run_handler st2 H2. eexists _, st2. split; [reflexivity | ].
    split; [apply handler_error_serves | ].
    destruct H2 as ([H2 _] & _). unfold entries_of. rewrite H2. exact Hst1.
  - intros source targetLang.
    unfold deleteDictionaryEntry, try_catch, bind at 1. unfold get_this at 1.
    unfold bind at 1. unfold lift at 1. rewrite Hst1.
    assert (∃ err, as_array v = Throw err) as (err & ->).
    { destruct v; try (eexists; reflexivity). exfalso. eapply Hnot. reflexivity. }
    run_handler st2 H2. eexists _, st2. split; [reflexivity | ].
    split; [apply handler_error_serves | ].
    destruct H2 as ([H2 _] & _). unfold entries_of. rewrite H2. exact Hst1.
Qed.

End Manager.

(** ** The reference reader inverts the reference writer on dictionaries *)

Lemma append_nil_l (b : string) : EmptyString +:+ b = b.
Proof. reflexivity. Qed.

Lemma append_cons (x : ascii) (a b : string) : String x a +:+ b = String x (a +:+ b).
Proof. reflexivity. Qed.

Lemma append_assoc (a b c : string) : (a +:+ b) +:+ c = a +:+ (b +:+ c).
Proof.
  induction a as [ | x a IH]; [reflexivity | ].
  rewrite !append_cons, IH. reflexivity.
Qed.

Lemma parse_chars_escape_char c r :
  RefJson.parse_chars (RefJson.escape_char c +:+ r)
  = RefJson.cons_char c (RefJson.parse_chars r).
Proof.
  destruct c as [[] [] [] [] [] [] [] []]; reflexivity.
Qed.

Lemma parse_chars_escape s rest :
  RefJson.parse_chars (RefJson.escape s +:+ String (ascii_of_nat 34) rest)
  = Some (s, rest).
Proof.
  induction s as [ | c s IH].
  - reflexivity.
  - change (RefJson.escape (String c s))
      with (RefJson.escape_char c +:+ RefJson.escape s).
    rewrite append_assoc, parse_chars_escape_char, IH. reflexivity.
Qed.

Lemma map_to_list_entry s l t :
  map_to_list (<["source" := VStr s]>
                 (<["language" := VStr l]>
                    (<["translation" := VStr t]> (∅ : gmap string jsval))))
  = [("source", VStr s); ("language", VStr l); ("translation", VStr t)].
Proof. vm_compute. reflexivity. Qed.

Lemma object_of_entry s l t :
  RefJson.object_of [("source", VStr s); ("language", VStr l); ("translation", VStr t)]
  = new_entry s l t.
Proof. vm_compute. reflexivity. Qed.

Lemma print_entry k ind s l t :
  RefJson.print (S (S k)) ind (new_entry s l t)
  = "{" +:+ RefJson.nl
    +:+ RefJson.join ("," +:+ RefJson.nl)
          [RefJson.spaces (ind + 2) +:+ RefJson.quote "source" +:+ ": "
             +:+ RefJson.quote s;
           RefJson.spaces (ind + 2) +:+ RefJson.quote "language" +:+ ": "
             +:+ RefJson.quote l;
           RefJson.spaces (ind + 2) +:+ RefJson.quote "translation" +:+ ": "
             +:+ RefJson.quote t]
    +:+ RefJson.nl +:+ RefJson.spaces ind +:+ "}".
Proof.
  unfold new_entry. cbn [RefJson.print]. rewrite map_to_list_entry.
  reflexivity.
Qed.

(** One member whose value is a string, after a line break and four spaces. *)
Lemma parse_member pv n key Y :
  RefJson.parse_members pv (S n)
    (String (ascii_of_nat 10)
       (String " " (String " " (String " " (String " "
          (String (ascii_of_nat 34)
             (RefJson.escape key +:+ String (ascii_of_nat 34) (String ":" Y))))))))
  = match pv Y with
    | Some (v, r3) =>
        match RefJson.skip_ws r3 with
        | String ","%char r4 =>
            match RefJson.parse_members pv n r4 with
            | Some (kvs, r5) => Some ((key, v) :: kvs, r5)
            | None => None
            end
        | String "}"%char r4 => Some ([(key, v)], r4)
        | _ => None
        end
    | None => None
    end.
Proof.
  remember (RefJson.escape key +:+ String (ascii_of_nat 34) (String ":" Y)) as T eqn:HT.
  simpl. subst T. rewrite parse_chars_escape. reflexivity.
Qed.

Lemma parse_string_value F s R :
  RefJson.parse_value (S F)
    (String " " (String (ascii_of_nat 34) (RefJson.escape s +:+ String (ascii_of_nat 34) R)))
  = Some (VStr s, R).
Proof.
  remember (RefJson.escape s +:+ String (ascii_of_nat 34) R) as T eqn:HT.
  simpl. subst T. rewrite parse_chars_escape. reflexivity.
Qed.

(** A member followed by a comma, and the last member of an object that
    closes two spaces in. *)
Lemma parse_member_comma F n key s X :
  RefJson.parse_members (RefJson.parse_value (S F)) (S n)
    (String (ascii_of_nat 10) (String " " (String " " (String " " (String " " (String (ascii_of_nat 34) (RefJson.escape key +:+ (String (ascii_of_nat 34) (String ":" (String " " (String (ascii_of_nat 34) (RefJson.escape s +:+ (String (ascii_of_nat 34) (String "," X))))))))))))))
  = match RefJson.parse_members (RefJson.parse_value (S F)) n X with
    | Some (kvs, r5) => Some ((key, VStr s) :: kvs, r5)
    | None => None
    end.
Proof. rewrite parse_member, parse_string_value. reflexivity. Qed.

Lemma parse_member_last F n key s X :
  RefJson.parse_members (RefJson.parse_value (S F)) (S n)
    (String (ascii_of_nat 10) (String " " (String " " (String " " (String " " (String (ascii_of_nat 34) (RefJson.escape key +:+ (String (ascii_of_nat 34) (String ":" (String " " (String (ascii_of_nat 34) (RefJson.escape s +:+ (String (ascii_of_nat 34) (String (ascii_of_nat 10) (String " " (String " " (String "}" X)))))))))))))))))
  = Some ([(key, VStr s)], X).
Proof. rewrite parse_member, parse_string_value. reflexivity. Qed.

Lemma parse_object_open F Y :
  RefJson.parse_value (S F)
    (String "{" (String (ascii_of_nat 10) (String " " (String " " (String " " (String " " (String (ascii_of_nat 34) Y)))))))
  = match RefJson.parse_members (RefJson.parse_value F) F
            (String (ascii_of_nat 10) (String " " (String " " (String " " (String " " (String (ascii_of_nat 34) Y)))))) with
    | Some (kvs, rest) => Some (RefJson.object_of kvs, rest)
    | None => None
    end.
Proof. reflexivity. Qed.

(** The text written for an entry two spaces in reads back as the entry. *)
Lemma parse_entry F s l t rest :
  RefJson.parse_value (S (S (S (S (S F)))))
    (RefJson.print 63 2 (new_entry s l t) +:+ rest)
  = Some (new_entry s l t, rest).
Proof.
  rewrite print_entry.
  unfold RefJson.join, RefJson.quote, RefJson.nl, dq.
  cbn [RefJson.spaces Nat.add].
  repeat (rewrite ?append_assoc, ?append_cons, ?append_nil_l).
  rewrite parse_object_open.
  rewrite parse_member_comma, parse_member_comma, parse_member_last.
  rewrite object_of_entry. reflexivity.
Qed.

Lemma parse_value_indent F Z :
  RefJson.parse_value (S F) (String (ascii_of_nat 10) (String " " (String " " Z)))
  = RefJson.parse_value (S F) Z.
Proof. reflexivity. Qed.

Lemma parse_elems_step pv n T :
  RefJson.parse_elems pv (S n) T
  = match pv T with
    | Some (v, r) =>
        match RefJson.skip_ws r with
        | String ","%char r' =>
            match RefJson.parse_elems pv n r' with
            | Some (vs, r'') => Some (v :: vs, r'')
            | None => None
            end
        | String "]"%char r' => Some ([v], r')
        | _ => None
        end
    | None => None
    end.
Proof. reflexivity. Qed.

Lemma skip_ws_comma r : RefJson.skip_ws (String "," r) = String "," r.
Proof. reflexivity. Qed.

Lemma join_cons2 sep x y l :
  RefJson.join sep (x :: y :: l) = x +:+ sep +:+ RefJson.join sep (y :: l).
Proof. reflexivity. Qed.

Lemma parse_elems_entries F (es : list (string * string * string)) :
  ∀ (n : nat) rest,
    es ≠ [] →
    (List.length es ≤ n)%nat →
    RefJson.parse_elems (RefJson.parse_value (S (S (S (S (S F)))))) n
      (String (ascii_of_nat 10)
         (RefJson.join ("," +:+ RefJson.nl) (map RefJson.item_text (map entry_of es))
          +:+ String (ascii_of_nat 10) (String "]" rest)))
    = Some (map entry_of es, rest).
Proof.
  induction es as [ | e es IH]; intros n rest Hne Hlen; [contradiction | ].
  destruct n as [ | n]; [simpl in Hlen; lia | ].
  destruct e as [[s l] t].
  rewrite parse_elems_step.
  destruct es as [ | e' es].
  - simpl map. unfold RefJson.join, RefJson.item_text, entry_of. simpl fst. simpl snd.
    cbn [RefJson.spaces]. rewrite !append_assoc, !append_cons, !append_nil_l.
    rewrite parse_value_indent, parse_entry. reflexivity.
  - cbn [map]. rewrite join_cons2.
    unfold RefJson.item_text at 1. unfold entry_of at 1. simpl fst. simpl snd.
    unfold RefJson.nl.
    cbn [RefJson.spaces]. rewrite !append_assoc, !append_cons, !append_nil_l.
    rewrite parse_value_indent, parse_entry.
    rewrite skip_ws_comma.
    specialize (IH n rest ltac:(discriminate) ltac:(simpl in Hlen |- *; lia)).
    cbn [map] in IH. unfold RefJson.nl in IH.
    rewrite !append_cons, !append_nil_l in IH.
    rewrite IH. reflexivity.
Qed.

Lemma length_append (a b : string) :
  String.length (a +:+ b) = (String.length a + String.length b)%nat.
Proof.
  induction a as [ | x a IH]; [reflexivity | ].
  rewrite append_cons. simpl. rewrite IH. reflexivity.
Qed.

Lemma item_text_length e : (2 ≤ String.length (RefJson.item_text e))%nat.
Proof.
  unfold RefJson.item_text. rewrite length_append.
  change (String.length (RefJson.spaces 2)) with 2%nat. lia.
Qed.

Lemma join_items_length (l : list jsval) :
  (List.length l ≤ String.length (RefJson.join ("," +:+ RefJson.nl) (map RefJson.item_text l)))%nat.
Proof.
  induction l as [ | x l IH]; [simpl; lia | ].
  destruct l as [ | y l].
  - cbn [map RefJson.join List.length]. pose proof (item_text_length x). lia.
  - cbn [map] in *. rewrite join_cons2, !length_append.
    pose proof (item_text_length x). cbn [List.length] in *. lia.
Qed.

Lemma parse_array_open F Y :
  RefJson.parse_value (S F)
    (String "[" (String (ascii_of_nat 10) (String " " (String " " (String "{" Y)))))
  = match RefJson.parse_elems (RefJson.parse_value F) F
            (String (ascii_of_nat 10) (String " " (String " " (String "{" Y)))) with
    | Some (vs, rest) => Some (VArr vs, rest)
    | None => None
    end.
Proof. reflexivity. Qed.

Lemma print_array_cons f ind x l :
  RefJson.print (S f) ind (VArr (x :: l))
  = "[" +:+ RefJson.nl
    +:+ RefJson.join ("," +:+ RefJson.nl)
          (map (λ e, RefJson.spaces (ind + 2) +:+ RefJson.print f (ind + 2) e) (x :: l))
    +:+ RefJson.nl +:+ RefJson.spaces ind +:+ "]".
Proof. reflexivity. Qed.

Lemma stringify_entries e es :
  RefJson.stringify (entries_json (e :: es))
  = String "["
      (String (ascii_of_nat 10)
         (RefJson.join ("," +:+ RefJson.nl) (map RefJson.item_text (map entry_of (e :: es)))
          +:+ String (ascii_of_nat 10) (String "]" EmptyString))).
Proof.
  unfold RefJson.stringify, entries_json. cbn [map].
  rewrite print_array_cons.
  change (λ e0, RefJson.spaces (0 + 2) +:+ RefJson.print 63 (0 + 2) e0) with RefJson.item_text.
  cbn [RefJson.spaces]. unfold RefJson.nl at 1 3.
  rewrite !append_cons, !append_nil_l. reflexivity.
Qed.

Lemma items_open e es tail :
  ∃ Y,
    RefJson.join ("," +:+ RefJson.nl) (map RefJson.item_text (map entry_of (e :: es))) +:+ tail
    = String " " (String " " (String "{" Y)).
Proof.
  destruct e as [[s l] t].
  destruct es as [ | e' es]; cbn [map].
  - unfold RefJson.join, RefJson.item_text, entry_of. simpl fst. simpl snd.
    rewrite print_entry. cbn [RefJson.spaces].
    rewrite !append_assoc, !append_cons, !append_nil_l. eexists. reflexivity.
  - rewrite join_cons2. unfold RefJson.item_text at 1. unfold entry_of at 1.
    simpl fst. simpl snd. rewrite print_entry. cbn [RefJson.spaces].
    rewrite !append_assoc, !append_cons, !append_nil_l. eexists. reflexivity.
Qed.

(** The reference reader inverts the reference writer on every dictionary
    of (source, language, translation) entries, the empty one included. *)
Lemma reference_json_roundtrip (es : list (string * string * string)) :
  RefJson.parse (RefJson.stringify (entries_json es)) = Ok (entries_json es).
Proof.
  destruct es as [ | e es]; [vm_compute; reflexivity | ].
  unfold RefJson.parse.
  assert (Hfuel : ∃ F, String.length (RefJson.stringify (entries_json (e :: es)))
                       = S (S (S (S (S F))))
                       ∧ (List.length (e :: es) ≤ S (S (S (S (S F)))))%nat).
  { rewrite stringify_entries. cbn [String.length]. rewrite length_append.
    pose proof (join_items_length (map entry_of (e :: es))) as Hj.
    rewrite length_map in Hj. cbn [String.length List.length] in *.
    exists (String.length
              (RefJson.join ("," +:+ RefJson.nl)
                 (map RefJson.item_text (map entry_of (e :: es)))) - 1)%nat.
    split; lia. }
  destruct Hfuel as (F & -> & Hlen).
  rewrite stringify_entries.
  destruct (items_open e es (String (ascii_of_nat 10) (String "]" EmptyString)))
    as (Y & HY).
  rewrite HY, parse_array_open, <- HY.
  rewrite parse_elems_entries by (try discriminate; exact Hlen).
  reflexivity.
Qed.

(** ** The properties on the runner's configuration *)

(** The text [{ "translations": [] }] is read line by line: its single
    line is the only unit. *)
Example parse_items_empty_translations :
  fst (parse_items RefJson.parse Demo.empty_translations_json Demo.state)
  = Ok [VStr Demo.empty_translations_json].
Proof. vm_compute. reflexivity. Qed.

(** The text of two lines with a blank one between them is a text made of
    lines, and its units are the two lines. *)
Example two_lines_joined :
  Demo.two_lines = joined_lines [("a", false); ("", false); ("b", false)] ""
  ∧ fst (parse_items RefJson.parse Demo.two_lines Demo.state) = Ok [VStr "a"; VStr "b"].
Proof. vm_compute. split; reflexivity. Qed.

(** C2 at work: the text [{ "translations": [] }] parses to an object
    with an empty [translations], so it is read as lines; it is one line,
    and that line is its only unit. *)
Lemma C2_parse_items_ordered_preference_witness :
  RefJson.parse Demo.empty_translations_json = Ok (VObj {[ "translations" := VArr [] ]})
  ∧ ∃ st',
      parse_items RefJson.parse Demo.empty_translations_json Demo.state
      = (Ok [VStr Demo.empty_translations_json], st').
Proof.
  assert (Hparse : RefJson.parse Demo.empty_translations_json
                   = Ok (VObj {[ "translations" := VArr [] ]}))
    by (vm_compute; reflexivity).
  split; [exact Hparse | ].
  destruct (C2_parse_items_ordered_preference RefJson.parse
              Demo.empty_translations_json Demo.state)
    as (items & st' & Hrun & _ & _ & _ & _ & _ & _ & _ & _ & Hempty & Hlines & _).
  exists st'. rewrite Hrun. f_equal. f_equal.
  rewrite (Hempty Hparse).
  rewrite (Hlines [] Demo.empty_translations_json eq_refl (List.Forall_nil _) eq_refl).
  reflexivity.
Defined.


(** C9, as the specification states it, fails on a unit whose [Text] is
    there and empty: the first value that is there is the empty string,
    whereas the loop passes it over, takes the text [hello] of the field
    [text], sends the request for it and records it under [original]. *)
Lemma C9_first_present_value_is_passed_over :
  claimed_unit_text demo_empty_Text_unit = Some (VStr "")
  ∧ extract_text demo_empty_Text_unit = VStr "hello"
  ∧ fst (translate_items Demo.translator true Demo.logger
           [demo_empty_Text_unit] ["fr"] [] Demo.state)
    = Ok [VObj {[ "original" := VStr "hello"; "fr" := VStr "bonjour" ]}]
  ∧ sends (journal (snd (translate_items Demo.translator true Demo.logger
                           [demo_empty_Text_unit] ["fr"] [] Demo.state)))
    = [ {| Text := VStr "hello";
           SourceLanguageCode := "en";
           TargetLanguageCode := "fr";
           TerminologyNames := None |} ].
Proof. vm_compute. repeat split; reflexivity. Qed.

(** C9 at work: a string, a unit whose [Text] is empty, a number, a unit
    that has a [source] only and an empty string give three records, in
    that order. *)
Lemma C9_extract_text_priority_witness :
  spec_retained demo_units = [VStr "hi"; VStr "hello"; VStr "src"]
  ∧ ∃ st' records,
      translate_items Demo.translator true Demo.logger demo_units ["fr"] [] Demo.state
      = (Ok records, st')
      ∧ List.length records = 3%nat
      ∧ map Text (sends (journal st')) = [VStr "hi"; VStr "hello"; VStr "src"]
      ∧ (∃ o, records !! 1%nat = Some (VObj o) ∧ o !! "original" = Some (VStr "hello")).
Proof.
  assert (Hretained : spec_retained demo_units = [VStr "hi"; VStr "hello"; VStr "src"])
    by (vm_compute; reflexivity).
  split; [exact Hretained | ].
  destruct (C9_extract_text_priority Demo.translator true Demo.logger
              demo_units ["fr"] [] Demo.state)
    as (_ & _ & Hloop).
  destruct (Hloop (λ _ _ _ _, eq_refl))
    as (st' & records & Hrun & _ & Hsends & Hlen & Hrec).
  rewrite Hretained in Hlen, Hsends.
  destruct (Hrec 1%nat (VStr "hello")) as (o & Ho & Horig).
  { rewrite Hretained. reflexivity. }
  exists st', records.
  split; [exact Hrun | ]. split; [exact Hlen | ].
  split; [rewrite Hsends; reflexivity | ].
  exists o. split; [exact Ho | ]. apply Horig.
  intros Hin. apply list_elem_of_singleton in Hin. discriminate Hin.
Defined.

(** C10 at work: three units of which the second has no text; the two
    records follow the order of the retained units. *)
Lemma C10_bulk_output_order_witness :
  ∃ st' records,
    startBulkTranslation RefJson.parse RefJson.stringify Demo.no_fault Demo.translator
      Demo.job_service true Demo.logger "0"
      "s3://abhisesbucket/input/mixed.json" "s3://abhisesbucket/output/mixed.json"
      ["fr"; "de"] Demo.state
    = (Ok "manual-job-done", st')
    ∧ List.length records = 2%nat
    ∧ (∃ o, records !! 0%nat = Some (VObj o)
            ∧ o !! "original" = Some (VStr "hello")
            ∧ o !! "fr" = Some (VStr "bonjour")
            ∧ o !! "de" = Some VNull)
    ∧ (∃ o, records !! 1%nat = Some (VObj o)
            ∧ o !! "original" = Some (VStr "world")
            ∧ o !! "fr" = Some (VStr "bonjour")
            ∧ o !! "de" = Some VNull).
Proof.
  assert (Hretained :
            spec_retained (parsed_units RefJson.parse Demo.mixed_json)
            = [VStr "hello"; VStr "world"]) by (vm_compute; reflexivity).
  destruct (C10_bulk_output_order RefJson.parse RefJson.stringify Demo.no_fault
              Demo.translator Demo.job_service true Demo.logger "0" Demo.state
              "s3://abhisesbucket/input/mixed.json"
              "s3://abhisesbucket/output/mixed.json"
              ["fr"; "de"] Demo.mixed_json
              eq_refl (λ c, eq_refl) (λ _ _ _ _, eq_refl) ltac:(vm_compute; reflexivity))
    as (st' & records & Hrun & _ & _ & Hlen & Hrec).
  rewrite Hretained in Hlen.
  pose proof (Hrec 0%nat) as H0. pose proof (Hrec 1%nat) as H1.
  rewrite Hretained in H0, H1. simpl in H0, H1.
  destruct H0 as (o0 & Hr0 & Hl0 & Ho0 & _).
  destruct H1 as (o1 & Hr1 & Hl1 & Ho1 & _).
  exists st', records.
  split; [exact Hrun | ]. split; [exact Hlen | ]. split.
  - exists o0. split; [exact Hr0 | ].
    split; [apply Ho0; intros Hin;
      repeat (apply elem_of_cons in Hin; destruct Hin as [Hin | Hin];
              [discriminate Hin | ]); inversion Hin | ].
    split; [apply (Hl0 "fr"); [left | discriminate]
           | apply (Hl0 "de"); [right; left | discriminate]].
  - exists o1. split; [exact Hr1 | ].
    split; [apply Ho1; intros Hin;
      repeat (apply elem_of_cons in Hin; destruct Hin as [Hin | Hin];
              [discriminate Hin | ]); inversion Hin | ].
    split; [apply (Hl1 "fr"); [left | discriminate]
           | apply (Hl1 "de"); [right; left | discriminate]].
Defined.

(** C3, checked on the runner's configuration, whose terminology name is
    set: the one request the manual loop sends for the unit "good morning"
    and the language [fr] carries no terminology, whereas [translateText]
    on the same text and language, and the batch job of the same manager
    once a role is configured, both name the terminology. *)
Lemma C3_manual_loop_request_has_no_terminology :
  sends (journal (snd (startBulkTranslation RefJson.parse RefJson.stringify
                         Demo.no_fault Demo.translator Demo.job_service false
                         Demo.logger "0"
                         "s3://abhisesbucket/input/units.json"
                         "s3://abhisesbucket/output/units.json" ["fr"] Demo.state)))
  = [ {| Text := VStr "good morning";
         SourceLanguageCode := "en";
         TargetLanguageCode := "fr";
         TerminologyNames := None |} ]
  ∧ sends (journal (snd (translateText Demo.translator false Demo.logger
                           "good morning" "fr" Demo.state)))
    = [ {| Text := VStr "good morning";
           SourceLanguageCode := "en";
           TargetLanguageCode := "fr";
           TerminologyNames := Some ["my-translate-overrides"] |} ]
  ∧ map JobTerminologyNames
      (jobs (journal (snd (startBulkTranslation RefJson.parse RefJson.stringify
                             Demo.no_fault Demo.translator Demo.job_service false
                             Demo.logger "0"
                             "s3://abhisesbucket/input/units.json"
                             "s3://abhisesbucket/output/units.json" ["fr"]
                             Demo.state_with_role))))
    = [Some ["my-translate-overrides"]].
Proof. vm_compute. repeat split; reflexivity. Qed.

(** C4 at work: the stored entry (Hello, FR) is the one that two calls on
    (hello, fr) update. *)
Lemma C4_add_or_update_keeps_keys_unique_witness :
  ∃ st1 st2 l2,
    addOrUpdateDictionaryEntry true Demo.logger "hello" "fr" "bonjour" demo_capital_state
    = (Ok (UpdatedEntry "hello" "fr"), st1)
    ∧ addOrUpdateDictionaryEntry true Demo.logger "hello" "fr" "coucou" st1
      = (Ok (UpdatedEntry "hello" "fr"), st2)
    ∧ entries_of st2 = VArr l2
    ∧ count_key (call_key "hello" "fr") l2 = 1%nat
    ∧ (∀ e, e ∈ l2 → has_key (call_key "hello" "fr") e = true →
            opt_get e "translation" = VStr "coucou")
    ∧ unique_keys l2.
Proof.
  assert (Hwf : well_formed demo_capital_entries).
  { apply Forall_cons. split; [eexists; reflexivity | constructor]. }
  assert (Hu : unique_keys demo_capital_entries).
  { intros k. unfold count_key, demo_capital_entries. simpl.
    destruct (has_key k _); simpl; lia. }
  destruct (C4_add_or_update_keeps_keys_unique true Demo.logger demo_capital_state
              demo_capital_entries "hello" "fr" "bonjour" "coucou" eq_refl Hwf Hu)
    as (st1 & st2 & l1 & l2 & r1 & Hrun1 & _ & Hcase & _ & _ & _ & Hrun2 & Hst2 & _ & _
        & Hu2 & Hc2 & Ht2).
  exists st1, st2, l2.
  split.
  { rewrite Hrun1. f_equal.
    destruct Hcase as [[_ [Hzero _]] | [-> _]]; [discriminate Hzero | reflexivity]. }
  split; [exact Hrun2 | ].
  split; [exact Hst2 | ]. split; [exact Hc2 | ]. split; [exact Ht2 | exact Hu2].
Defined.

(** C5 at work: a dictionary of two entries, saved, then loaded into an
    emptied memory. *)
Lemma C5_save_load_roundtrip_witness :
  ∃ st1 st2,
    saveCustomDictionaryJson RefJson.stringify Demo.no_fault true Demo.logger
      "abhisesbucket" "input/translations.json" demo_dictionary demo_dictionary_state
    = (Ok tt, st1)
    ∧ loadCustomDictionaryJson RefJson.parse Demo.no_fault true Demo.logger
        (with_store st1 (VArr []))
      = (Ok demo_dictionary, st2)
    ∧ entries_of st2 = demo_dictionary.
Proof.
  destruct (C5_save_load_roundtrip RefJson.parse RefJson.stringify Demo.no_fault true
              Demo.logger demo_dictionary_state (VArr [])
              (λ c, eq_refl)
              (reference_json_roundtrip
                 [("hello", "fr", "bonjour"); ("world", "fr", "monde")]))
    as (st1 & st2 & Hsave & _ & _ & Hload & Hmem).
  exists st1, st2.
  split; [exact Hsave | ]. split; [exact Hload | exact Hmem].
Defined.


(** C7 at work: a text that is not JSON under the dictionary key, and a
    storage service that is down; the two entries in memory stay. *)
Lemma C7_load_fault_keeps_store_witness :
  (∃ st',
     loadCustomDictionaryJson RefJson.parse Demo.no_fault true Demo.logger
       demo_corrupt_state
     = (Throw (Error "Failed to load dictionary: Unexpected token in JSON"), st')
     ∧ entries_of st' = demo_dictionary)
  ∧ (∃ st',
       loadCustomDictionaryJson RefJson.parse Demo.outage true Demo.logger
         demo_dictionary_state
       = (Throw (Error "Failed to load dictionary: Service Unavailable"), st')
       ∧ entries_of st' = demo_dictionary).
Proof.
  split.
  - assert (Hobj : s3 demo_corrupt_state
                     !! (bucket (this demo_corrupt_state),
                         jsonKey (this demo_corrupt_state))
                   = Some "not json") by (vm_compute; reflexivity).
    assert (Hparse : RefJson.parse "not json" = Throw RefJson.SyntaxError)
      by (vm_compute; reflexivity).
    destruct (C7_load_fault_keeps_store RefJson.parse Demo.no_fault true Demo.logger
                demo_corrupt_state RefJson.SyntaxError eq_refl
                (or_intror (conj eq_refl (ex_intro _ "not json" (conj Hobj Hparse)))))
      as (st' & Hrun & _ & Hmem & _).
    exists st'. split; [exact Hrun | exact Hmem].
  - destruct (C7_load_fault_keeps_store RefJson.parse Demo.outage true Demo.logger
                demo_dictionary_state Demo.ServiceDown eq_refl (or_introl eq_refl))
      as (st' & Hrun & _ & Hmem & _).
    exists st'. split; [exact Hrun | exact Hmem].
Defined.

(** C8 on a list with an entry whose translation is still empty, exported
    for [fr]: the export keeps the entry (world, fr) and hands [json2csv] a
    row for it, where the selection the specification states has the entry
    (hello, fr, bonjour) only. *)
Lemma C8_blank_entries_are_exported :
  csv_rows (VArr demo_blank_entries) "en" (normalize_tag "fr")
  = Ok [ {[ "en" := VStr "hello"; "fr" := VStr "bonjour" ]};
         {[ "en" := VStr "world"; "fr" := VStr "" ]} ]
  ∧ claimed_csv_selection demo_blank_entries "fr" = [new_entry "hello" "fr" "bonjour"]
  ∧ (∃ st',
       convertJsonToAwsCsvAndUpload Demo.no_fault RefJson.csv true Demo.logger
         "abhisesbucket" "costume_terminology.csv" "fr" (VArr demo_blank_entries)
         demo_dictionary_state
       = (Ok tt, st')
       ∧ s3 st' !! ("abhisesbucket", "costume_terminology.csv")
         = Some (Demo.hello_csv +:+ RefJson.nl +:+ quoted "world" +:+ "," +:+ quoted "")).
Proof.
  split; [vm_compute; reflexivity | ].
  split; [vm_compute; reflexivity | ].
  eexists. split; [vm_compute; reflexivity | ].
  vm_compute. reflexivity.
Qed.

(** The export at work: the tag is given with capitals and spaces around it. *)
Lemma csv_export_rows_witness :
  normalize_tag " FR " = "fr"
  ∧ csv_rows (VArr demo_export_entries) "en" (normalize_tag " FR ")
    = Ok [ {[ "en" := VStr "hello"; "fr" := VStr "bonjour" ]} ]
  ∧ ∃ st',
      convertJsonToAwsCsvAndUpload Demo.no_fault RefJson.csv true Demo.logger
        "abhisesbucket" "costume_terminology.csv" " FR " (VArr demo_export_entries)
        demo_dictionary_state
      = (Ok tt, st')
      ∧ s3 st' !! ("abhisesbucket", "costume_terminology.csv") = Some Demo.hello_csv.
Proof.
  assert (Hl : Forall has_language demo_export_entries).
  { repeat (apply Forall_cons; split; [eexists _, _; split; reflexivity | ]).
    constructor. }
  destruct (csv_export_rows Demo.no_fault RefJson.csv true Demo.logger
              demo_dictionary_state
              demo_export_entries " FR " "abhisesbucket" "costume_terminology.csv"
              Demo.hello_csv Hl ltac:(vm_compute; reflexivity) eq_refl)
    as (Hrows & _ & _ & _ & (st' & Hrun & _ & _ & Hs3) & _).
  split; [vm_compute; reflexivity | ].
  split; [rewrite Hrows; vm_compute; reflexivity | ].
  exists st'. split; [exact Hrun | ].
  rewrite Hs3. apply lookup_insert_eq.
Defined.

(** With the reference reader and writer for the [JSON] built-ins and a
    bucket that serves its commands, saving any dictionary of entries and
    loading it again gives back exactly that dictionary, whatever the memory
    held in between and whatever the logger does; the save itself returns
    whenever the logger takes its record. *)
Theorem save_then_load_reference_roundtrip (logging : bool)
    (logger : string → string → string → bool → option JsError) (st0 : State)
    (es : list (string * string * string)) (other : jsval) :
  ∃ st1 st2,
    saveCustomDictionaryJson RefJson.stringify Demo.no_fault logging logger
      (bucket (this st0)) (jsonKey (this st0)) (entries_json es)
      (with_store st0 (entries_json es))
    = (saved_reply logging logger, st1)
    ∧ (logger_serves logging logger → saved_reply logging logger = Ok tt)
    ∧ loadCustomDictionaryJson RefJson.parse Demo.no_fault logging logger
        (with_store st1 other)
      = (Ok (entries_json es), st2)
    ∧ entries_of st2 = entries_json es.
Proof.
  destruct (save_run RefJson.stringify Demo.no_fault logging logger
              (with_store st0 (entries_json es))
              (bucket (this st0)) (jsonKey (this st0)) (entries_json es) eq_refl)
    as (st1 & Hsave & Ht1 & Hs1).
  assert (Hkey : s3 (with_store st1 other)
                   !! (bucket (this (with_store st1 other)),
                       jsonKey (this (with_store st1 other)))
                 = Some (RefJson.stringify (entries_json es))).
  { simpl. rewrite Ht1, Hs1. apply lookup_insert_eq. }
  destruct (load_run RefJson.parse Demo.no_fault logging logger (with_store st1 other)
              _ _ eq_refl Hkey (reference_json_roundtrip es))
    as (st2 & Hload & Ht2 & _).
  exists st1, st2.
  split; [exact Hsave | ].
  split; [apply reported_serves | ].
  split; [exact Hload | ].
  unfold entries_of. rewrite Ht2. reflexivity.
Qed.

(** The two lines, read with the reference reader. *)
Lemma parse_items_newline_text_witness :
  ∃ st',
    parse_items RefJson.parse Demo.two_lines Demo.state
    = (Ok [VStr "a"; VStr "b"], st').
Proof.
  destruct (parse_items_newline_text RefJson.parse Demo.state RefJson.SyntaxError
              ltac:(vm_compute; reflexivity))
    as (st' & Hrun & _).
  exists st'. exact Hrun.
Defined.


(** ** The further properties at work *)


(** A logger without a path for the records of failed translations: the
    manual fallback throws at the German translation of "good morning",
    which it asks for first, and uploads nothing. *)
Example bulk_stops_at_pathless_logger :
  ∃ st',
    startBulkTranslation RefJson.parse RefJson.stringify Demo.no_fault Demo.translator
      Demo.job_service true Demo.pathless_logger "0"
      "s3://abhisesbucket/input/units.json" "s3://abhisesbucket/output/units.json"
      ["de"; "fr"] Demo.state
    = (Throw (Error "Manual translation failed: template.matchAll is not a function"),
       st')
    ∧ s3 st' = s3 Demo.state
    ∧ map TargetLanguageCode (sends (journal st')) = ["de"].
Proof.
  destruct (bulk_stops_when_logger_throws RefJson.parse RefJson.stringify Demo.no_fault
              Demo.translator Demo.job_service true Demo.pathless_logger "0" Demo.state
              "s3://abhisesbucket/input/units.json"
              "s3://abhisesbucket/output/units.json"
              ["de"; "fr"] Demo.good_morning_json
              (VStr "good morning") [] (VStr "good morning") "de" ["fr"]
              (mkError "UnsupportedLanguagePairException" "Unsupported language pair")
              Demo.NoPath
              eq_refl eq_refl ltac:(vm_compute; reflexivity) eq_refl
              ltac:(vm_compute; reflexivity) eq_refl eq_refl eq_refl eq_refl)
    as (st' & Hrun & [_ Hs3] & Hsends).
  exists st'. split; [exact Hrun | ]. split; [exact Hs3 | ].
  rewrite Hsends. reflexivity.
Qed.



Lemma demo_dictionary_well_formed :
  well_formed [new_entry "hello" "fr" "bonjour"; new_entry "world" "fr" "monde"].
Proof.
  repeat (apply Forall_cons; split; [eexists; reflexivity | ]). constructor.
Qed.



Lemma delete_twice_is_delete_once_witness :
  ∃ reply st1 st2,
    deleteDictionaryEntry true Demo.logger "hello" "fr" demo_dictionary_state = (Ok reply, st1)
    ∧ deleteDictionaryEntry true Demo.logger "hello" "fr" st1 = (Ok (NoEntryFound "hello" "fr"), st2)
    ∧ entries_of st2 = entries_of st1
    ∧ s3 st2 = s3 demo_dictionary_state.
Proof.
  destruct (delete_twice_is_delete_once true Demo.logger demo_dictionary_state _
              "hello" "fr" eq_refl demo_dictionary_well_formed)
    as (reply & st1 & st2 & Hrun1 & Hcase & Hrun2 & _ & Hrest).
  destruct Hcase as [-> | ->].
  - exists (DeletedEntry "hello" "fr"), st1, st2.
    split; [exact Hrun1 | ]. split; [exact Hrun2 | exact Hrest].
  - exists (NoEntryFound "hello" "fr"), st1, st2.
    split; [exact Hrun1 | ]. split; [exact Hrun2 | exact Hrest].
Defined.

(** The entry without a source blocks the deletion of (hello, fr). *)
Lemma delete_fails_on_entry_without_source_witness :
  ∃ st',
    deleteDictionaryEntry true Demo.logger "hello" "fr" demo_no_source_state
    = (Throw (Error "Could not delete dictionary entry"), st')
    ∧ quiet demo_no_source_state st'.
Proof.
  destruct (delete_fails_on_entry_without_source true Demo.logger demo_no_source_state
              demo_no_source_entries (VObj {[ "language" := VStr "fr" ]}) "hello" "fr"
              eq_refl)
    as (thrown & st' & Hrun & Hquiet & Hthrown).
  - apply elem_of_cons. right. apply elem_of_cons. left. reflexivity.
  - intros s. vm_compute. discriminate.
  - exists st'. split; [ | exact Hquiet].
    rewrite Hrun, (Hthrown (λ _ _ _ _, eq_refl)). reflexivity.
Defined.



Lemma demo_export_entries_have_language : Forall has_language demo_export_entries.
Proof.
  repeat (apply Forall_cons; split; [eexists _, _; split; reflexivity | ]).
  constructor.
Qed.


Lemma export_entry_without_language_escapes_witness :
  ∃ err,
    convertJsonToAwsCsvAndUpload Demo.no_fault RefJson.csv true Demo.logger
      "abhisesbucket" "costume_terminology.csv" "fr" (VArr demo_no_language_entries)
      demo_dictionary_state
    = (Throw err, demo_dictionary_state)
    ∧ name err = "TypeError".
Proof.
  apply (export_entry_without_language_escapes Demo.no_fault RefJson.csv true Demo.logger
           demo_dictionary_state demo_no_language_entries
           (VObj {[ "source" := VStr "x" ]}) "fr"
           "abhisesbucket" "costume_terminology.csv").
  - apply elem_of_cons. right. apply elem_of_cons. left. reflexivity.
  - intros s. vm_compute. discriminate.
Defined.

(** (cat, fr, chat) is added and then found by the export asked for [FR]. *)
Lemma added_entry_is_exported_witness :
  ∃ st1 reply l1 e,
    addOrUpdateDictionaryEntry true Demo.logger "cat" "fr" "chat" demo_dictionary_state
    = (Ok reply, st1)
    ∧ entries_of st1 = VArr l1
    ∧ e ∈ l1
    ∧ opt_get e "translation" = VStr "chat"
    ∧ ∃ rows,
        csv_rows (VArr l1) "en" (normalize_tag "FR") = Ok rows
        ∧ csv_row "en" (normalize_tag "FR") e ∈ rows.
Proof.
  destruct (added_entry_is_exported true Demo.logger demo_dictionary_state _ "cat" "fr" "chat"
              eq_refl demo_dictionary_well_formed ltac:(vm_compute; reflexivity))
    as (st1 & reply0 & l1 & e & Hadd & _ & Hok & Hst1 & Hin & Htr & _ & Hrows).
  destruct (Hok (λ _ _ _ _, eq_refl)) as (reply & ->).
  exists st1, reply, l1, e.
  split; [exact Hadd | ]. split; [exact Hst1 | ]. split; [exact Hin | ].
  split; [exact Htr | ].
  apply (Hrows "FR"). vm_compute. reflexivity.
Defined.

(** (cat, " fr", chat) is added and the export for [" fr"] does not see it. *)
Lemma untrimmed_tag_is_never_exported_witness :
  ∃ st1,
    addOrUpdateDictionaryEntry true Demo.logger "cat" " fr" "chat" demo_dictionary_state
    = (Ok (AddedEntry "cat" " fr"), st1)
    ∧ csv_rows (entries_of st1) "en" (normalize_tag " fr")
      = csv_rows demo_dictionary "en" (normalize_tag " fr").
Proof.
  destruct (untrimmed_tag_is_never_exported true Demo.logger demo_dictionary_state _
              "cat" " fr" "chat"
              eq_refl demo_dictionary_well_formed ltac:(vm_compute; reflexivity)
              ltac:(vm_compute; discriminate))
    as (st1 & Hadd & _ & _ & Hrows).
  exists st1. split; [exact Hadd | apply Hrows].
Defined.

(** ** The logger *)

Lemma free_of_app c a b :
  Logger.free_of c (a +:+ b) = Logger.free_of c a && Logger.free_of c b.
Proof.
  induction a as [ | x a IH]; [rewrite append_nil_l; reflexivity | ].
  rewrite append_cons. cbn [Logger.free_of]. rewrite IH, andb_assoc. reflexivity.
Qed.

Lemma captures_free s : Logger.free_of "{" s = true → Logger.captures None s = [].
Proof.
  induction s as [ | c r IH]; [reflexivity | ].
  cbn [Logger.free_of Logger.captures]. intros H. apply andb_true_iff in H.
  destruct H as [Hc Hr]. apply negb_true_iff in Hc. rewrite Hc. apply IH, Hr.
Qed.

Lemma captures_free_app a s :
  Logger.free_of "{" a = true →
  Logger.captures None (a +:+ s) = Logger.captures None s.
Proof.
  induction a as [ | c r IH]; [rewrite append_nil_l; reflexivity | ].
  rewrite append_cons. cbn [Logger.free_of Logger.captures]. intros H.
  apply andb_true_iff in H. destruct H as [Hc Hr]. apply negb_true_iff in Hc.
  rewrite Hc. apply IH, Hr.
Qed.

Lemma append_nil_r s : s +:+ "" = s.
Proof.
  induction s as [ | c r IH]; [reflexivity | ]. rewrite append_cons, IH. reflexivity.
Qed.

Lemma captures_inside k :
  ∀ read s,
    Logger.free_of "}" k = true →
    Logger.captures (Some read) (k +:+ String "}" s)
    = if JsString.is_empty (read +:+ k) then Logger.captures None s
      else (read +:+ k) :: Logger.captures None s.
Proof.
  induction k as [ | c r IH]; intros read s Hk.
  - rewrite append_nil_l, append_nil_r. destruct read; reflexivity.
  - rewrite append_cons. cbn [Logger.free_of] in Hk. apply andb_true_iff in Hk.
    destruct Hk as [Hc Hr]. apply negb_true_iff in Hc.
    cbn [Logger.captures]. rewrite Hc. rewrite (IH _ s Hr).
    rewrite append_assoc. rewrite append_cons, append_nil_l. reflexivity.
Qed.

Lemma split_on_free c s : Logger.free_of c s = true → Logger.split_on c s = [s].
Proof.
  induction s as [ | x r IH]; [reflexivity | ].
  cbn [Logger.free_of Logger.split_on]. intros H. apply andb_true_iff in H.
  destruct H as [Hc Hr]. apply negb_true_iff in Hc. rewrite Hc, (IH Hr). reflexivity.
Qed.

Lemma expand_free matched before after repl :
  Logger.free_of "$" repl = true → Logger.expand matched before after repl = repl.
Proof.
  induction repl as [ | c r IH]; [reflexivity | ].
  cbn [Logger.free_of]. intros H. apply andb_true_iff in H. destruct H as [Hc Hr].
  apply negb_true_iff in Hc.
  assert (Hstep : Logger.expand matched before after (String c r)
                  = String c (Logger.expand matched before after r)).
  { destruct c as [[] [] [] [] [] [] [] []]; try reflexivity. discriminate Hc. }
  rewrite Hstep, (IH Hr). reflexivity.
Qed.

Lemma prefix_append p s : String.prefix p (p +:+ s) = true.
Proof.
  induction p as [ | c r IH]; [rewrite append_nil_l; destruct s; reflexivity | ].
  rewrite append_cons. simpl. destruct (ascii_dec c c); [exact IH | contradiction].
Qed.

Lemma drop_append p s : JsString.drop (String.length p) (p +:+ s) = s.
Proof.
  induction p as [ | c r IH]; [rewrite append_nil_l; destruct s; reflexivity | ].
  rewrite append_cons. simpl. exact IH.
Qed.

Lemma replace_from_free q repl a :
  ∀ before b,
    Logger.free_of "{" a = true →
    Logger.replace_from (String "{" q) repl before (a +:+ String "{" q +:+ b)
    = (before +:+ a)
      +:+ Logger.expand (String "{" q) (before +:+ a) b repl +:+ b.
Proof.
  induction a as [ | c r IH]; intros before b Ha.
  - rewrite append_nil_l, append_nil_r.
    destruct (String "{" q +:+ b) as [ | x y] eqn:E;
      [rewrite append_cons in E; discriminate | ].
    rewrite <- E. clear E x y.
    assert (Hstep : ∀ s, Logger.replace_from (String "{" q) repl before s
                         = if String.prefix (String "{" q) s
                           then before
                                +:+ Logger.expand (String "{" q) before
                                      (JsString.drop (String.length (String "{" q)) s) repl
                                +:+ JsString.drop (String.length (String "{" q)) s
                           else match s with
                                | String c r =>
                                    Logger.replace_from (String "{" q) repl
                                      (before +:+ String c EmptyString) r
                                | EmptyString => before
                                end).
    { intros s. destruct s; reflexivity. }
    rewrite Hstep, prefix_append, drop_append. reflexivity.
  - cbn [Logger.free_of] in Ha. apply andb_true_iff in Ha. destruct Ha as [Hc Hr].
    apply negb_true_iff in Hc. rewrite append_cons.
    assert (Hstep : Logger.replace_from (String "{" q) repl before
                      (String c (r +:+ String "{" q +:+ b))
                    = Logger.replace_from (String "{" q) repl
                        (before +:+ String c EmptyString) (r +:+ String "{" q +:+ b)).
    { cbn [Logger.replace_from String.prefix].
      destruct (ascii_dec "{" c) as [<- | Hne]; [discriminate Hc | reflexivity]. }
    rewrite Hstep, (IH _ b Hr).
    assert (Happ : (before +:+ String c EmptyString) +:+ r = before +:+ String c r)
      by (rewrite append_assoc, append_cons, append_nil_l; reflexivity).
    rewrite Happ. reflexivity.
Qed.

Lemma resolve_each_lacks (has : string → bool) str date number template data placeholders :
  ∀ logPath,
    (∃ p, p ∈ placeholders ∧ Logger.lookup_in has data (Logger.key_of p) = None) →
    ∃ key,
      Logger.resolve_each has str date number template data placeholders logPath
      = ([Logger.ConsoleError key template], None).
Proof.
  induction placeholders as [ | x rest IH]; intros logPath (p & Hin & Hp).
  - inversion Hin.
  - cbn [Logger.resolve_each].
    destruct (Logger.lookup_in has data (Logger.key_of x)) as [found | ] eqn:E.
    + apply elem_of_cons in Hin. destruct Hin as [-> | Hin]; [congruence | ].
      apply IH. exists p. split; assumption.
    + eexists. reflexivity.
Qed.

Lemma resolve_each_has (has : string → bool) str date number template data placeholders :
  ∀ logPath,
    (∀ p, p ∈ placeholders → Logger.lookup_in has data (Logger.key_of p) ≠ None) →
    ∃ resolved,
      Logger.resolve_each has str date number template data placeholders logPath
      = ([], Some resolved).
Proof.
  induction placeholders as [ | x rest IH]; intros logPath Hall.
  - eexists. reflexivity.
  - cbn [Logger.resolve_each].
    destruct (Logger.lookup_in has data (Logger.key_of x)) as [found | ] eqn:E.
    + apply IH. intros p Hp. apply Hall. apply elem_of_cons. right. exact Hp.
    + exfalso. apply (Hall x); [apply elem_of_cons; left; reflexivity | exact E].
Qed.


Section LoggerFacts.

Variable env : Logger.Env.
Variable logConfig : list Logger.Category.
Variable posix_join : string → string → string.
Variables moment_LL toISOString Date_now warning_sign : string.
Variable Object_prototype_has : string → bool.
Variable Object_prototype_String : string → string.
Variable DD_MM_YYYY : Logger.Found → string.
Variable Number_toString : Z → string.

Local Abbreviation writeLog :=
  (Logger.writeLog env logConfig posix_join moment_LL toISOString Date_now warning_sign
     Object_prototype_has Object_prototype_String DD_MM_YYYY Number_toString).
Local Abbreviation resolvePath :=
  (Logger.resolvePath Object_prototype_has Object_prototype_String DD_MM_YYYY
     Number_toString).
Local Abbreviation resolve_each :=
  (Logger.resolve_each Object_prototype_has Object_prototype_String DD_MM_YYYY
     Number_toString).
Local Abbreviation getRouteByFlag :=
  (Logger.getRouteByFlag logConfig moment_LL warning_sign).
Local Abbreviation lookup_in := (Logger.lookup_in Object_prototype_has).
Local Abbreviation lacks_key := (Logger.lacks_key Object_prototype_has).
Local Abbreviation logEntry := (Logger.logEntry toISOString).
Local Abbreviation console a :=
  (if Logger.isConsoleEnabled env
   then [Logger.ConsoleLog (Logger.flag a) (logEntry a (getRouteByFlag (Logger.flag a)))]
   else []).

Lemma isEnabled_spec :
  Logger.isEnabled env = false
  ↔ (Logger.LOGGING_ENABLED env = None
     ∨ Logger.LOGGING_ENABLED env = Some ""
     ∨ Logger.LOGGING_ENABLED env = Some "0").
Proof.
  unfold Logger.isEnabled. destruct (Logger.LOGGING_ENABLED env) as [s | ].
  - destruct (String.eqb_spec s "0") as [-> | Hzero].
    + split; [intros _; right; right; reflexivity | reflexivity].
    + destruct s as [ | c r].
      * split; [intros _; right; left; reflexivity | reflexivity].
      * split; [simpl; discriminate | ].
        intros [H | [H | H]]; try discriminate. exfalso. apply Hzero. congruence.
  - split; [intros _; left; reflexivity | reflexivity].
Qed.

Lemma deliver_not_nil logPath c entry :
  Logger.deliver env posix_join logPath c entry ≠ [].
Proof. unfold Logger.deliver. destruct (Logger.isLocal env); discriminate. Qed.

(** The logger writes exactly when it is enabled, and it is enabled by any
    value of [LOGGING_ENABLED] but the empty text and [0]: the variable
    unset, empty or [0] makes every [writeLog] do nothing at all, and any
    other value, [false] included, makes every [writeLog] reach a sink or
    throw. *)
Theorem logger_writes_iff_enabled (a : Logger.LogArgs) :
  (Logger.isEnabled env = false
   ↔ (Logger.LOGGING_ENABLED env = None
      ∨ Logger.LOGGING_ENABLED env = Some ""
      ∨ Logger.LOGGING_ENABLED env = Some "0"))
  ∧ (Logger.isEnabled env = false → writeLog a = ([], Ok tt))
  ∧ (Logger.isEnabled env = true →
       fst (writeLog a) ≠ [] ∨ ∃ err, snd (writeLog a) = Throw err)
  ∧ (Logger.LOGGING_ENABLED env = Some "false" → Logger.isEnabled env = true).
Proof.
  split; [apply isEnabled_spec | ].
  split; [intros H; unfold Logger.writeLog; rewrite H; reflexivity | ].
  split.
  - intros H. unfold Logger.writeLog. rewrite H. cbn [negb].
    destruct (opt_get (VObj (getRouteByFlag (Logger.flag a))) "path")
      as [ | | b | n | template | l | o];
      try (right; eexists; reflexivity).
    left. destruct (resolvePath template (Logger.data_of a)) as [errors [[ | c r] | ]];
      cbn [fst].
    + intros Hnil. apply app_eq_nil in Hnil. destruct Hnil as [_ Hnil].
      apply app_eq_nil in Hnil. destruct Hnil as [_ Hnil]. discriminate.
    + intros Hnil. apply app_eq_nil in Hnil. destruct Hnil as [_ Hnil].
      apply app_eq_nil in Hnil. destruct Hnil as [_ Hnil].
      exact (deliver_not_nil _ _ _ Hnil).
    + intros Hnil. apply app_eq_nil in Hnil. destruct Hnil as [_ Hnil].
      apply app_eq_nil in Hnil. destruct Hnil as [_ Hnil]. discriminate.
  - intros H. unfold Logger.isEnabled. rewrite H. reflexivity.
Qed.



Lemma missing_route_path flag :
  opt_get (VObj (Logger.missing_route moment_LL warning_sign flag)) "path"
  = VStr ("missingLogRoutes/" +:+ flag +:+ "/" +:+ moment_LL +:+ ".log").
Proof.
  unfold opt_get, Logger.missing_route.
  rewrite !(lookup_insert_ne _ _ "path") by discriminate.
  rewrite lookup_insert_eq. reflexivity.
Qed.

Lemma missing_route_critical flag :
  opt_get (VObj (Logger.missing_route moment_LL warning_sign flag)) "critical"
  = VBool true.
Proof.
  unfold opt_get, Logger.missing_route.
  rewrite !(lookup_insert_ne _ _ "critical") by discriminate.
  rewrite lookup_insert_eq. reflexivity.
Qed.



End LoggerFacts.




(** ** The second version and the runner at work *)

(** The unit hello for [fr] and [de]: the refusal of [de] ends the call. *)
Lemma legacy_bulk_is_all_or_nothing_witness :
  ∃ err st',
    legacy_startBulkTranslation RefJson.parse RefJson.stringify Demo.no_fault
      Demo.translator Demo.job_service "0"
      "s3://abhisesbucket/input/mixed.json" "s3://abhisesbucket/output/mixed.json"
      ["fr"; "de"] Demo.state
    = (Throw err, st')
    ∧ name err = "UnsupportedLanguagePairException"
    ∧ s3 st' = Demo.bucket_contents.
Proof.
  edestruct (legacy_bulk_is_all_or_nothing RefJson.parse RefJson.stringify Demo.no_fault
               Demo.translator Demo.job_service "0" Demo.state
               "s3://abhisesbucket/input/mixed.json"
               "s3://abhisesbucket/output/mixed.json"
               ["fr"; "de"] Demo.mixed_json
               [VObj {[ "Text" := VStr "hello" ]}; VObj {[ "note" := VNum 1 ]};
                VStr "world"]
               (manual_command (VStr "hello") "de") eq_refl eq_refl)
    as (err & st' & failed & Hrun & _ & Hfailed & [_ Hs]).
  - vm_compute. reflexivity.
  - vm_compute. reflexivity.
  - vm_compute. apply elem_of_cons. right. apply elem_of_cons. left. reflexivity.
  - intros s. vm_compute. discriminate.
  - exists err, st'. split; [exact Hrun | ]. split; [ | exact Hs].
    unfold Demo.translator in Hfailed.
    destruct (TargetLanguageCode failed =? "fr")%string; [discriminate | ].
    injection Hfailed as <-. reflexivity.
Defined.

(** The array ["good morning"]: skipped by the second version. *)
Lemma legacy_bulk_skips_plain_strings_witness :
  ∃ st',
    legacy_startBulkTranslation RefJson.parse RefJson.stringify Demo.no_fault
      Demo.translator Demo.job_service "0"
      "s3://abhisesbucket/input/units.json" "s3://abhisesbucket/output/units.json"
      ["fr"; "de"] Demo.state
    = (Ok "manual-job-done", st')
    ∧ s3 st' !! ("abhisesbucket", "output/units.json") = Some "[]"
    ∧ sends (journal st') = [].
Proof.
  destruct (legacy_bulk_skips_plain_strings RefJson.parse RefJson.stringify
              Demo.no_fault Demo.translator Demo.job_service "0" Demo.state
              "s3://abhisesbucket/input/units.json"
              "s3://abhisesbucket/output/units.json"
              ["fr"; "de"] Demo.good_morning_json ["good morning"]
              eq_refl (λ c, eq_refl) ltac:(vm_compute; reflexivity)
              ltac:(vm_compute; reflexivity))
    as (st' & Hrun & _ & Hs & Hsends & _).
  exists st'. split; [exact Hrun | ].
  split; [rewrite Hs; apply lookup_insert_eq | exact Hsends].
Defined.



(** A dictionary file that holds the object with an empty [translations]. *)
Lemma loaded_non_array_blocks_dictionary_witness :
  ∃ st1 st2 o,
    loadCustomDictionaryJson RefJson.parse Demo.no_fault true Demo.logger
      demo_object_dictionary_state
    = (Ok (VObj o), st1)
    ∧ addOrUpdateDictionaryEntry true Demo.logger "hello" "fr" "bonjour" st1
      = (Throw (Error "Could not add or update dictionary entry"), st2)
    ∧ entries_of st2 = VObj o.
Proof.
  destruct (loaded_non_array_blocks_dictionary RefJson.parse Demo.no_fault true Demo.logger
              demo_object_dictionary_state Demo.empty_translations_json
              (VObj {[ "translations" := VArr [] ]})
              eq_refl ltac:(vm_compute; reflexivity) ltac:(vm_compute; reflexivity)
              ltac:(intros l; discriminate))
    as (st1 & Hload & _ & Hadd & _).
  destruct (Hadd "hello" "fr" "bonjour") as (thrown & st2 & Hrun & Hthrown & Hst2).
  exists st1, st2, {[ "translations" := VArr [] ]}.
  split; [exact Hload | ]. split; [ | exact Hst2].
  rewrite Hrun, (Hthrown (λ _ _ _ _, eq_refl)). reflexivity.
Defined.
